(** * Smart Video Speed Controller: subtitle parser and segment scheduler

    A shallow embedding of [src/config.py], [src/models.py],
    [src/subtitle_parser.py] and the scheduling part of [src/processor.py],
    followed by the properties of the specification that concern them.

    Conventions of the embedding.
    - Python [float] values are kept abstract: the code is written against
      the interface [FloatOps] (the operators the source applies to floats),
      and the structural theorems hold for every implementation of it.
      [binary64_FloatOps] interprets the operators in IEEE 754 binary64, the
      arithmetic of Python's [float]; [Q_FloatOps] interprets them in exact
      rational arithmetic.  Theorems that need laws of [<] and [==] assume
      [FloatCompare], whose laws hold of binary64 with its NaN, or
      [FloatOrder], whose laws hold where no NaN arises; theorems on sums
      assume [FloatValueLaws] and say which operations must be exact.
    - Exceptions are modelled by their class; a computation that may raise
      returns a [result].
    - Python [str] is [string]; a character is a code point below 256. *)

From Stdlib Require Import List String Ascii Bool Arith ZArith QArith Lia Lqa.
From Stdlib Require Import Permutation.
From Stdlib Require PrimFloat Floats.
From Stdlib Require Import DecimalString DecimalNat FinFun.
Import ListNotations.

Set Implicit Arguments.

(** ** Python runtime *)

(** Exception classes raised by the modelled code. *)
Inductive exn : Type :=
| FileNotFoundError
| RuntimeError
| ValueError
| IndexError
| ZeroDivisionError
| UnicodeDecodeError
| OSError
| VideoProcessingError
| SubtitleExtractionError
| FFmpegError
| ValidationError.

Definition exn_eqb (a b : exn) : bool :=
  match a, b with
  | FileNotFoundError, FileNotFoundError
  | RuntimeError, RuntimeError
  | ValueError, ValueError
  | IndexError, IndexError
  | ZeroDivisionError, ZeroDivisionError
  | UnicodeDecodeError, UnicodeDecodeError
  | OSError, OSError
  | VideoProcessingError, VideoProcessingError
  | SubtitleExtractionError, SubtitleExtractionError
  | FFmpegError, FFmpegError
  | ValidationError, ValidationError => true
  | _, _ => false
  end.

(** The outcome of a call: a returned value or a raised exception. *)
Inductive result (A : Type) : Type :=
| Ok (a : A)
| Raise (e : exn).

Arguments Ok {A} a.
Arguments Raise {A} e.

Definition bind {A B : Type} (m : result A) (k : A -> result B) : result B :=
  match m with
  | Ok a => k a
  | Raise e => Raise e
  end.

Notation "x <- m ;; k" := (bind m (fun x => k))
  (at level 61, m at next level, right associativity).

(** [try: m except classes: raise e'] : an exception of [m] whose class is
    among [classes] is replaced by [e']; any other outcome is unchanged. *)
Definition try_except {A : Type} (m : result A) (classes : list exn) (e' : exn)
  : result A :=
  match m with
  | Ok a => Ok a
  | Raise e => if existsb (exn_eqb e) classes then Raise e' else Raise e
  end.

(** [try: m except Exception: raise e'] *)
Definition try_except_all {A : Type} (m : result A) (e' : exn) : result A :=
  match m with
  | Ok a => Ok a
  | Raise _ => Raise e'
  end.

Definition raises {A : Type} (m : result A) : Prop := exists e, m = Raise e.

(** The operations of Python's [float] that the source uses.  [of_int] is the
    implicit conversion of an [int] operand. *)
Class FloatOps (T : Type) : Type := {
  of_int : Z -> T;
  fadd : T -> T -> T;
  fsub : T -> T -> T;
  fmul : T -> T -> T;
  fdiv : T -> T -> T;
  flt : T -> T -> bool;
  fle : T -> T -> bool;
  feq : T -> T -> bool
}.

(** The builtin [float(s)] on a string, [None] standing for its
    [ValueError]. *)
Class FloatRead (T : Type) : Type := {
  float_of_str : string -> option T
}.

(** Order laws of [<] and [==] on floats that are not NaN: [<] is a strict
    weak order and [==] holds of the values that [<] does not separate. *)
Class FloatOrder (T : Type) {F : FloatOps T} : Prop := {
  flt_asym : forall x y : T, flt x y = true -> flt y x = false;
  flt_cotrans : forall x y z : T,
      flt x z = true -> flt x y = true \/ flt y z = true;
  feq_incomparable : forall x y : T,
      feq x y = true <-> flt x y = false /\ flt y x = false
}.

Arguments FloatOrder T {F}.

(** Laws of [<] and [==] that hold of IEEE 754 floats, NaN included.  A
    value is a number when it equals itself; NaN is the one value that
    does not, and it is neither below nor above anything. *)
Class FloatCompare (T : Type) {F : FloatOps T} : Prop := {
  cmp_asym : forall x y : T, flt x y = true -> flt y x = false;
  cmp_cotrans : forall x y z : T,
      feq y y = true -> flt x z = true -> flt x y = true \/ flt y z = true;
  cmp_eq_numbers : forall x y : T,
      feq x y = true -> feq x x = true /\ feq y y = true;
  cmp_eq_incomparable : forall x y : T,
      feq x x = true -> feq y y = true ->
      (feq x y = true <-> flt x y = false /\ flt y x = false)
}.

Arguments FloatCompare T {F}.

(** The rational number a float stands for; infinities and NaN stand for
    none. *)
Class FloatValue (T : Type) : Type := {
  val : T -> option Q
}.

(** On the floats that have a value, [<], [<=] and [==] compare the
    values; the [int] operands 0 and 1 convert exactly. *)
Class FloatValueLaws (T : Type) {F : FloatOps T} {V : FloatValue T} : Prop := {
  val_zero : exists q, val (of_int 0) = Some q /\ q == 0;
  val_one : exists q, val (of_int 1) = Some q /\ q == 1;
  val_lt : forall (x y : T) (a b : Q),
      val x = Some a -> val y = Some b -> (flt x y = true <-> a < b);
  val_le : forall (x y : T) (a b : Q),
      val x = Some a -> val y = Some b -> (fle x y = true <-> a <= b);
  val_eq : forall (x y : T) (a b : Q),
      val x = Some a -> val y = Some b -> (feq x y = true <-> a == b)
}.

Arguments FloatValueLaws T {F V}.

Section Builtins.
Context {T : Type} {F : FloatOps T}.

(** [max(a, b)]: the first argument is kept unless the second is greater. *)
Definition pymax (a b : T) : T := if flt a b then b else a.

(** [min(a, b)]: the first argument is kept unless the second is smaller. *)
Definition pymin (a b : T) : T := if flt b a then b else a.

(** [a / b] on floats raises on a zero divisor. *)
Definition truediv (a b : T) : result T :=
  if feq b (of_int 0) then Raise ZeroDivisionError else Ok (fdiv a b).

(** [l[i]] *)
Definition getitem {A : Type} (l : list A) (i : nat) : result A :=
  match nth_error l i with
  | Some x => Ok x
  | None => Raise IndexError
  end.

(** [float(s)] *)
Definition float {R : FloatRead T} (s : string) : result T :=
  match float_of_str s with
  | Some x => Ok x
  | None => Raise ValueError
  end.

(** [sorted(l, key=key)] is a stable sort comparing keys with [<].  Where
    no key is NaN, [<] orders the keys and every stable sort returns the
    same list; the builtin is modelled by stable insertion, which is that
    list.  With a NaN among the keys the outcome of the builtin depends on
    the comparisons its merge sort happens to make, and the model stands
    for it only on the lists shown by a run. *)
Fixpoint insort {A : Type} (key : A -> T) (x : A) (l : list A) : list A :=
  match l with
  | [] => [x]
  | y :: l' => if flt (key y) (key x) then y :: insort key x l' else x :: y :: l'
  end.

Definition sorted {A : Type} (key : A -> T) (l : list A) : list A :=
  fold_right (insort key) [] l.
End Builtins.

(** *** Strings *)

Local Open Scope string_scope.

(** [c.isspace()] for a code point below 256. *)
Definition isspace (c : ascii) : bool :=
  let n := nat_of_ascii c in
  ((9 <=? n) && (n <=? 13) || (28 <=? n) && (n <=? 32)
   || (n =? 133) || (n =? 160))%nat.

Fixpoint lstrip (s : string) : string :=
  match s with
  | String c s' => if isspace c then lstrip s' else s
  | EmptyString => EmptyString
  end.

Fixpoint rstrip (s : string) : string :=
  match s with
  | String c s' =>
      match rstrip s' with
      | EmptyString => if isspace c then EmptyString else String c EmptyString
      | r => String c r
      end
  | EmptyString => EmptyString
  end.

(** [s.strip()] *)
Definition strip (s : string) : string := rstrip (lstrip s).

(** [s.replace(old, new)] for one-character [old] and [new]. *)
Fixpoint replace (old new : ascii) (s : string) : string :=
  match s with
  | String c s' =>
      String (if Ascii.eqb c old then new else c) (replace old new s')
  | EmptyString => EmptyString
  end.

(** [sep in s] *)
Fixpoint contains (sep s : string) : bool :=
  String.prefix sep s
  || match s with
     | String _ s' => contains sep s'
     | EmptyString => false
     end.

(** [s.split(sep)] for a non-empty [sep]: the text is scanned from the left
    and cut at each occurrence of [sep] that starts after the previous one
    ended.  [skip] counts the characters of a matched separator still to be
    passed over; [cur] is the piece being read, reversed. *)
Fixpoint rev_string (acc s : string) : string :=
  match s with
  | String c s' => rev_string (String c acc) s'
  | EmptyString => acc
  end.

Fixpoint split_from (sep : string) (skip : nat) (cur : string) (s : string)
  : list string :=
  match s with
  | EmptyString => [rev_string "" cur]
  | String c s' =>
      match skip with
      | S k => split_from sep k cur s'
      | O =>
          if String.prefix sep s
          then rev_string "" cur :: split_from sep (String.length sep - 1) "" s'
          else split_from sep 0 (String c cur) s'
      end
  end.

Definition split (sep s : string) : list string := split_from sep 0 "" s.

(** [sep.join(l)] *)
Definition join (sep : string) (l : list string) : string := String.concat sep l.

(** *** Float literals

    [float(s)] reads the literals of Python's grammar: surrounding
    whitespace, an optional sign, then either digits with an optional
    fractional part (at least one digit in all) and an optional exponent, or
    one of the spellings [inf], [infinity] and [nan] in either case.
    Digits may be grouped by single underscores. *)

(** What a literal denotes: the number [(-1)^neg * mant * 10^e10], an
    infinity, or NaN. *)
Inductive literal : Type :=
| Lit_finite (neg : bool) (mant : Z) (e10 : Z)
| Lit_infinity (neg : bool)
| Lit_nan.

Definition is_digit (c : ascii) : bool :=
  let n := nat_of_ascii c in ((48 <=? n) && (n <=? 57))%nat.

Definition digit_val (c : ascii) : Z := Z.of_nat (nat_of_ascii c - 48).

(** The whitespace that [float] skips: the ASCII whitespace, and the
    Unicode spaces above 127 (here U+0085 and U+00A0), which it first turns
    into blanks.  The separators U+001C to U+001F are not among them,
    although [str.isspace] holds of them. *)
Definition float_isspace (c : ascii) : bool :=
  let n := nat_of_ascii c in
  ((9 <=? n) && (n <=? 13) || (n =? 32) || (n =? 133) || (n =? 160))%nat.

Fixpoint float_lstrip (s : string) : string :=
  match s with
  | String c s' => if float_isspace c then float_lstrip s' else s
  | EmptyString => EmptyString
  end.

Fixpoint float_rstrip (s : string) : string :=
  match s with
  | String c s' =>
      match float_rstrip s' with
      | EmptyString =>
          if float_isspace c then EmptyString else String c EmptyString
      | r => String c r
      end
  | EmptyString => EmptyString
  end.

(** Underscores are removed before anything else is read; one is allowed
    only after a digit and before a digit.  [prev] is the character
    before [s]. *)
Fixpoint ungroup (prev : ascii) (s : string) : option string :=
  match s with
  | EmptyString => if Ascii.eqb prev "_" then None else Some EmptyString
  | String c s' =>
      if Ascii.eqb c "_" then
        if is_digit prev then ungroup c s' else None
      else if (Ascii.eqb prev "_" && negb (is_digit c))%bool then None
      else option_map (String c) (ungroup c s')
  end.

Definition lower (c : ascii) : ascii :=
  let n := nat_of_ascii c in
  if ((65 <=? n) && (n <=? 90))%nat then ascii_of_nat (n + 32) else c.

Fixpoint lowercase (s : string) : string :=
  match s with
  | String c s' => String (lower c) (lowercase s')
  | EmptyString => EmptyString
  end.

Fixpoint read_digits (s : string) (acc : Z) (n : nat) : Z * nat * string :=
  match s with
  | String c s' =>
      if is_digit c then read_digits s' (10 * acc + digit_val c)%Z (S n)
      else (acc, n, s)
  | EmptyString => (acc, n, s)
  end.

Definition read_sign (s : string) : bool * string :=
  match s with
  | String "-" s' => (true, s')
  | String "+" s' => (false, s')
  | _ => (false, s)
  end.

Definition read_exponent (s : string) : option Z :=
  match s with
  | EmptyString => Some 0%Z
  | String c s' =>
      if (Ascii.eqb c "e" || Ascii.eqb c "E")%bool then
        let (neg, s1) := read_sign s' in
        let '(e, n, s2) := read_digits s1 0 0 in
        match n, s2 with
        | S _, EmptyString => Some (if neg then (- e)%Z else e)
        | _, _ => None
        end
      else None
  end.

Definition read_literal (s : string) : option literal :=
  match ungroup "000" s with
  | None => None
  | Some s0 =>
      let (neg, s1) := read_sign (float_rstrip (float_lstrip s0)) in
      let word := lowercase s1 in
      if (String.eqb word "inf" || String.eqb word "infinity")%bool
      then Some (Lit_infinity neg)
      else if String.eqb word "nan" then Some Lit_nan
      else
        let '(ip, ni, s2) := read_digits s1 0 0 in
        let '(mant, nf, s3) :=
          match s2 with
          | String "." r => read_digits r ip 0
          | _ => (ip, 0%nat, s2)
          end in
        if (ni + nf =? 0)%nat then None
        else
          match read_exponent s3 with
          | None => None
          | Some e => Some (Lit_finite neg mant (e - Z.of_nat nf))
          end
  end.

(** The rational reading of [float(s)]: the number a literal denotes.
    The infinities and NaN are no rationals, and this reader has no value
    for their spellings. *)
Definition decimal_of_str (s : string) : option Q :=
  match read_literal s with
  | Some (Lit_finite neg mant e10) =>
      let m := if neg then (- mant)%Z else mant in
      Some (Qred (if (0 <=? e10)%Z then inject_Z (m * 10 ^ e10)
                  else Qmake m (Z.to_pos (10 ^ (- e10)))))
  | _ => None
  end.

(** Exact rational arithmetic; values are kept in lowest terms. *)
#[export] Instance Q_FloatOps : FloatOps Q := {
  of_int := inject_Z;
  fadd x y := Qred (x + y);
  fsub x y := Qred (x - y);
  fmul x y := Qred (x * y);
  fdiv x y := Qred (x / y);
  flt x y := negb (Qle_bool y x);
  fle x y := Qle_bool x y;
  feq x y := Qeq_bool x y
}.

#[export] Instance Q_FloatRead : FloatRead Q := {
  float_of_str := decimal_of_str
}.

#[export] Instance Q_FloatValue : FloatValue Q := {
  val := Some
}.

(** IEEE 754 binary64 arithmetic, the arithmetic of Python's [float], as
    computed by the primitive floats.  [of_int] is exact for integers below
    2^53 in absolute value, which covers the [int] operands of the source
    (0, 1, 60, 100 and 3600). *)
Module Binary64.
Import PrimFloat.

Fixpoint of_pos (p : positive) : float :=
  match p with
  | xH => 1%float
  | xO p' => (2 * of_pos p')%float
  | xI p' => (2 * of_pos p' + 1)%float
  end.

Definition of_Z (z : Z) : float :=
  match z with
  | Z0 => 0%float
  | Zpos p => of_pos p
  | Zneg p => (- of_pos p)%float
  end.

#[export] Instance binary64_FloatOps : FloatOps float := {
  of_int := of_Z;
  fadd := PrimFloat.add;
  fsub := PrimFloat.sub;
  fmul := PrimFloat.mul;
  fdiv := PrimFloat.div;
  flt := PrimFloat.ltb;
  fle := PrimFloat.leb;
  feq := PrimFloat.eqb
}.

(** [float(s)]: the float nearest to the number the literal denotes, ties
    going to the even mantissa, as the conversion of CPython rounds.  An
    integer mantissa is rounded by [binary_normalize]; a literal with a
    negative power of ten is the correctly rounded quotient [SFdiv] of the
    mantissa and the power of ten. *)
Definition round_literal (neg : bool) (mant : Z) (e10 : Z)
  : SpecFloat.spec_float :=
  match mant with
  | Zpos p =>
      if (0 <=? e10)%Z
      then SpecFloat.binary_normalize FloatOps.prec FloatOps.emax
             (if neg then (- (mant * 10 ^ e10))%Z else (mant * 10 ^ e10)%Z)
             0 false
      else SpecFloat.SFdiv FloatOps.prec FloatOps.emax
             (SpecFloat.S754_finite neg p 0)
             (SpecFloat.S754_finite false (Z.to_pos (10 ^ (- e10))) 0)
  | _ => SpecFloat.S754_zero neg
  end.

Definition binary64_of_str (s : string) : option float :=
  match read_literal s with
  | Some (Lit_finite neg mant e10) =>
      Some (FloatOps.SF2Prim (round_literal neg mant e10))
  | Some (Lit_infinity neg) => Some (if neg then neg_infinity else infinity)
  | Some Lit_nan => Some nan
  | None => None
  end.

#[export] Instance binary64_FloatRead : FloatRead float := {
  float_of_str := binary64_of_str
}.

(** A float in sign, mantissa and exponent, [SpecFloat.spec_float], is
    placed on the integers: a finite float [m * 2^e] has [e >= -1074] and
    is counted in units of [2^-1074]; the infinities lie beyond all finite
    floats.  NaN has no place; 0 stands in for it. *)
Definition SFord (f : SpecFloat.spec_float) : Z :=
  match f with
  | SpecFloat.S754_zero _ => 0
  | SpecFloat.S754_nan => 0
  | SpecFloat.S754_infinity s => if s then - 2 ^ 2100 else 2 ^ 2100
  | SpecFloat.S754_finite s m e =>
      if s then - (Zpos m * 2 ^ (e + 1074)) else Zpos m * 2 ^ (e + 1074)
  end%Z.

Definition SFis_nan (f : SpecFloat.spec_float) : bool :=
  match f with
  | SpecFloat.S754_nan => true
  | _ => false
  end.

Definition ord (x : float) : Z := SFord (FloatOps.Prim2SF x).

Definition isnan (x : float) : bool := SFis_nan (FloatOps.Prim2SF x).

(** [2^1074], the number of units in 1. *)
Definition unit_scale : positive := (2 ^ 1074)%positive.

#[export] Instance binary64_FloatValue : FloatValue float := {
  val x :=
    match FloatOps.Prim2SF x with
    | SpecFloat.S754_zero _ | SpecFloat.S754_finite _ _ _ =>
        Some (Qmake (ord x) unit_scale)
    | _ => None
    end
}.
End Binary64.

(** ** [src/config.py] *)

Module Config.
Definition DEFAULT_SPEED_NO_SUBTITLE : Q := 2.
Definition DEFAULT_SPEED_WITH_SUBTITLE : Q := 1.
Definition DEFAULT_SUBTITLE_BUFFER : Q := 1 # 2.

Definition ENCODING_UTF8_SIG : string := "utf-8-sig".
Definition ENCODING_UTF8 : string := "utf-8".

Definition SRT_TIME_DELIMITER : string := " --> ".
Definition SRT_BLOCK_DELIMITER : string :=
  String "010" (String "010" EmptyString).
Definition MIN_SRT_LINES : nat := 3.

Definition SECONDS_PER_HOUR : Z := 3600.
Definition SECONDS_PER_MINUTE : Z := 60.
End Config.

Definition newline : string := String "010" EmptyString.

(** ** [src/models.py] *)

Module SubtitleSegment.
Section Def.
Context {T : Type} {F : FloatOps T}.

Record t : Type := make {
  start_time : T;
  end_time : T;
  text : string
}.

Definition duration (self : t) : T :=
  fsub (end_time self) (start_time self).
End Def.
Arguments t T : clear implicits.
End SubtitleSegment.

Module VideoSegment.
Section Def.
Context {T : Type} {F : FloatOps T}.

Record t : Type := make {
  start_time : T;
  end_time : T;
  speed : T;
  has_subtitle : bool
}.

Definition duration (self : t) : T :=
  fsub (end_time self) (start_time self).

Definition output_duration (self : t) : result T :=
  truediv (duration self) (speed self).
End Def.
Arguments t T : clear implicits.
End VideoSegment.

Local Open Scope list_scope.

(** ** [src/subtitle_parser.py] *)

Module SubtitleParser.
Section Def.
Context {T : Type} {F : FloatOps T} {R : FloatRead T}.

(** The file system as the parser sees it: [open(path, 'r',
    encoding=enc).read()] returns the decoded text or raises. *)
Definition file_reader : Type := string -> string -> result string.

Definition _read_srt_file (fs : file_reader) (srt_file : string)
  : result string :=
  match fs srt_file Config.ENCODING_UTF8_SIG with
  | Raise UnicodeDecodeError => fs srt_file Config.ENCODING_UTF8
  | r => r
  end.

Definition _parse_srt_time (time_str : string) : result T :=
  let time_str := replace "," "." time_str in
  let parts := split ":" time_str in
  if negb (List.length parts =? 3)%nat then Raise ValueError
  else
    try_except
      (p0 <- getitem parts 0 ;;
       hours <- float p0 ;;
       p1 <- getitem parts 1 ;;
       minutes <- float p1 ;;
       p2 <- getitem parts 2 ;;
       seconds <- float p2 ;;
       Ok (fadd (fadd (fmul hours (of_int Config.SECONDS_PER_HOUR))
                      (fmul minutes (of_int Config.SECONDS_PER_MINUTE)))
                seconds))
      [ValueError] ValueError.

Definition _parse_srt_block (block : string)
  : result (option (SubtitleSegment.t T)) :=
  let lines := split newline block in
  if (List.length lines <? Config.MIN_SRT_LINES)%nat then Ok None
  else
    timing_line <- getitem lines 1 ;;
    if negb (contains Config.SRT_TIME_DELIMITER timing_line) then Ok None
    else
      try_except
        (match split Config.SRT_TIME_DELIMITER timing_line with
         | [start_str; end_str] =>
             start_time <- _parse_srt_time (strip start_str) ;;
             end_time <- _parse_srt_time (strip end_str) ;;
             let text := join " " (skipn 2 lines) in
             Ok (Some (SubtitleSegment.make start_time end_time text))
         | _ => Raise ValueError
         end)
        [ValueError; IndexError] SubtitleExtractionError.

(** The [for block in blocks] loop of [parse_srt_file]; a parsed
    [SubtitleSegment] is always truthy, [None] is skipped. *)
Fixpoint parse_blocks (blocks : list string)
    (subtitles : list (SubtitleSegment.t T))
  : result (list (SubtitleSegment.t T)) :=
  match blocks with
  | [] => Ok subtitles
  | block :: rest =>
      subtitle <- _parse_srt_block (strip block) ;;
      match subtitle with
      | Some sub => parse_blocks rest (subtitles ++ [sub])
      | None => parse_blocks rest subtitles
      end
  end.

Definition parse_srt_file (fs : file_reader) (srt_file : string)
  : result (list (SubtitleSegment.t T)) :=
  try_except_all
    (content <- _read_srt_file fs srt_file ;;
     let blocks := split Config.SRT_BLOCK_DELIMITER (strip content) in
     subtitles <- parse_blocks blocks [] ;;
     Ok (sorted SubtitleSegment.start_time subtitles))
    SubtitleExtractionError.
End Def.
End SubtitleParser.

(** ** [src/processor.py] *)

Module VideoSpeedProcessor.
(** What [_validate_inputs] asks of its surroundings: [Path.exists] and
    [FFmpegWrapper.is_installed]. *)
Record Env : Type := {
  path_exists : string -> bool;
  ffmpeg_is_installed : bool
}.

Section Def.
Context {T : Type} {F : FloatOps T}.

Record t : Type := make {
  input_file : string;
  output_file : string;
  speed_no_subtitle : T;
  speed_with_subtitle : T;
  subtitle_buffer : T
}.

Definition _validate_inputs (env : Env) (self : t) : result unit :=
  if negb (path_exists env (input_file self)) then Raise FileNotFoundError
  else if negb (ffmpeg_is_installed env) then Raise RuntimeError
  else if fle (speed_no_subtitle self) (of_int 0)
          || fle (speed_with_subtitle self) (of_int 0)
  then Raise ValidationError
  else if flt (subtitle_buffer self) (of_int 0) then Raise ValidationError
  else Ok tt.

Definition __init__ (env : Env) (input_file output_file : string)
    (speed_no_subtitle speed_with_subtitle subtitle_buffer : T)
  : result t :=
  let self := make input_file output_file speed_no_subtitle
                   speed_with_subtitle subtitle_buffer in
  _ <- _validate_inputs env self ;;
  Ok self.

Definition _calculate_subtitle_start (self : t) (subtitle_start : T) : T :=
  pymax (of_int 0) (fsub subtitle_start (subtitle_buffer self)).

Definition _calculate_subtitle_end (self : t) (subtitle_end : T)
    (video_duration : T) : T :=
  pymin video_duration (fadd subtitle_end (subtitle_buffer self)).

Definition _create_non_subtitle_segment (self : t) (start end_ : T)
  : VideoSegment.t T :=
  VideoSegment.make start end_ (speed_no_subtitle self) false.

Definition _create_subtitle_segment (self : t) (start end_ : T)
  : VideoSegment.t T :=
  VideoSegment.make start end_ (speed_with_subtitle self) true.

(** One iteration of the loop of [_create_video_segments] on the state
    [(segments, current_time)]. *)
Definition segment_step (self : t) (video_duration : T)
    (st : list (VideoSegment.t T) * T) (subtitle : SubtitleSegment.t T)
  : list (VideoSegment.t T) * T :=
  let '(segments, current_time) := st in
  let sub_start :=
    _calculate_subtitle_start self (SubtitleSegment.start_time subtitle) in
  let sub_end :=
    _calculate_subtitle_end self (SubtitleSegment.end_time subtitle)
                            video_duration in
  let segments :=
    if flt current_time sub_start
    then segments ++ [_create_non_subtitle_segment self current_time sub_start]
    else segments in
  (segments ++ [_create_subtitle_segment self sub_start sub_end], sub_end).

Definition _create_video_segments (self : t)
    (subtitles : list (SubtitleSegment.t T)) (video_duration : T)
  : list (VideoSegment.t T) :=
  let '(segments, current_time) :=
    fold_left (segment_step self video_duration) subtitles ([], of_int 0) in
  if flt current_time video_duration
  then segments ++ [_create_non_subtitle_segment self current_time video_duration]
  else segments.

(** [sum(seg.output_duration for seg in segments)]: the additions are made
    from the left, starting from the [int] 0.  (From version 3.12 on,
    CPython also keeps the rounding errors of these additions and adds
    their sum at the end; the two sums differ only where an addition
    rounds.) *)
Fixpoint sum_output_duration (segments : list (VideoSegment.t T)) (acc : T)
  : result T :=
  match segments with
  | [] => Ok acc
  | seg :: rest =>
      d <- VideoSegment.output_duration seg ;;
      sum_output_duration rest (fadd acc d)
  end.

(** [_print_segment_info]: the values it computes and prints,
    [(output_duration, time_saved_percent)]. *)
Definition _print_segment_info (segments : list (VideoSegment.t T))
    (video_duration : T) : result (T * T) :=
  output_duration <- sum_output_duration segments (of_int 0) ;;
  ratio <- truediv output_duration video_duration ;;
  let time_saved_percent := fmul (fsub (of_int 1) ratio) (of_int 100) in
  Ok (output_duration, time_saved_percent).
End Def.
Arguments t T : clear implicits.
End VideoSpeedProcessor.

(** ** The components of the specification *)

Section Components.
Context {T : Type} {F : FloatOps T}.

(** The Segment Scheduler: a processor is built from the parameters (which
    validates them) and asked for the segments. *)
Definition schedule (env : VideoSpeedProcessor.Env) (input output : string)
    (catalog : list (SubtitleSegment.t T))
    (bufferSeconds totalDuration speedNoSub speedWithSub : T)
  : result (list (VideoSegment.t T)) :=
  self <- VideoSpeedProcessor.__init__ env input output
            speedNoSub speedWithSub bufferSeconds ;;
  Ok (VideoSpeedProcessor._create_video_segments self catalog totalDuration).

(** The Duration Estimator's [outputDuration]. *)
Definition estimate (segments : list (VideoSegment.t T)) : result T :=
  VideoSpeedProcessor.sum_output_duration segments (of_int 0).
End Components.

(** ** Predicates of the specification *)

Section Predicates.
Context {T : Type} {F : FloatOps T}.

Import VideoSpeedProcessor.

(** The padded window of a subtitle interval. *)
Definition paddedStart (self : t T) (s : SubtitleSegment.t T) : T :=
  _calculate_subtitle_start self (SubtitleSegment.start_time s).

Definition paddedEnd (self : t T) (D : T) (s : SubtitleSegment.t T) : T :=
  _calculate_subtitle_end self (SubtitleSegment.end_time s) D.

(** The with-subtitle segment of an interval. *)
Definition window_segment (self : t T) (D : T) (s : SubtitleSegment.t T)
  : VideoSegment.t T :=
  _create_subtitle_segment self (paddedStart self s) (paddedEnd self D s).

(** The catalog invariant: [end > start] in every interval, and the
    intervals ascend by [start]. *)
Definition interval_ok (s : SubtitleSegment.t T) : bool :=
  flt (SubtitleSegment.start_time s) (SubtitleSegment.end_time s).

Fixpoint ascending {A : Type} (key : A -> T) (l : list A) : bool :=
  match l with
  | a :: (b :: _) as r => negb (flt (key b) (key a)) && ascending key r
  | _ => true
  end.

Definition catalog_invariant (catalog : list (SubtitleSegment.t T)) : bool :=
  forallb interval_ok catalog && ascending SubtitleSegment.start_time catalog.

(** No padded window starts before the one preceding it has ended. *)
Fixpoint windows_disjoint (self : t T) (D : T)
    (catalog : list (SubtitleSegment.t T)) : bool :=
  match catalog with
  | a :: (b :: _) as r =>
      negb (flt (paddedStart self b) (paddedEnd self D a))
      && windows_disjoint self D r
  | _ => true
  end.

(** Consecutive captions lie at least twice the buffer apart. *)
Fixpoint well_separated (self : t T) (catalog : list (SubtitleSegment.t T))
  : bool :=
  match catalog with
  | a :: (b :: _) as r =>
      fle (fadd (SubtitleSegment.end_time a) (subtitle_buffer self))
          (fsub (SubtitleSegment.start_time b) (subtitle_buffer self))
      && well_separated self r
  | _ => true
  end.

(** Every padded window has a positive length. *)
Definition windows_nonempty (self : t T) (D : T)
    (catalog : list (SubtitleSegment.t T)) : bool :=
  forallb (fun s => flt (paddedStart self s) (paddedEnd self D s)) catalog.

(** No padded window is inverted ([paddedEnd < paddedStart]). *)
Definition windows_proper (self : t T) (D : T)
    (catalog : list (SubtitleSegment.t T)) : bool :=
  forallb (fun s => negb (flt (paddedEnd self D s) (paddedStart self s)))
          catalog.





(** The no-subtitle segment emitted before an interval, if any. *)
Definition gap_segment (self : t T) (cur : T) (s : SubtitleSegment.t T)
  : list (VideoSegment.t T) :=
  if flt cur (paddedStart self s)
  then [_create_non_subtitle_segment self cur (paddedStart self s)]
  else [].

(** The loop of [_create_video_segments] as a recursion on the catalog:
    the segments emitted from cursor [cur] on, and the final cursor. *)
Fixpoint sweep (self : t T) (D : T) (cur : T)
    (subtitles : list (SubtitleSegment.t T)) : list (VideoSegment.t T) * T :=
  match subtitles with
  | [] => ([], cur)
  | s :: rest =>
      let (segs, c) := sweep self D (paddedEnd self D s) rest in
      (gap_segment self cur s ++ window_segment self D s :: segs, c)
  end.


Fixpoint disjoint_from (self : t T) (D : T) (cur : T)
    (catalog : list (SubtitleSegment.t T)) : bool :=
  match catalog with
  | [] => true
  | s :: rest =>
      negb (flt (paddedStart self s) cur)
      && disjoint_from self D (paddedEnd self D s) rest
  end.

(** The speed a segment must carry according to its flag. *)
Definition speed_matches (self : t T) (seg : VideoSegment.t T) : Prop :=
  VideoSegment.speed seg =
    if VideoSegment.has_subtitle seg
    then speed_with_subtitle self else speed_no_subtitle self.

(** A segment without subtitle is directly followed by one with. *)
Fixpoint gaps_followed (segments : list (VideoSegment.t T)) : bool :=
  match segments with
  | [] => true
  | a :: rest =>
      (VideoSegment.has_subtitle a
       || match rest with
          | b :: _ => VideoSegment.has_subtitle b
          | [] => false
          end)
      && gaps_followed rest
  end.

(** No two neighbouring segments are both without subtitle. *)
Fixpoint no_adjacent_gaps (segments : list (VideoSegment.t T)) : bool :=
  match segments with
  | [] => true
  | a :: rest =>
      match rest with
      | b :: _ => VideoSegment.has_subtitle a || VideoSegment.has_subtitle b
      | [] => true
      end
      && no_adjacent_gaps rest
  end.

(** The end of the last segment, [cur] when there is none. *)
Definition final_end (cur : T) (segments : list (VideoSegment.t T)) : T :=
  fold_left (fun _ s => VideoSegment.end_time s) segments cur.

(** No element is below one that precedes it. *)
Fixpoint nondecreasing {A : Type} (key : A -> T) (l : list A) : bool :=
  match l with
  | [] => true
  | a :: r =>
      forallb (fun b => negb (flt (key b) (key a))) r && nondecreasing key r
  end.

(** The value is a number, not NaN. *)
Definition is_number (x : T) : bool := feq x x.
End Predicates.

(** *** Operations that do not round *)

Section Exactness.
Context {T : Type} {F : FloatOps T} {V : FloatValue T}.

(** [op x y] has a value, and it is the exact result [qop] of the values
    of [x] and [y]: the operation neither rounds nor overflows. *)
Definition exact (op : T -> T -> T) (qop : Q -> Q -> Q) (x y : T) : bool :=
  match val x, val y, val (op x y) with
  | Some a, Some b, Some c => Qeq_bool c (qop a b)
  | _, _, _ => false
  end.

(** Every operation of [sum(seg.output_duration for seg in segments)] is
    exact: the subtraction and the division of each segment, and each
    addition to the running sum [acc]. *)
Fixpoint sum_exact (segments : list (VideoSegment.t T)) (acc : T) : bool :=
  match segments with
  | [] => true
  | seg :: rest =>
      let d := fdiv (VideoSegment.duration seg) (VideoSegment.speed seg) in
      exact fsub Qminus (VideoSegment.end_time seg) (VideoSegment.start_time seg)
      && exact fdiv Qdiv (VideoSegment.duration seg) (VideoSegment.speed seg)
      && exact fadd Qplus acc d
      && sum_exact rest (fadd acc d)
  end.

(** The value of a float, 0 when it has none. *)
Definition qval (x : T) : Q :=
  match val x with
  | Some q => q
  | None => 0
  end.

(** The sum of the exact output durations, and of the exact spans. *)
Fixpoint qsum (segments : list (VideoSegment.t T)) : Q :=
  match segments with
  | [] => 0
  | seg :: rest =>
      (qval (VideoSegment.end_time seg) - qval (VideoSegment.start_time seg))
      / qval (VideoSegment.speed seg)
      + qsum rest
  end.

Fixpoint qspan (segments : list (VideoSegment.t T)) : Q :=
  match segments with
  | [] => 0
  | seg :: rest =>
      (qval (VideoSegment.end_time seg) - qval (VideoSegment.start_time seg))
      + qspan rest
  end.

(** Each segment begins at the value at which the previous one ended, from
    the value [c] on. *)
Fixpoint vchained (c : Q) (segments : list (VideoSegment.t T)) : Prop :=
  match segments with
  | [] => True
  | seg :: rest =>
      c == qval (VideoSegment.start_time seg)
      /\ vchained (qval (VideoSegment.end_time seg)) rest
  end.

(** Start, end and speed of the segment have values. *)
Definition finite_segment (seg : VideoSegment.t T) : Prop :=
  val (VideoSegment.start_time seg) <> None
  /\ val (VideoSegment.end_time seg) <> None
  /\ val (VideoSegment.speed seg) <> None.
End Exactness.

(** *** Shapes of a subtitle block *)

Section BlockShapes.
Context {T : Type} {F : FloatOps T} {R : FloatRead T}.

(** Fewer than three lines. *)
Definition too_short (block : string) : Prop :=
  (List.length (split newline block) < Config.MIN_SRT_LINES)%nat.

(** The timing line (line index 1) has no [" --> "]. *)
Definition lacks_separator (block : string) : Prop :=
  exists timing_line,
    nth_error (split newline block) 1 = Some timing_line
    /\ contains Config.SRT_TIME_DELIMITER timing_line = false.

(** Enough lines and the separator, but one of the two timestamps of the
    timing line does not parse. *)
Definition bad_timestamp (block : string) : Prop :=
  (Config.MIN_SRT_LINES <= List.length (split newline block))%nat
  /\ exists timing_line start_str end_str,
      nth_error (split newline block) 1 = Some timing_line
      /\ contains Config.SRT_TIME_DELIMITER timing_line = true
      /\ split Config.SRT_TIME_DELIMITER timing_line = [start_str; end_str]
      /\ (raises (SubtitleParser._parse_srt_time (T:=T) (strip start_str))
          \/ raises (SubtitleParser._parse_srt_time (T:=T) (strip end_str))).
End BlockShapes.

(** ** Sample inputs *)

Module Samples.
(** The input file exists and FFmpeg is installed. *)
Definition env : VideoSpeedProcessor.Env :=
  {| VideoSpeedProcessor.path_exists := fun _ => true;
     VideoSpeedProcessor.ffmpeg_is_installed := true |}.

(** A processor with the default configuration of [Config]. *)
Definition processor : VideoSpeedProcessor.t Q :=
  VideoSpeedProcessor.make "in.mkv" "out.mkv"
    Config.DEFAULT_SPEED_NO_SUBTITLE Config.DEFAULT_SPEED_WITH_SUBTITLE
    Config.DEFAULT_SUBTITLE_BUFFER.

Definition caption (a b : Q) : SubtitleSegment.t Q :=
  SubtitleSegment.make a b "x".

Definition seg (a b speed : Q) (flag : bool) : VideoSegment.t Q :=
  VideoSegment.make a b speed flag.

(** One caption, far from both ends of a 100 s video. *)
Definition single : list (SubtitleSegment.t Q) := [caption 10 12].

(** Two captions half a second apart: with the default padding of 0.5 s
    on each side their padded windows overlap. *)
Definition close_pair : list (SubtitleSegment.t Q) :=
  [caption 1 3; caption (7 # 2) 5].

(** A caption that starts after the end of a 10 s video. *)
Definition late : list (SubtitleSegment.t Q) := [caption 20 30].

(** A processor playing everything at speed 1, with the default padding. *)
Definition even_processor : VideoSpeedProcessor.t Q :=
  VideoSpeedProcessor.make "in.mkv" "out.mkv" 1 1
    Config.DEFAULT_SUBTITLE_BUFFER.

(** The same over binary64. *)
Definition processor64
    (speed_no_subtitle speed_with_subtitle buffer : PrimFloat.float)
  : VideoSpeedProcessor.t PrimFloat.float :=
  VideoSpeedProcessor.make "in.mkv" "out.mkv"
    speed_no_subtitle speed_with_subtitle buffer.

Definition caption64 (a b : PrimFloat.float)
  : SubtitleSegment.t PrimFloat.float :=
  SubtitleSegment.make a b "x".

Definition titled64 (a b : PrimFloat.float) (text : string)
  : SubtitleSegment.t PrimFloat.float :=
  SubtitleSegment.make a b text.

Definition seg64 (a b speed : PrimFloat.float) (flag : bool)
  : VideoSegment.t PrimFloat.float :=
  VideoSegment.make a b speed flag.

Definition lines (l : list string) : string := join newline l.

(** A file system holding one subtitle file with the given text. *)
Definition holding (content : string) : SubtitleParser.file_reader :=
  fun _ _ => Ok content.

(** Two well-formed blocks out of order, with a one-line block between. *)
Definition unordered_srt : string :=
  lines ["1"; "00:00:05,000 --> 00:00:07,000"; "second"; "line"; "";
         "stray"; "";
         "2"; "00:00:01,000 --> 00:00:02,500"; "first"; ""].

(** A block whose end precedes its start. *)
Definition inverted_srt : string :=
  lines ["1"; "00:00:05,000 --> 00:00:02,000"; "hi"].

(** A block whose first timestamp is not a time. *)
Definition bad_srt : string :=
  lines ["1"; "00:00:01,000 --> 00:00:02,000"; "fine"; "";
         "2"; "bad --> 00:00:02,000"; "hi"].

(** Three blocks; the hours of the second start are spelled [nan]. *)
Definition nan_srt : string :=
  lines ["1"; "00:00:02,000 --> 00:00:03,000"; "a"; "";
         "2"; "nan:00:00 --> 00:00:05,000"; "b"; "";
         "3"; "00:00:01,000 --> 00:00:01,500"; "c"].
End Samples.

(** ** [src/cli.py] *)

Module ArgumentParser.
Section Def.
Context {T : Type} {F : FloatOps T}.

(** The namespace returned by [parse_args]. *)
Record Namespace : Type := {
  input : string;
  output : string;
  speed_no_sub : T;
  speed_with_sub : T;
  buffer : T
}.

Definition validate_arguments (args : Namespace) : result unit :=
  if fle (speed_no_sub args) (of_int 0) || fle (speed_with_sub args) (of_int 0)
  then Raise ValidationError
  else if flt (buffer args) (of_int 0) then Raise ValidationError
  else Ok tt.

(** How [parser.parse_args()] ends: it returns the namespace, or [argparse]
    ends the program itself by [sys.exit(code)], with status 2 on a command
    line it rejects and status 0 after printing the help. *)
Inductive parsed : Type :=
| Parsed (args : Namespace)
| ParserExit (code : Z).
End Def.
Arguments Namespace T : clear implicits.
Arguments parsed T : clear implicits.
End ArgumentParser.

(** ** [main.py], the single-file version of the program

    Its [VideoSpeedProcessor] has the fields of the one of
    [src/processor.py], and its two dataclasses the fields of those of
    [src/models.py]; the records above are used for them. *)

Module Legacy.
Section Def.
Context {T : Type} {F : FloatOps T} {R : FloatRead T}.

Definition _parse_time (time_str : string) : result T :=
  let time_str := replace "," "." time_str in
  let parts := split ":" time_str in
  p0 <- getitem parts 0 ;;
  hours <- float p0 ;;
  p1 <- getitem parts 1 ;;
  minutes <- float p1 ;;
  p2 <- getitem parts 2 ;;
  seconds <- float p2 ;;
  Ok (fadd (fadd (fmul hours (of_int 3600)) (fmul minutes (of_int 60)))
           seconds).

(** The [for block in blocks] loop of [_parse_srt].  Unpacking
    [timing_line.split(' --> ')] into two names raises [ValueError] unless
    there are exactly two parts. *)
Fixpoint parse_blocks (blocks : list string)
    (subtitles : list (SubtitleSegment.t T))
  : result (list (SubtitleSegment.t T)) :=
  match blocks with
  | [] => Ok subtitles
  | block :: rest =>
      let lines := split newline (strip block) in
      if (3 <=? List.length lines)%nat then
        timing_line <- getitem lines 1 ;;
        match split " --> " timing_line with
        | [start_str; end_str] =>
            start_time <- _parse_time (strip start_str) ;;
            end_time <- _parse_time (strip end_str) ;;
            let text := join " " (skipn 2 lines) in
            parse_blocks rest
              (subtitles ++ [SubtitleSegment.make start_time end_time text])
        | _ => Raise ValueError
        end
      else parse_blocks rest subtitles
  end.

Definition _parse_srt (fs : SubtitleParser.file_reader) (srt_file : string)
  : result (list (SubtitleSegment.t T)) :=
  content <- fs srt_file "utf-8-sig" ;;
  let blocks := split (String "010" (String "010" EmptyString)) (strip content) in
  subtitles <- parse_blocks blocks [] ;;
  Ok (sorted SubtitleSegment.start_time subtitles).

(** One iteration of the loop of [_create_video_segments]. *)
Definition segment_step (self : VideoSpeedProcessor.t T) (video_duration : T)
    (st : list (VideoSegment.t T) * T) (subtitle : SubtitleSegment.t T)
  : list (VideoSegment.t T) * T :=
  let '(segments, current_time) := st in
  let sub_start :=
    pymax (of_int 0)
          (fsub (SubtitleSegment.start_time subtitle)
                (VideoSpeedProcessor.subtitle_buffer self)) in
  let sub_end :=
    pymin video_duration
          (fadd (SubtitleSegment.end_time subtitle)
                (VideoSpeedProcessor.subtitle_buffer self)) in
  let segments :=
    if flt current_time sub_start
    then segments
         ++ [VideoSegment.make current_time sub_start
               (VideoSpeedProcessor.speed_no_subtitle self) false]
    else segments in
  (segments
   ++ [VideoSegment.make sub_start sub_end
         (VideoSpeedProcessor.speed_with_subtitle self) true],
   sub_end).

Definition _create_video_segments (self : VideoSpeedProcessor.t T)
    (subtitles : list (SubtitleSegment.t T)) (video_duration : T)
  : list (VideoSegment.t T) :=
  let '(segments, current_time) :=
    fold_left (segment_step self video_duration) subtitles ([], of_int 0) in
  if flt current_time video_duration
  then segments
       ++ [VideoSegment.make current_time video_duration
             (VideoSpeedProcessor.speed_no_subtitle self) false]
  else segments.
End Def.
End Legacy.

(** ** [src/processor.py]: rendering the segments *)

Module Rendering.

(** [n] characters ['0']. *)
Fixpoint zeros (n : nat) : string :=
  match n with
  | O => EmptyString
  | S k => String "0" (zeros k)
  end.

(** ['{:04d}'.format(i)] for [i >= 0]: the decimal digits of [i], padded
    with zeros on the left to four characters. *)
Definition format_04d (i : nat) : string :=
  let digits := NilEmpty.string_of_uint (Nat.to_uint i) in
  (zeros (4 - String.length digits) ++ digits)%string.

(** [Config.SEGMENT_FILENAME_FORMAT.format(i)] *)
Definition SEGMENT_FILENAME_FORMAT_format (i : nat) : string :=
  ("segment_" ++ format_04d i ++ ".mkv")%string.

(** [directory / name] for a relative [name] and a directory other than
    the root, as a string. *)
Definition path_join (directory name : string) : string :=
  (directory ++ "/" ++ name)%string.

(** What [_write_concat_file] appends for one segment file: the source
    writes [f"file '{segment}'\\n"], which ends in a backslash and the
    letter n (the two characters of the string below), not in a line
    feed. *)
Definition concat_entry (segment : string) : string :=
  ("file '" ++ segment ++ "'\n")%string.

(** The file handle is modelled by the text written to it so far. *)
Definition _write_concat_file (file_handle : string)
    (segment_files : list string) : string :=
  fold_left (fun written segment => (written ++ concat_entry segment)%string)
            segment_files file_handle.

Section Def.
Context {T : Type} {F : FloatOps T}.

(** The arguments of one call of [FFmpegWrapper.process_video_segment]. *)
Record render_call : Type := {
  call_input_file : string;
  call_output_file : string;
  call_start_time : T;
  call_duration : T;
  call_speed : T;
  call_has_subtitle : bool
}.

(** [FFmpegWrapper.process_video_segment] as its caller sees it: after
    the calls made so far, a call returns or raises. *)
Definition renderer : Type := list render_call -> render_call -> result unit.

(** The state threaded through the calls is the list of calls made. *)
Definition _process_single_segment (self : VideoSpeedProcessor.t T)
    (render : renderer) (segment : VideoSegment.t T) (output_file : string)
    (calls : list render_call) : result unit * list render_call :=
  let call :=
    {| call_input_file := VideoSpeedProcessor.input_file self;
       call_output_file := output_file;
       call_start_time := VideoSegment.start_time segment;
       call_duration := VideoSegment.duration segment;
       call_speed := VideoSegment.speed segment;
       call_has_subtitle := VideoSegment.has_subtitle segment |} in
  (render calls call, calls ++ [call]).

(** The loop of [_process_segments] from index [i] on. *)
Fixpoint process_segments_from (self : VideoSpeedProcessor.t T)
    (render : renderer) (temp_path : string) (i : nat)
    (segments : list (VideoSegment.t T)) (segment_files : list string)
    (calls : list render_call) : result (list string) * list render_call :=
  match segments with
  | [] => (Ok segment_files, calls)
  | segment :: rest =>
      let output_segment :=
        path_join temp_path (SEGMENT_FILENAME_FORMAT_format i) in
      match _process_single_segment self render segment output_segment calls
      with
      | (Ok _, calls') =>
          process_segments_from self render temp_path (S i) rest
            (segment_files ++ [output_segment]) calls'
      | (Raise e, calls') => (Raise e, calls')
      end
  end.

Definition _process_segments (self : VideoSpeedProcessor.t T)
    (render : renderer) (segments : list (VideoSegment.t T))
    (temp_path : string) (calls : list render_call)
  : result (list string) * list render_call :=
  process_segments_from self render temp_path 0 segments [] calls.

(** The call that renders [segment] into the file of index [i]. *)
Definition call_for (self : VideoSpeedProcessor.t T) (temp_path : string)
    (i : nat) (segment : VideoSegment.t T) : render_call :=
  {| call_input_file := VideoSpeedProcessor.input_file self;
     call_output_file := path_join temp_path (SEGMENT_FILENAME_FORMAT_format i);
     call_start_time := VideoSegment.start_time segment;
     call_duration := VideoSegment.duration segment;
     call_speed := VideoSegment.speed segment;
     call_has_subtitle := VideoSegment.has_subtitle segment |}.

(** The calls for [segments], numbered from [i]. *)
Fixpoint calls_for (self : VideoSpeedProcessor.t T) (temp_path : string)
    (i : nat) (segments : list (VideoSegment.t T)) : list render_call :=
  match segments with
  | [] => []
  | segment :: rest =>
      call_for self temp_path i segment :: calls_for self temp_path (S i) rest
  end.

(** The rendering calls for [segments], made in order from index [i] on
    after the calls [calls], all return. *)
Fixpoint all_rendered (self : VideoSpeedProcessor.t T) (render : renderer)
    (temp_path : string) (i : nat) (segments : list (VideoSegment.t T))
    (calls : list render_call) : bool :=
  match segments with
  | [] => true
  | segment :: rest =>
      match render calls (call_for self temp_path i segment) with
      | Ok _ =>
          all_rendered self render temp_path (S i) rest
            (calls ++ [call_for self temp_path i segment])
      | Raise _ => false
      end
  end.
End Def.
Arguments render_call T : clear implicits.
Arguments renderer T : clear implicits.
End Rendering.

(** ** [src/processor.py] and [src/cli.py]: the run as a whole

    [_extract_subtitles], [_get_video_duration] and [_process_video] work
    through FFmpeg; [process] sees of each whether it returns or raises,
    and they are taken as given. *)

Module Pipeline.
Section Def.
Context {T : Type} {F : FloatOps T}.

Record Stages : Type := {
  _extract_subtitles :
    VideoSpeedProcessor.t T -> result (list (SubtitleSegment.t T));
  _get_video_duration : VideoSpeedProcessor.t T -> result T;
  _process_video :
    VideoSpeedProcessor.t T -> list (VideoSegment.t T) -> result unit
}.

(** How a call ends: it returns, or [sys.exit(code)] was called. *)
Inductive termination : Type :=
| Returns
| SystemExit (code : Z).

(** The body of the [try] of [process]: its outcome, and the segments
    handed to [_process_video] if that call was reached. *)
Definition process_body (stages : Stages) (self : VideoSpeedProcessor.t T)
  : result unit * option (list (VideoSegment.t T)) :=
  match _extract_subtitles stages self with
  | Raise e => (Raise e, None)
  | Ok subtitles =>
      match _get_video_duration stages self with
      | Raise e => (Raise e, None)
      | Ok video_duration =>
          let segments :=
            VideoSpeedProcessor._create_video_segments self subtitles
              video_duration in
          match VideoSpeedProcessor._print_segment_info segments
                  video_duration with
          | Raise e => (Raise e, None)
          | Ok _ => (_process_video stages self segments, Some segments)
          end
      end
  end.

(** [process]: an exception of the body ends the program with status 1. *)
Definition process (stages : Stages) (self : VideoSpeedProcessor.t T)
  : termination * option (list (VideoSegment.t T)) :=
  let (outcome, handed) := process_body stages self in
  (match outcome with
   | Ok _ => Returns
   | Raise _ => SystemExit 1
   end, handed).

(** [main] of [src/cli.py].  [parse_args] is the outcome of
    [parser.parse_args()] on the command line.  A [SystemExit] is not an
    [Exception]: the one of [argparse] passes through the [except] clause
    of [main], and so does the one of [process]. *)
Definition main (env : VideoSpeedProcessor.Env) (stages : Stages)
    (parse_args : ArgumentParser.parsed T)
  : termination * option (list (VideoSegment.t T)) :=
  match parse_args with
  | ArgumentParser.ParserExit code => (SystemExit code, None)
  | ArgumentParser.Parsed args =>
      match
        (_ <- ArgumentParser.validate_arguments args ;;
         VideoSpeedProcessor.__init__ env
           (ArgumentParser.input args) (ArgumentParser.output args)
           (ArgumentParser.speed_no_sub args)
           (ArgumentParser.speed_with_sub args)
           (ArgumentParser.buffer args))
      with
      | Raise _ => (SystemExit 1, None)
      | Ok processor => process stages processor
      end
  end.
End Def.
Arguments Stages T : clear implicits.
End Pipeline.

(** ** Further predicates *)

Section MorePredicates.
Context {T : Type} {F : FloatOps T}.

(** A block that [_parse_srt_block] does not skip: at least three lines,
    and [" --> "] in the second. *)
Definition well_shaped (block : string) : bool :=
  let lines := split newline block in
  (Config.MIN_SRT_LINES <=? List.length lines)%nat
  && contains Config.SRT_TIME_DELIMITER (nth 1 lines "").

(** The character [c] does not occur in [s]. *)
Fixpoint lacks_char (c : ascii) (s : string) : bool :=
  match s with
  | EmptyString => true
  | String c' s' => negb (Ascii.eqb c' c) && lacks_char c s'
  end.

Definition line_feed : ascii := "010"%char.

(** Every character of [s] is whitespace. *)
Fixpoint all_space (s : string) : bool :=
  match s with
  | EmptyString => true
  | String c s' => isspace c && all_space s'
  end.

(** The with-subtitle segment of the schedule spans the caption. *)
Definition spans (seg : VideoSegment.t T) (caption : SubtitleSegment.t T)
  : bool :=
  VideoSegment.has_subtitle seg
  && negb (flt (SubtitleSegment.start_time caption) (VideoSegment.start_time seg))
  && negb (flt (VideoSegment.end_time seg) (SubtitleSegment.end_time caption)).
End MorePredicates.

(** ** Further sample inputs *)

Module MoreSamples.
(** A file of blank lines. *)
Definition blank_srt : string := Samples.lines ["  "; ""; " "].

(** Two well-formed blocks in order. *)
Definition ordered_srt : string :=
  Samples.lines ["1"; "00:00:01,000 --> 00:00:02,500"; "first"; "";
                 "2"; "00:00:05,000 --> 00:00:07,000"; "second"; "line"].

(** The schedule of [Samples.single] in a video of 100 s. *)
Definition schedule_single : list (VideoSegment.t Q) :=
  [Samples.seg 0 (19 # 2) 2 false; Samples.seg (19 # 2) (25 # 2) 1 true;
   Samples.seg (25 # 2) 100 2 false].

(** A renderer that always succeeds, and one whose second call fails. *)
Definition always_ok : Rendering.renderer Q := fun _ _ => Ok tt.

Definition fails_on_second : Rendering.renderer Q :=
  fun calls _ =>
    if (List.length calls =? 1)%nat then Raise VideoProcessingError
    else Ok tt.

Definition work : string := "/tmp/work".

Definition rendered_files : list string :=
  ["/tmp/work/segment_0000.mkv"; "/tmp/work/segment_0001.mkv";
   "/tmp/work/segment_0002.mkv"].

(** Stages that find [Samples.single] in a video of the given duration
    and render without failure. *)
Definition stages_of (duration : Q) : Pipeline.Stages Q :=
  {| Pipeline._extract_subtitles := fun _ => Ok Samples.single;
     Pipeline._get_video_duration := fun _ => Ok duration;
     Pipeline._process_video := fun _ _ => Ok tt |}.

Definition default_args : ArgumentParser.Namespace Q :=
  {| ArgumentParser.input := "in.mkv";
     ArgumentParser.output := "out.mkv";
     ArgumentParser.speed_no_sub := 2;
     ArgumentParser.speed_with_sub := 1;
     ArgumentParser.buffer := 1 # 2 |}.
End MoreSamples.

(** * Properties *)

(** ** The scheduler *)

Section Scheduler.
Context {T : Type} {F : FloatOps T}.

Import VideoSpeedProcessor.

Variable self : t T.
Variable D : T.

Lemma fold_left_sweep (subs : list (SubtitleSegment.t T)) :
  forall segs cur,
    fold_left (segment_step self D) subs (segs, cur)
    = (segs ++ fst (sweep self D cur subs), snd (sweep self D cur subs)).
Proof.
  induction subs as [|s rest IH]; intros segs cur; simpl.
  - now rewrite app_nil_r.
  - unfold gap_segment, paddedStart, paddedEnd, window_segment in *.
    destruct (flt cur _) eqn:Hlt; rewrite IH;
      destruct (sweep self D _ rest) as [segs' c]; simpl;
      now rewrite <- !app_assoc.
Qed.

Lemma create_video_segments_sweep (subs : list (SubtitleSegment.t T)) :
  _create_video_segments self subs D
  = fst (sweep self D (of_int 0) subs)
    ++ (if flt (snd (sweep self D (of_int 0) subs)) D
        then [_create_non_subtitle_segment self
                (snd (sweep self D (of_int 0) subs)) D]
        else []).
Proof.
  unfold _create_video_segments. rewrite fold_left_sweep. simpl.
  destruct (flt _ D); [reflexivity | now rewrite app_nil_r].
Qed.
End Scheduler.

Section SweepFacts.
Context {T : Type} {F : FloatOps T}.

Import VideoSpeedProcessor.

Variable self : t T.
Variable D : T.

Lemma sweep_fst_cons cur s rest :
  fst (sweep self D cur (s :: rest))
  = gap_segment self cur s
    ++ window_segment self D s :: fst (sweep self D (paddedEnd self D s) rest).
Proof.
  simpl. now destruct (sweep self D (paddedEnd self D s) rest).
Qed.

Lemma sweep_snd_cons cur s rest :
  snd (sweep self D cur (s :: rest))
  = snd (sweep self D (paddedEnd self D s) rest).
Proof.
  simpl. now destruct (sweep self D (paddedEnd self D s) rest).
Qed.

Lemma gap_segment_cases cur s :
  (flt cur (paddedStart self s) = true
   /\ gap_segment self cur s
      = [_create_non_subtitle_segment self cur (paddedStart self s)])
  \/ (flt cur (paddedStart self s) = false /\ gap_segment self cur s = []).
Proof.
  unfold gap_segment. destruct (flt cur (paddedStart self s)); auto.
Qed.

Lemma sweep_speed subs :
  forall cur, Forall (speed_matches self) (fst (sweep self D cur subs)).
Proof.
  induction subs as [|s rest IH]; intros cur.
  - constructor.
  - rewrite sweep_fst_cons. apply Forall_app. split.
    + destruct (gap_segment_cases cur s) as [[_ ->]|[_ ->]];
        repeat constructor.
    + constructor; [reflexivity | apply IH].
Qed.

Lemma sweep_filter subs :
  forall cur,
    filter (@VideoSegment.has_subtitle T) (fst (sweep self D cur subs))
    = map (window_segment self D) subs.
Proof.
  induction subs as [|s rest IH]; intros cur.
  - reflexivity.
  - rewrite sweep_fst_cons, filter_app. simpl. rewrite IH.
    now destruct (gap_segment_cases cur s) as [[_ ->]|[_ ->]].
Qed.

Lemma sweep_gaps_followed subs :
  forall cur, gaps_followed (fst (sweep self D cur subs)) = true.
Proof.
  induction subs as [|s rest IH]; intros cur.
  - reflexivity.
  - rewrite sweep_fst_cons.
    destruct (gap_segment_cases cur s) as [[_ ->]|[_ ->]]; simpl;
      now rewrite IH.
Qed.

Lemma sweep_gaps_positive subs :
  forall cur seg,
    In seg (fst (sweep self D cur subs)) ->
    VideoSegment.has_subtitle seg = false ->
    flt (VideoSegment.start_time seg) (VideoSegment.end_time seg) = true.
Proof.
  induction subs as [|s rest IH]; intros cur seg Hin Hflag.
  - destruct Hin.
  - rewrite sweep_fst_cons in Hin. apply in_app_or in Hin.
    destruct Hin as [Hin|[<-|Hin]].
    + destruct (gap_segment_cases cur s) as [[Hlt Hg]|[_ Hg]];
        rewrite Hg in Hin; simpl in Hin.
      * destruct Hin as [<-|[]]. exact Hlt.
      * destruct Hin.
    + discriminate Hflag.
    + eapply IH; eassumption.
Qed.

Lemma sweep_windows_positive subs :
  windows_nonempty self D subs = true ->
  forall cur seg,
    In seg (fst (sweep self D cur subs)) ->
    flt (VideoSegment.start_time seg) (VideoSegment.end_time seg) = true.
Proof.
  unfold windows_nonempty.
  induction subs as [|s rest IH]; intros Hne cur seg Hin.
  - destruct Hin.
  - simpl in Hne. apply andb_true_iff in Hne. destruct Hne as [Hs Hrest].
    rewrite sweep_fst_cons in Hin. apply in_app_or in Hin.
    destruct Hin as [Hin|[<-|Hin]].
    + destruct (gap_segment_cases cur s) as [[Hlt Hg]|[_ Hg]];
        rewrite Hg in Hin; simpl in Hin.
      * destruct Hin as [<-|[]]. exact Hlt.
      * destruct Hin.
    + exact Hs.
    + eapply IH; eassumption.
Qed.

(** With a non-empty catalog the sweep ends on a with-subtitle segment
    whose end is the final cursor. *)
Lemma sweep_last s rest :
  forall cur,
  exists seg,
    hd_error (rev (fst (sweep self D cur (s :: rest)))) = Some seg
    /\ VideoSegment.has_subtitle seg = true
    /\ VideoSegment.end_time seg = snd (sweep self D cur (s :: rest)).
Proof.
  revert s. induction rest as [|s' rest IH]; intros s cur.
  - exists (window_segment self D s).
    rewrite sweep_fst_cons, sweep_snd_cons. simpl.
    rewrite rev_app_distr. simpl. auto.
  - destruct (IH s' (paddedEnd self D s)) as (seg & Hhd & Hflag & Hend).
    exists seg. rewrite sweep_fst_cons, sweep_snd_cons.
    rewrite rev_app_distr.
    change (window_segment self D s
              :: fst (sweep self D (paddedEnd self D s) (s' :: rest)))
      with ([window_segment self D s]
              ++ fst (sweep self D (paddedEnd self D s) (s' :: rest))).
    rewrite rev_app_distr.
    destruct (rev (fst (sweep self D (paddedEnd self D s) (s' :: rest))))
      as [|x l] eqn:E; [discriminate Hhd|].
    simpl in Hhd. injection Hhd as ->. simpl. auto.
Qed.
End SweepFacts.

Section SchedulerStructure.
Context {T : Type} {F : FloatOps T}.

Import VideoSpeedProcessor.

Variable self : t T.
Variable D : T.

Lemma gaps_followed_no_adjacent (l : list (VideoSegment.t T)) :
  gaps_followed l = true -> no_adjacent_gaps l = true.
Proof.
  induction l as [|a l IH]; simpl; [reflexivity|].
  intros H. apply andb_true_iff in H. destruct H as [Ha Hl].
  rewrite (IH Hl), andb_true_r.
  destruct l as [|b l]; [reflexivity | exact Ha].
Qed.

Lemma gaps_followed_snoc (l : list (VideoSegment.t T)) x :
  gaps_followed l = true -> no_adjacent_gaps (l ++ [x]) = true.
Proof.
  induction l as [|a l IH]; simpl; [reflexivity|].
  intros H. apply andb_true_iff in H. destruct H as [Ha Hl].
  rewrite (IH Hl), andb_true_r.
  destruct l as [|b l]; simpl.
  - now rewrite orb_false_r in Ha; rewrite Ha.
  - exact Ha.
Qed.

Lemma no_adjacent_gaps_nth (l : list (VideoSegment.t T)) :
  no_adjacent_gaps l = true ->
  forall i a b,
    nth_error l i = Some a -> nth_error l (S i) = Some b ->
    VideoSegment.has_subtitle a || VideoSegment.has_subtitle b = true.
Proof.
  induction l as [|x l IH]; intros H i a b Ha Hb.
  - destruct i; discriminate Ha.
  - simpl in H. apply andb_true_iff in H. destruct H as [Hx Hl].
    destruct i as [|i].
    + simpl in Ha, Hb. injection Ha as <-.
      destruct l as [|y l]; [discriminate Hb|].
      simpl in Hb. injection Hb as <-. exact Hx.
    + exact (IH Hl i a b Ha Hb).
Qed.

Lemma segments_speed_matches (subtitles : list (SubtitleSegment.t T)) :
  Forall (speed_matches self) (_create_video_segments self subtitles D).
Proof.
  rewrite create_video_segments_sweep. apply Forall_app. split.
  - apply sweep_speed.
  - destruct (flt _ D); repeat constructor.
Qed.

(** C5: in every segment sequence the scheduler produces, a segment with
    [has_subtitle = true] carries [speed_with_subtitle] and a segment with
    [has_subtitle = false] carries [speed_no_subtitle]. *)
Theorem speed_correctness (subtitles : list (SubtitleSegment.t T)) :
  Forall (fun seg =>
            (VideoSegment.has_subtitle seg = true ->
             VideoSegment.speed seg = speed_with_subtitle self)
            /\ (VideoSegment.has_subtitle seg = false ->
                VideoSegment.speed seg = speed_no_subtitle self))
         (_create_video_segments self subtitles D).
Proof.
  eapply Forall_impl; [|apply segments_speed_matches].
  intros seg Hseg. unfold speed_matches in Hseg.
  split; intros Hflag; now rewrite Hflag in Hseg.
Qed.

(** C9: the scheduler emits exactly one with-subtitle segment per catalog
    interval, in catalog order, from [max(0, start - buffer)] to
    [min(D, end + buffer)]; nothing is merged or dropped, so the
    with-subtitle segments are as many as the intervals. *)
Theorem one_window_per_interval (subtitles : list (SubtitleSegment.t T)) :
  filter (@VideoSegment.has_subtitle T)
         (_create_video_segments self subtitles D)
  = map (fun s =>
           VideoSegment.make
             (pymax (of_int 0)
                    (fsub (SubtitleSegment.start_time s) (subtitle_buffer self)))
             (pymin D
                    (fadd (SubtitleSegment.end_time s) (subtitle_buffer self)))
             (speed_with_subtitle self) true)
        subtitles
  /\ List.length (filter (@VideoSegment.has_subtitle T)
                         (_create_video_segments self subtitles D))
     = List.length subtitles.
Proof.
  assert (E : filter (@VideoSegment.has_subtitle T)
                     (_create_video_segments self subtitles D)
              = map (window_segment self D) subtitles).
  { rewrite create_video_segments_sweep, filter_app, sweep_filter.
    destruct (flt _ D); simpl; now rewrite app_nil_r. }
  split.
  - exact E.
  - rewrite E. apply length_map.
Qed.

(** C10: no two consecutive segments are both without subtitle, and every
    segment without subtitle has [end > start]. *)
Theorem gaps_separated_and_positive (subtitles : list (SubtitleSegment.t T)) :
  (forall i a b,
      nth_error (_create_video_segments self subtitles D) i = Some a ->
      nth_error (_create_video_segments self subtitles D) (S i) = Some b ->
      VideoSegment.has_subtitle a || VideoSegment.has_subtitle b = true)
  /\ (forall seg,
         In seg (_create_video_segments self subtitles D) ->
         VideoSegment.has_subtitle seg = false ->
         flt (VideoSegment.start_time seg) (VideoSegment.end_time seg) = true).
Proof.
  rewrite create_video_segments_sweep. split.
  - apply no_adjacent_gaps_nth.
    destruct (flt _ D).
    + apply gaps_followed_snoc, sweep_gaps_followed.
    + rewrite app_nil_r.
      apply gaps_followed_no_adjacent, sweep_gaps_followed.
  - intros seg Hin Hflag. apply in_app_or in Hin. destruct Hin as [Hin|Hin].
    + eapply sweep_gaps_positive; eassumption.
    + destruct (flt _ D) eqn:Hlt; [|destruct Hin].
      destruct Hin as [<-|[]]. exact Hlt.
Qed.

Lemma with_subtitle_segments (subtitles : list (SubtitleSegment.t T)) :
  filter (@VideoSegment.has_subtitle T)
         (_create_video_segments self subtitles D)
  = map (window_segment self D) subtitles.
Proof.
  rewrite create_video_segments_sweep, filter_app, sweep_filter.
  destruct (flt _ D); simpl; now rewrite app_nil_r.
Qed.

Lemma window_segment_emitted (subtitles : list (SubtitleSegment.t T)) s :
  In s subtitles ->
  In (window_segment self D s) (_create_video_segments self subtitles D).
Proof.
  intros Hin.
  apply (in_map (window_segment self D)) in Hin.
  rewrite <- with_subtitle_segments in Hin.
  apply filter_In in Hin. tauto.
Qed.

Lemma no_subtitle_segment_positive (subtitles : list (SubtitleSegment.t T)) seg :
  In seg (_create_video_segments self subtitles D) ->
  VideoSegment.has_subtitle seg = false ->
  flt (VideoSegment.start_time seg) (VideoSegment.end_time seg) = true.
Proof.
  rewrite create_video_segments_sweep.
  intros Hin Hflag. apply in_app_or in Hin. destruct Hin as [Hin|Hin].
  - eapply sweep_gaps_positive; eassumption.
  - destruct (flt _ D) eqn:Hlt; [|destruct Hin].
    destruct Hin as [<-|[]]. exact Hlt.
Qed.

(** C2 (amended): the scheduler has no skip step.  The with-subtitle
    segment of every interval is emitted, whether its clamped padded window
    is empty or not; and an emitted segment lacks [end > start] exactly
    when it is the with-subtitle segment of an interval whose clamped
    padded window is empty (not [paddedStart < paddedEnd]). *)
Theorem empty_windows_not_skipped (subtitles : list (SubtitleSegment.t T)) :
  (forall s,
      In s subtitles ->
      In (VideoSegment.make (paddedStart self s) (paddedEnd self D s)
            (speed_with_subtitle self) true)
         (_create_video_segments self subtitles D))
  /\ (forall seg,
         In seg (_create_video_segments self subtitles D)
         /\ flt (VideoSegment.start_time seg) (VideoSegment.end_time seg)
            = false
         <-> exists s,
             In s subtitles
             /\ flt (paddedStart self s) (paddedEnd self D s) = false
             /\ seg = VideoSegment.make (paddedStart self s)
                        (paddedEnd self D s) (speed_with_subtitle self) true).
Proof.
  split.
  - intros s Hin. exact (window_segment_emitted subtitles s Hin).
  - intros seg. split.
    + intros [Hin Hlt].
      destruct (VideoSegment.has_subtitle seg) eqn:Hflag.
      * assert (Hf : In seg (filter (@VideoSegment.has_subtitle T)
                               (_create_video_segments self subtitles D))).
        { apply filter_In. now split. }
        rewrite with_subtitle_segments in Hf. apply in_map_iff in Hf.
        destruct Hf as (s & <- & Hs). exists s.
        split; [exact Hs|]. split; [exact Hlt | reflexivity].
      * rewrite (no_subtitle_segment_positive subtitles seg Hin Hflag) in Hlt.
        discriminate Hlt.
    + intros (s & Hs & Hlt & ->). split; [|exact Hlt].
      exact (window_segment_emitted subtitles s Hs).
Qed.
End SchedulerStructure.

Section Coverage.
Context {T : Type} {F : FloatOps T}.

Import VideoSpeedProcessor.

Variable self : t T.
Variable D : T.

Lemma final_end_app cur (l1 l2 : list (VideoSegment.t T)) :
  final_end cur (l1 ++ l2) = final_end (final_end cur l1) l2.
Proof. apply fold_left_app. Qed.


Lemma sweep_final_end subs :
  forall cur,
    final_end cur (fst (sweep self D cur subs)) = snd (sweep self D cur subs).
Proof.
  induction subs as [|s rest IH]; intros cur; [reflexivity|].
  rewrite sweep_fst_cons, sweep_snd_cons, final_end_app.
  change (final_end ?c (?w :: ?l)) with (final_end (VideoSegment.end_time w) l).
  apply IH.
Qed.



Lemma sweep_cursor_clamped s rest :
  forall cur,
    flt (snd (sweep self D cur (s :: rest))) D = false ->
    snd (sweep self D cur (s :: rest)) = D.
Proof.
  revert s. induction rest as [|s' rest IH]; intros s cur.
  - rewrite sweep_snd_cons. simpl.
    unfold paddedEnd, _calculate_subtitle_end, pymin.
    destruct (flt (fadd _ _) D) eqn:E; [congruence | reflexivity].
  - rewrite sweep_snd_cons. apply IH.
Qed.

Lemma hd_error_rev_snoc (l : list (VideoSegment.t T)) x :
  hd_error (rev (l ++ [x])) = Some x.
Proof. now rewrite rev_app_distr. Qed.

(** The last segment ends at [D], whatever the catalog. *)
Lemma last_end_duration subs :
  flt (of_int 0) D = true ->
  exists seg,
    hd_error (rev (_create_video_segments self subs D)) = Some seg
    /\ VideoSegment.end_time seg = D.
Proof.
  intros HD. rewrite create_video_segments_sweep.
  destruct (flt (snd (sweep self D (of_int 0) subs)) D) eqn:Hc.
  - rewrite hd_error_rev_snoc. eauto.
  - rewrite app_nil_r. destruct subs as [|s rest].
    + simpl in Hc. congruence.
    + destruct (sweep_last self D s rest (of_int 0)) as (seg & Hhd & _ & He).
      exists seg. split; [exact Hhd|].
      rewrite He. now apply sweep_cursor_clamped.
Qed.

Context {O : FloatOrder T}.

Lemma flt_irrefl (x : T) : flt x x = false.
Proof.
  destruct (flt x x) eqn:E; [|reflexivity].
  now rewrite (flt_asym _ _ E) in E.
Qed.

Lemma feq_refl (x : T) : feq x x = true.
Proof. apply feq_incomparable. split; apply flt_irrefl. Qed.


Lemma paddedStart_not_negative s :
  flt (paddedStart self s) (of_int 0) = false.
Proof.
  unfold paddedStart, _calculate_subtitle_start, pymax.
  destruct (flt (of_int 0) (fsub _ _)) eqn:E.
  - now apply flt_asym.
  - apply flt_irrefl.
Qed.

Lemma windows_disjoint_from subs :
  forall cur,
    match subs with
    | s :: _ => flt (paddedStart self s) cur = false
    | [] => True
    end ->
    windows_disjoint self D subs = true ->
    disjoint_from self D cur subs = true.
Proof.
  induction subs as [|s rest IH]; intros cur Hfirst Hd; [reflexivity|].
  simpl. rewrite Hfirst. simpl.
  destruct rest as [|s' rest]; [reflexivity|].
  simpl in Hd. apply andb_true_iff in Hd. destruct Hd as [H1 H2].
  apply IH; [|exact H2].
  now apply negb_true_iff in H1.
Qed.


End Coverage.

(** ** Exact arithmetic *)

Lemma Q_flt_true (x y : Q) : flt x y = true <-> x < y.
Proof.
  simpl. rewrite negb_true_iff. split; intros H.
  - apply Qnot_le_lt. intros Hle. apply Qle_bool_iff in Hle. congruence.
  - destruct (Qle_bool y x) eqn:E; [|reflexivity].
    apply Qle_bool_iff in E. exfalso. exact (Qlt_not_le _ _ H E).
Qed.

Lemma Q_flt_false (x y : Q) : flt x y = false <-> y <= x.
Proof.
  simpl. rewrite negb_false_iff. apply Qle_bool_iff.
Qed.

Lemma Q_feq_true (x y : Q) : feq x y = true <-> x == y.
Proof. apply Qeq_bool_iff. Qed.

#[export] Instance Q_FloatOrder : FloatOrder Q.
Proof.
  constructor.
  - intros x y H. apply Q_flt_true in H. apply Q_flt_false.
    now apply Qlt_le_weak.
  - intros x y z H. apply Q_flt_true in H.
    destruct (Qlt_le_dec x y) as [Hxy|Hyx].
    + left. now apply Q_flt_true.
    + right. apply Q_flt_true. eapply Qle_lt_trans; eassumption.
  - intros x y. rewrite Q_feq_true, !Q_flt_false. split.
    + intros E. rewrite E. split; apply Qle_refl.
    + intros [H1 H2]. now apply Qle_antisym.
Qed.

(** Every arithmetic that obeys [FloatOrder] obeys [FloatCompare]. *)
#[export] Instance FloatOrder_FloatCompare {T : Type} {F : FloatOps T}
    {O : FloatOrder T} : FloatCompare T.
Proof.
  constructor.
  - exact flt_asym.
  - intros x y z _. apply flt_cotrans.
  - intros x y _. split; apply feq_refl.
  - intros x y _ _. apply feq_incomparable.
Qed.

#[export] Instance Q_FloatValueLaws : FloatValueLaws Q.
Proof.
  constructor.
  - exists 0. split; reflexivity.
  - exists 1. split; reflexivity.
  - intros x y a b Hx Hy. injection Hx as <-. injection Hy as <-.
    apply Q_flt_true.
  - intros x y a b Hx Hy. injection Hx as <-. injection Hy as <-.
    apply Qle_bool_iff.
  - intros x y a b Hx Hy. injection Hx as <-. injection Hy as <-.
    apply Q_feq_true.
Qed.

Section ExactArithmetic.
Import VideoSpeedProcessor.

Variable self : t Q.
Variable D : Q.

(** In exact arithmetic, captions that lie at least twice the buffer apart
    have padded windows that do not overlap. *)
Lemma well_separated_disjoint subs :
  well_separated self subs = true -> windows_disjoint self D subs = true.
Proof.
  induction subs as [|a [|b rest] IH]; intros H; try reflexivity.
  change (well_separated self (a :: b :: rest))
    with (fle (fadd (SubtitleSegment.end_time a) (subtitle_buffer self))
              (fsub (SubtitleSegment.start_time b) (subtitle_buffer self))
          && well_separated self (b :: rest)) in H.
  apply andb_true_iff in H. destruct H as [Hab Hrest].
  change (windows_disjoint self D (a :: b :: rest))
    with (negb (flt (paddedStart self b) (paddedEnd self D a))
          && windows_disjoint self D (b :: rest)).
  rewrite (IH Hrest), andb_true_r.
  apply negb_true_iff, Q_flt_false.
  apply Qle_bool_iff in Hab.
  unfold paddedStart, paddedEnd, _calculate_subtitle_start,
    _calculate_subtitle_end, pymin, pymax.
  set (x := fadd (SubtitleSegment.end_time a) (subtitle_buffer self)) in *.
  set (y := fsub (SubtitleSegment.start_time b) (subtitle_buffer self)) in *.
  destruct (flt x D) eqn:Ex; destruct (flt (of_int 0) y) eqn:Ey;
    try apply Q_flt_true in Ex; try apply Q_flt_false in Ex;
    try apply Q_flt_true in Ey; try apply Q_flt_false in Ey;
    simpl in *; lra.
Qed.

Lemma sum_output_duration_cons (s : VideoSegment.t Q) l acc :
  sum_output_duration (s :: l) acc
  = (d <- VideoSegment.output_duration s ;;
     sum_output_duration l (fadd acc d)).
Proof. reflexivity. Qed.

Lemma Q_output_duration (s : VideoSegment.t Q) :
  ~ VideoSegment.speed s == 0 ->
  exists d,
    VideoSegment.output_duration s = Ok d
    /\ d == (VideoSegment.end_time s - VideoSegment.start_time s)
            / VideoSegment.speed s.
Proof.
  intros Hnz. unfold VideoSegment.output_duration, truediv.
  change (feq (VideoSegment.speed s) (of_int 0))
    with (Qeq_bool (VideoSegment.speed s) 0).
  destruct (Qeq_bool (VideoSegment.speed s) 0) eqn:E.
  - apply Qeq_bool_iff in E. contradiction.
  - eexists. split; [reflexivity|].
    unfold VideoSegment.duration.
    change (fdiv ?a ?b) with (Qred (a / b)).
    change (fsub ?a ?b) with (Qred (a - b)).
    now rewrite !Qred_correct.
Qed.

Lemma Q_fadd (x y : Q) : fadd x y == x + y.
Proof. apply Qred_correct. Qed.
End ExactArithmetic.

(** ** Binary64 arithmetic

    The comparisons of the primitive floats are those of
    [SpecFloat.SFcompare] on sign, mantissa and exponent; on the floats the
    primitive operations produce, it is the order of the integers [ord]. *)

Section Binary64Order.
Import Floats Binary64.

Lemma digits2_pos_size (m : positive) : digits2_pos m = Pos.size m.
Proof. induction m; simpl; congruence. Qed.

Lemma valid_binary_finite s m e :
  valid_binary (S754_finite s m e) = true ->
  (-1074 <= e <= 971 /\ Zpos m < 2 ^ 53 /\ (e <> -1074 -> 2 ^ 52 <= Zpos m))%Z.
Proof.
  unfold SpecFloat.valid_binary, bounded, canonical_mantissa, fexp,
    SpecFloat.emin.
  rewrite digits2_pos_size.
  intros H. apply andb_true_iff in H. destruct H as [H1 H2].
  apply Z.eqb_eq in H1. apply Z.leb_le in H2.
  change (3 - emax - prec)%Z with (-1074)%Z in H1.
  change (emax - prec)%Z with 971%Z in H2.
  change prec with 53%Z in H1.
  pose proof (Pos.size_gt m) as Hgt.
  pose proof (Pos.size_le m) as Hle.
  apply Pos2Z.pos_lt_pos in Hgt. apply Pos2Z.pos_le_pos in Hle.
  rewrite Pos2Z.inj_pow in Hgt, Hle.
  rewrite Pos2Z.inj_xO in Hle.
  set (d := Z.pos (Pos.size m)) in *.
  assert (Hd : (0 < d)%Z) by (unfold d; lia).
  split; [lia|]. split.
  - assert (d <= 53)%Z by lia.
    eapply Z.lt_le_trans; [exact Hgt|].
    apply Z.pow_le_mono_r; lia.
  - intros Hne. assert (E : d = 53%Z) by lia.
    rewrite E in Hle. change (2 ^ 53)%Z with (2 * 2 ^ 52)%Z in Hle. lia.
Qed.

Lemma pow2_pos (k : Z) : (0 <= k -> 0 < 2 ^ k)%Z.
Proof. intros. apply Z.pow_pos_nonneg; lia. Qed.

Lemma pow2_split (a b : Z) :
  (0 <= a -> a < b -> 2 ^ b = 2 ^ a * 2 ^ (b - a) /\ 2 <= 2 ^ (b - a))%Z.
Proof.
  intros Ha Hab. split.
  - rewrite <- Z.pow_add_r by lia. f_equal. lia.
  - change 2%Z with (2 ^ 1)%Z at 1. apply Z.pow_le_mono_r; lia.
Qed.

(** Of two positive floats the one of smaller exponent is the smaller. *)
Lemma finite_ord_lt m1 e1 m2 e2 :
  valid_binary (S754_finite false m1 e1) = true ->
  valid_binary (S754_finite false m2 e2) = true ->
  (e1 < e2)%Z ->
  (Zpos m1 * 2 ^ (e1 + 1074) < Zpos m2 * 2 ^ (e2 + 1074))%Z.
Proof.
  intros V1 V2 He.
  apply valid_binary_finite in V1, V2.
  destruct V1 as (B1 & M1 & _). destruct V2 as (B2 & _ & M2).
  assert (M2' : (2 ^ 52 <= Z.pos m2)%Z) by (apply M2; lia).
  destruct (@pow2_split (e1 + 1074)%Z (e2 + 1074)%Z) as [E Hge]; [lia|lia|].
  rewrite E.
  assert (Hp : (0 < 2 ^ (e1 + 1074))%Z) by (apply pow2_pos; lia).
  set (p := (2 ^ (e1 + 1074))%Z) in *.
  set (q := (2 ^ (e2 + 1074 - (e1 + 1074)))%Z) in *.
  change (2 ^ 53)%Z with (2 ^ 52 * 2)%Z in M1.
  set (h := (2 ^ 52)%Z) in *.
  assert (0 < h)%Z by (unfold h; apply pow2_pos; lia).
  nia.
Qed.

Lemma finite_ord_bound s m e :
  valid_binary (S754_finite s m e) = true ->
  (0 < Zpos m * 2 ^ (e + 1074) < 2 ^ 2100)%Z.
Proof.
  intros V. apply valid_binary_finite in V. destruct V as (B & M & _).
  assert (Hp : (0 < 2 ^ (e + 1074))%Z) by (apply pow2_pos; lia).
  split; [lia|].
  assert (Hle : (2 ^ (e + 1074) <= 2 ^ 2045)%Z)
    by (apply Z.pow_le_mono_r; lia).
  replace (2 ^ 2100)%Z with (2 ^ 53 * 2 ^ 2047)%Z
    by (rewrite <- Z.pow_add_r by lia; reflexivity).
  assert (Hlt : (2 ^ 2045 < 2 ^ 2047)%Z) by (apply Z.pow_lt_mono_r; lia).
  set (p := (2 ^ (e + 1074))%Z) in *.
  set (a := (2 ^ 2045)%Z) in *. set (b := (2 ^ 2047)%Z) in *.
  set (h := (2 ^ 53)%Z) in *.
  nia.
Qed.

Lemma SFcompare_nan f1 f2 :
  SFis_nan f1 || SFis_nan f2 = true -> SFcompare f1 f2 = None.
Proof. destruct f1, f2; simpl; intros H; try discriminate H; reflexivity. Qed.

Lemma SFcompare_ord f1 f2 :
  valid_binary f1 = true -> valid_binary f2 = true ->
  SFis_nan f1 = false -> SFis_nan f2 = false ->
  SFcompare f1 f2 = Some (SFord f1 ?= SFord f2)%Z.
Proof.
  intros V1 V2 N1 N2.
  destruct f1 as [s1|s1| |s1 m1 e1]; try discriminate N1;
    destruct f2 as [s2|s2| |s2 m2 e2]; try discriminate N2.
  - reflexivity.
  - destruct s2; reflexivity.
  - pose proof (@finite_ord_bound _ _ _ V2) as B2.
    cbn [SFcompare SFord]. f_equal. symmetry.
    destruct s2; [apply Z.compare_gt_iff | apply Z.compare_lt_iff]; lia.
  - destruct s1; reflexivity.
  - destruct s1, s2; reflexivity.
  - pose proof (@finite_ord_bound _ _ _ V2) as B2.
    cbn [SFcompare SFord]. f_equal.
    assert (0 < 2 ^ 2100)%Z by (apply pow2_pos; lia).
    destruct s1, s2; symmetry;
      first [apply Z.compare_gt_iff; lia | apply Z.compare_lt_iff; lia].
  - pose proof (@finite_ord_bound _ _ _ V1) as B1.
    cbn [SFcompare SFord]. f_equal. symmetry.
    destruct s1; [apply Z.compare_lt_iff | apply Z.compare_gt_iff]; lia.
  - pose proof (@finite_ord_bound _ _ _ V1) as B1.
    cbn [SFcompare SFord]. f_equal.
    assert (0 < 2 ^ 2100)%Z by (apply pow2_pos; lia).
    destruct s1, s2; symmetry;
      first [apply Z.compare_gt_iff; lia | apply Z.compare_lt_iff; lia].
  - pose proof (@finite_ord_bound _ _ _ V1) as B1.
    pose proof (@finite_ord_bound _ _ _ V2) as B2.
    assert (V1' : valid_binary (S754_finite false m1 e1) = true) by exact V1.
    assert (V2' : valid_binary (S754_finite false m2 e2) = true) by exact V2.
    cbn [SFcompare SFord]. f_equal.
    assert (Hcmp : match (e1 ?= e2)%Z with
                   | Eq => Pos.compare_cont Eq m1 m2
                   | Lt => Lt
                   | Gt => Gt
                   end
                   = (Zpos m1 * 2 ^ (e1 + 1074) ?= Zpos m2 * 2 ^ (e2 + 1074))%Z).
    { destruct (Z.compare_spec e1 e2) as [E|E|E].
      - subst e2.
        change (Pos.compare_cont Eq m1 m2) with (Z.pos m1 ?= Z.pos m2)%Z.
        assert (Hp : (0 < 2 ^ (e1 + 1074))%Z).
        { apply valid_binary_finite in V1. apply pow2_pos. lia. }
        set (p := (2 ^ (e1 + 1074))%Z) in *.
        destruct (Z.compare_spec (Z.pos m1) (Z.pos m2)) as [E|E|E]; symmetry;
          [apply Z.compare_eq_iff | apply Z.compare_lt_iff
           | apply Z.compare_gt_iff]; nia.
      - symmetry. apply Z.compare_lt_iff. now apply finite_ord_lt.
      - symmetry. apply Z.compare_gt_iff. now apply finite_ord_lt. }
    destruct s1, s2.
    + rewrite Z.compare_opp.
      rewrite (Z.compare_antisym (Z.pos m1 * 2 ^ (e1 + 1074))), <- Hcmp.
      destruct (e1 ?= e2)%Z; reflexivity.
    + symmetry. apply Z.compare_lt_iff. lia.
    + symmetry. apply Z.compare_gt_iff. lia.
    + exact Hcmp.
Qed.

(** The three comparisons of two floats: all false when one is NaN, else
    those of their places on the integers. *)
Lemma binary64_compare (x y : float) :
  (isnan x || isnan y = true ->
   flt x y = false /\ fle x y = false /\ feq x y = false)
  /\ (isnan x = false -> isnan y = false ->
      flt x y = (ord x <? ord y)%Z
      /\ fle x y = (ord x <=? ord y)%Z
      /\ feq x y = (ord x =? ord y)%Z).
Proof.
  change (flt x y) with (PrimFloat.ltb x y).
  change (fle x y) with (PrimFloat.leb x y).
  change (feq x y) with (PrimFloat.eqb x y).
  rewrite ltb_spec, leb_spec, eqb_spec.
  unfold SFltb, SFleb, SFeqb, isnan, ord. split.
  - intros H. now rewrite (@SFcompare_nan _ _ H).
  - intros Nx Ny.
    rewrite (@SFcompare_ord _ _ (Prim2SF_valid x) (Prim2SF_valid y) Nx Ny).
    rewrite Z.eqb_compare. unfold Z.ltb, Z.leb.
    destruct (SFord (Prim2SF x) ?= SFord (Prim2SF y))%Z;
      repeat split; reflexivity.
Qed.

Lemma binary64_number (x : float) : feq x x = negb (isnan x).
Proof.
  destruct (isnan x) eqn:N.
  - apply (proj1 (binary64_compare x x)). now rewrite N.
  - destruct (proj2 (binary64_compare x x) N N) as (_ & _ & ->).
    apply Z.eqb_refl.
Qed.

#[export] Instance binary64_FloatCompare : FloatCompare float.
Proof.
  constructor.
  - intros x y H.
    destruct (isnan x) eqn:Nx; destruct (isnan y) eqn:Ny;
      try (apply (proj1 (binary64_compare y x)); rewrite Nx, Ny; reflexivity).
    destruct (proj2 (binary64_compare x y) Nx Ny) as (E1 & _).
    destruct (proj2 (binary64_compare y x) Ny Nx) as (E2 & _).
    rewrite E1 in H. rewrite E2. lia.
  - intros x y z Hy H. rewrite binary64_number in Hy.
    apply negb_true_iff in Hy.
    destruct (isnan x) eqn:Nx.
    { destruct (proj1 (binary64_compare x z)) as (E & _);
        [now rewrite Nx|]. congruence. }
    destruct (isnan z) eqn:Nz.
    { destruct (proj1 (binary64_compare x z)) as (E & _);
        [rewrite Nx, Nz; reflexivity|]. congruence. }
    destruct (proj2 (binary64_compare x z) Nx Nz) as (E1 & _).
    destruct (proj2 (binary64_compare x y) Nx Hy) as (E2 & _).
    destruct (proj2 (binary64_compare y z) Hy Nz) as (E3 & _).
    rewrite E1 in H. rewrite E2, E3. lia.
  - intros x y H. rewrite !binary64_number.
    destruct (isnan x) eqn:Nx.
    { destruct (proj1 (binary64_compare x y)) as (_ & _ & E);
        [now rewrite Nx|]. congruence. }
    destruct (isnan y) eqn:Ny.
    { destruct (proj1 (binary64_compare x y)) as (_ & _ & E);
        [rewrite Nx, Ny; reflexivity|]. congruence. }
    auto.
  - intros x y Hx Hy. rewrite binary64_number in Hx, Hy.
    apply negb_true_iff in Hx, Hy.
    destruct (proj2 (binary64_compare x y) Hx Hy) as (E1 & _ & E2).
    destruct (proj2 (binary64_compare y x) Hy Hx) as (E3 & _).
    rewrite E1, E2, E3. lia.
Qed.

Lemma binary64_val_inv (x : float) (a : Q) :
  val x = Some a -> isnan x = false /\ a = Qmake (ord x) unit_scale.
Proof.
  unfold val, binary64_FloatValue, isnan.
  destruct (Prim2SF x); intros H; try discriminate H;
    injection H as <-; auto.
Qed.

Lemma Qmake_lt (a b : Z) (d : positive) : Qmake a d < Qmake b d <-> (a < b)%Z.
Proof. unfold Qlt. cbn [Qnum Qden]. nia. Qed.

Lemma Qmake_le (a b : Z) (d : positive) : Qmake a d <= Qmake b d <-> (a <= b)%Z.
Proof. unfold Qle. cbn [Qnum Qden]. nia. Qed.

Lemma Qmake_eq (a b : Z) (d : positive) : Qmake a d == Qmake b d <-> a = b.
Proof. unfold Qeq. cbn [Qnum Qden]. nia. Qed.

#[export] Instance binary64_FloatValueLaws : FloatValueLaws float.
Proof.
  constructor.
  - eexists. split; [vm_compute; reflexivity|]. reflexivity.
  - eexists. split; [vm_compute; reflexivity|].
    apply Qeq_bool_iff. vm_compute. reflexivity.
  - intros x y a b Hx Hy.
    apply binary64_val_inv in Hx, Hy.
    destruct Hx as [Nx ->]. destruct Hy as [Ny ->].
    destruct (proj2 (binary64_compare x y) Nx Ny) as (-> & _).
    rewrite Qmake_lt. apply Z.ltb_lt.
  - intros x y a b Hx Hy.
    apply binary64_val_inv in Hx, Hy.
    destruct Hx as [Nx ->]. destruct Hy as [Ny ->].
    destruct (proj2 (binary64_compare x y) Nx Ny) as (_ & -> & _).
    rewrite Qmake_le. apply Z.leb_le.
  - intros x y a b Hx Hy.
    apply binary64_val_inv in Hx, Hy.
    destruct Hx as [Nx ->]. destruct Hy as [Ny ->].
    destruct (proj2 (binary64_compare x y) Nx Ny) as (_ & _ & ->).
    rewrite Qmake_eq. apply Z.eqb_eq.
Qed.
End Binary64Order.

(** ** Duration accounting *)

Section Accounting.
Context {T : Type} {F : FloatOps T} {V : FloatValue T} {L : FloatValueLaws T}.

Import VideoSpeedProcessor.

Variable self : t T.
Variable D : T.

Lemma exact_inv (op : T -> T -> T) (qop : Q -> Q -> Q) (x y : T) :
  exact op qop x y = true ->
  exists a b c,
    val x = Some a /\ val y = Some b /\ val (op x y) = Some c
    /\ c == qop a b.
Proof.
  unfold exact.
  destruct (val x) as [a|]; [|discriminate].
  destruct (val y) as [b|]; [|discriminate].
  destruct (val (op x y)) as [c|]; [|discriminate].
  intros H. apply Qeq_bool_iff in H. exists a, b, c. auto.
Qed.

Lemma qval_some (x : T) (a : Q) : val x = Some a -> qval x = a.
Proof. unfold qval. now intros ->. Qed.

Lemma val_finite (x : T) : val x <> None -> exists a, val x = Some a.
Proof. destruct (val x) as [a|]; [eauto | congruence]. Qed.

Lemma sum_exact_cons (seg : VideoSegment.t T) l acc :
  sum_exact (seg :: l) acc = true ->
  exact fsub Qminus (VideoSegment.end_time seg) (VideoSegment.start_time seg)
  = true
  /\ exact fdiv Qdiv (VideoSegment.duration seg) (VideoSegment.speed seg)
     = true
  /\ exact fadd Qplus acc
       (fdiv (VideoSegment.duration seg) (VideoSegment.speed seg)) = true
  /\ sum_exact l
       (fadd acc (fdiv (VideoSegment.duration seg) (VideoSegment.speed seg)))
     = true.
Proof.
  cbn [sum_exact]. cbv zeta. rewrite !andb_true_iff. tauto.
Qed.

Lemma sum_exact_finite (l : list (VideoSegment.t T)) :
  forall acc, sum_exact l acc = true -> Forall finite_segment l.
Proof.
  induction l as [|seg l IH]; intros acc H; [constructor|].
  apply sum_exact_cons in H. destruct H as (H1 & H2 & _ & H4).
  constructor; [|exact (IH _ H4)].
  apply exact_inv in H1. destruct H1 as (e & s & _ & He & Hs & _).
  apply exact_inv in H2. destruct H2 as (_ & v & _ & _ & Hv & _).
  unfold finite_segment. rewrite He, Hs, Hv. repeat split; discriminate.
Qed.

(** The value of the sum, when no operation rounds and no speed is zero. *)
Lemma sum_exact_value (l : list (VideoSegment.t T)) :
  forall acc a,
    sum_exact l acc = true ->
    val acc = Some a ->
    Forall (fun seg => feq (VideoSegment.speed seg) (of_int 0) = false) l ->
    exists out q,
      sum_output_duration l acc = Ok out
      /\ val out = Some q
      /\ q == a + qsum l.
Proof.
  induction l as [|seg l IH]; intros acc a He Ha Hs.
  - exists acc, a. split; [reflexivity|]. split; [exact Ha|].
    cbn [qsum]. lra.
  - apply sum_exact_cons in He. destruct He as (H1 & H2 & H3 & H4).
    inversion Hs as [|? ? Hs1 Hs2]; subst.
    apply exact_inv in H1. destruct H1 as (e & s & d & He & Hst & Hd & Ed).
    apply exact_inv in H2. destruct H2 as (d' & v & o & Hd' & Hv & Ho & Eo).
    apply exact_inv in H3. destruct H3 as (a' & o' & c & Ha' & Ho' & Hc & Ec).
    unfold VideoSegment.duration in Hd'.
    rewrite Hd in Hd'. injection Hd' as <-.
    rewrite Ha in Ha'. injection Ha' as <-.
    rewrite Ho in Ho'. injection Ho' as <-.
    destruct (IH _ c H4 Hc Hs2) as (out & q & Hsum & Hq & Eq).
    exists out, q. split; [|split; [exact Hq|]].
    + cbn [sum_output_duration].
      unfold VideoSegment.output_duration, truediv. rewrite Hs1.
      cbn [bind]. exact Hsum.
    + cbn [qsum].
      rewrite (qval_some _ He), (qval_some _ Hst), (qval_some _ Hv).
      rewrite Eq, Ec, Eo, Ed. unfold Qminus. ring.
Qed.

Lemma final_end_last (l : list (VideoSegment.t T)) seg :
  forall cur,
    hd_error (rev l) = Some seg ->
    final_end cur l = VideoSegment.end_time seg.
Proof.
  induction l as [|a l IH] using rev_ind; intros cur H.
  - discriminate H.
  - rewrite rev_app_distr in H. simpl in H. injection H as ->.
    unfold final_end. now rewrite fold_left_app.
Qed.

Lemma segments_final_end subs :
  flt (of_int 0) D = true ->
  final_end (of_int 0) (_create_video_segments self subs D) = D.
Proof.
  intros HD.
  destruct (last_end_duration self D subs HD) as (seg & Hhd & E).
  now rewrite (final_end_last _ _ Hhd).
Qed.

Lemma vchained_app (l1 l2 : list (VideoSegment.t T)) :
  forall cur,
    vchained (qval cur) l1 ->
    vchained (qval (final_end cur l1)) l2 ->
    vchained (qval cur) (l1 ++ l2).
Proof.
  induction l1 as [|a l1 IH]; intros cur H1 H2; [exact H2|].
  cbn [app vchained] in *. destruct H1 as [Ha H1].
  split; [exact Ha|]. apply IH; [exact H1 | exact H2].
Qed.

(** Two floats with values, neither below the other, have one value. *)
Lemma incomparable_values (x y : T) :
  val x <> None -> val y <> None ->
  flt x y = false -> flt y x = false -> qval x == qval y.
Proof.
  intros Hx Hy H1 H2.
  destruct (@val_finite x Hx) as (a & Ha). destruct (@val_finite y Hy) as (b & Hb).
  rewrite (qval_some _ Ha), (qval_some _ Hb).
  pose proof (val_lt x y Ha Hb) as L1. pose proof (val_lt y x Hb Ha) as L2.
  destruct (Qlt_le_dec a b) as [Hab|Hba].
  - apply L1 in Hab. congruence.
  - destruct (Qlt_le_dec b a) as [Hlt|Hle].
    + apply L2 in Hlt. congruence.
    + now apply Qle_antisym.
Qed.

Lemma sweep_vchained subs :
  forall cur,
    val cur <> None ->
    disjoint_from self D cur subs = true ->
    Forall finite_segment (fst (sweep self D cur subs)) ->
    vchained (qval cur) (fst (sweep self D cur subs)).
Proof.
  induction subs as [|s rest IH]; intros cur Hcur Hd Hfin; [exact I|].
  simpl in Hd. apply andb_true_iff in Hd. destruct Hd as [H1 H2].
  apply negb_true_iff in H1.
  rewrite sweep_fst_cons in *.
  apply Forall_app in Hfin. destruct Hfin as [_ Hfin].
  inversion Hfin as [|? ? Hw Hrest]; subst.
  destruct Hw as (Hws & Hwe & _). cbn in Hws, Hwe.
  destruct (gap_segment_cases self cur s) as [[_ ->]|[Hlt ->]];
    cbn [app vchained VideoSegment.start_time VideoSegment.end_time
         _create_non_subtitle_segment window_segment
         _create_subtitle_segment].
  - split; [reflexivity|]. split; [reflexivity|]. now apply IH.
  - split; [now apply incomparable_values|]. now apply IH.
Qed.

Lemma paddedStart_not_below_zero s :
  val (paddedStart self s) <> None ->
  flt (paddedStart self s) (of_int 0) = false.
Proof.
  destruct val_zero as (z & Hz & Ez).
  unfold paddedStart, _calculate_subtitle_start, pymax.
  destruct (flt (of_int 0) (fsub _ _)) eqn:E; intros Hv.
  - destruct (@val_finite _ Hv) as (a & Ha).
    apply (val_lt _ _ Hz Ha) in E.
    destruct (flt (fsub _ _) (of_int 0)) eqn:E'; [|reflexivity].
    apply (val_lt _ _ Ha Hz) in E'. lra.
  - destruct (flt (of_int 0) (of_int 0)) eqn:E'; [|reflexivity].
    apply (val_lt _ _ Hz Hz) in E'. lra.
Qed.

Lemma segments_vchained subs :
  windows_disjoint self D subs = true ->
  Forall finite_segment (_create_video_segments self subs D) ->
  vchained (qval (of_int 0)) (_create_video_segments self subs D).
Proof.
  intros Hd Hfin. rewrite create_video_segments_sweep in *.
  apply Forall_app in Hfin. destruct Hfin as [Hfin _].
  destruct val_zero as (z & Hz & _).
  apply vchained_app.
  - apply sweep_vchained; [rewrite Hz; discriminate| |exact Hfin].
    apply windows_disjoint_from; [|exact Hd].
    destruct subs as [|s rest]; [exact I|].
    apply paddedStart_not_below_zero.
    rewrite sweep_fst_cons in Hfin.
    apply Forall_app in Hfin. destruct Hfin as [_ Hfin].
    inversion Hfin as [|? ? Hw _]; subst. exact (proj1 Hw).
  - rewrite sweep_final_end.
    destruct (flt (snd (sweep self D (of_int 0) subs)) D); [|exact I].
    cbn [vchained _create_non_subtitle_segment VideoSegment.start_time].
    split; [reflexivity | exact I].
Qed.

(** A chain covers the distance from its start to its end. *)
Lemma qspan_chain (l : list (VideoSegment.t T)) :
  forall cur,
    vchained (qval cur) l ->
    qspan l == qval (final_end cur l) - qval cur.
Proof.
  induction l as [|a l IH]; intros cur H.
  - unfold final_end. cbn [qspan fold_left]. lra.
  - cbn [vchained] in H. destruct H as [Ha H].
    change (final_end cur (a :: l))
      with (final_end (VideoSegment.end_time a) l).
    cbn [qspan]. rewrite (IH _ H). lra.
Qed.

Lemma qsum_unit (l : list (VideoSegment.t T)) :
  Forall (fun seg => qval (VideoSegment.speed seg) == 1) l ->
  qsum l == qspan l.
Proof.
  induction 1 as [|seg l Hs _ IH]; [reflexivity|].
  cbn [qsum qspan]. rewrite IH, Hs. field.
Qed.

Lemma qsum_fast (l : list (VideoSegment.t T)) :
  Forall (fun seg => 1 <= qval (VideoSegment.speed seg)) l ->
  Forall (fun seg => qval (VideoSegment.start_time seg)
                     <= qval (VideoSegment.end_time seg)) l ->
  qsum l <= qspan l.
Proof.
  induction 1 as [|seg l Hs _ IH]; intros Hl; [apply Qle_refl|].
  inversion Hl as [|? ? Hl1 Hl2]; subst.
  cbn [qsum qspan]. specialize (IH Hl2).
  set (len := qval (VideoSegment.end_time seg)
              - qval (VideoSegment.start_time seg)) in *.
  set (v := qval (VideoSegment.speed seg)) in *.
  assert (Hdiv : len / v <= len).
  { apply Qle_shift_div_r; [lra|].
    assert (Hlen0 : 0 <= len) by (unfold len; lra).
    nra. }
  lra.
Qed.

Lemma unit_speed (s : T) :
  val s <> None -> feq s (of_int 1) = true ->
  qval s == 1 /\ feq s (of_int 0) = false.
Proof.
  intros Hv H. destruct (@val_finite _ Hv) as (a & Ha).
  destruct val_one as (o & Ho & Eo). destruct val_zero as (z & Hz & Ez).
  apply (val_eq _ _ Ha Ho) in H.
  rewrite (qval_some _ Ha). split; [lra|].
  destruct (feq s (of_int 0)) eqn:E; [|reflexivity].
  apply (val_eq _ _ Ha Hz) in E. lra.
Qed.

Lemma fast_speed (s : T) :
  val s <> None -> fle (of_int 1) s = true ->
  1 <= qval s /\ feq s (of_int 0) = false.
Proof.
  intros Hv H. destruct (@val_finite _ Hv) as (a & Ha).
  destruct val_one as (o & Ho & Eo). destruct val_zero as (z & Hz & Ez).
  apply (val_le _ _ Ho Ha) in H.
  rewrite (qval_some _ Ha). split; [lra|].
  destruct (feq s (of_int 0)) eqn:E; [|reflexivity].
  apply (val_eq _ _ Ha Hz) in E. lra.
Qed.

Lemma segments_speeds (P : T -> Prop) subs :
  Forall finite_segment (_create_video_segments self subs D) ->
  (val (speed_no_subtitle self) <> None -> P (speed_no_subtitle self)) ->
  (val (speed_with_subtitle self) <> None -> P (speed_with_subtitle self)) ->
  Forall (fun seg => P (VideoSegment.speed seg))
         (_create_video_segments self subs D).
Proof.
  intros Hfin H1 H2.
  pose proof (segments_speed_matches self D subs) as Hsp.
  rewrite Forall_forall in *. intros seg Hin.
  specialize (Hfin seg Hin). specialize (Hsp seg Hin).
  destruct Hfin as (_ & _ & Hv). unfold speed_matches in Hsp.
  rewrite Hsp in *.
  destruct (VideoSegment.has_subtitle seg); auto.
Qed.

Lemma segments_not_inverted subs :
  windows_proper self D subs = true ->
  Forall finite_segment (_create_video_segments self subs D) ->
  Forall (fun seg => qval (VideoSegment.start_time seg)
                     <= qval (VideoSegment.end_time seg))
         (_create_video_segments self subs D).
Proof.
  intros Hp Hfin. rewrite Forall_forall in *. intros seg Hin.
  destruct (Hfin seg Hin) as (Hs & He & _).
  destruct (@val_finite _ Hs) as (a & Ha). destruct (@val_finite _ He) as (b & Hb).
  rewrite (qval_some _ Ha), (qval_some _ Hb).
  destruct (VideoSegment.has_subtitle seg) eqn:Hflag.
  - assert (Hf : In seg (filter (@VideoSegment.has_subtitle T)
                           (_create_video_segments self subs D))).
    { apply filter_In. now split. }
    rewrite with_subtitle_segments in Hf. apply in_map_iff in Hf.
    destruct Hf as (s & <- & Hsin).
    unfold windows_proper in Hp. rewrite forallb_forall in Hp.
    specialize (Hp s Hsin). apply negb_true_iff in Hp.
    cbn in Ha, Hb.
    destruct (Qlt_le_dec b a) as [Hlt|Hle]; [|exact Hle].
    apply (val_lt _ _ Hb Ha) in Hlt. congruence.
  - pose proof (no_subtitle_segment_positive self D subs seg Hin Hflag) as Hlt.
    apply (val_lt _ _ Ha Hb) in Hlt. now apply Qlt_le_weak.
Qed.

Lemma duration_value subs :
  flt (of_int 0) D = true ->
  Forall finite_segment (_create_video_segments self subs D) ->
  val D <> None.
Proof.
  intros HD Hfin.
  destruct (last_end_duration self D subs HD) as (seg & Hhd & E).
  rewrite Forall_forall in Hfin.
  assert (Hin : In seg (_create_video_segments self subs D)).
  { apply in_rev. destruct (rev (_create_video_segments self subs D));
      [discriminate Hhd|]. injection Hhd as ->. now left. }
  destruct (Hfin seg Hin) as (_ & He & _). now rewrite <- E.
Qed.

(** What the conditions of the accounting give: the video duration has a
    positive value [d], and the exact spans of the segments add up to it. *)
Lemma accounting_spans subs :
  flt (of_int 0) D = true ->
  windows_disjoint self D subs = true ->
  Forall finite_segment (_create_video_segments self subs D) ->
  exists z d,
    val (of_int 0) = Some z /\ z == 0
    /\ val D = Some d /\ 0 < d
    /\ feq D (of_int 0) = false
    /\ qspan (_create_video_segments self subs D) == d.
Proof.
  intros HD Hdis Hfin.
  pose proof (qspan_chain _ _ (segments_vchained subs Hdis Hfin)) as Hspan.
  rewrite (segments_final_end subs HD) in Hspan.
  destruct val_zero as (z & Hz & Ez).
  destruct (@val_finite _ (duration_value subs HD Hfin)) as (d & Hd).
  rewrite (qval_some _ Hz), (qval_some _ Hd) in Hspan.
  exists z, d. repeat split; try assumption.
  - apply (val_lt _ _ Hz Hd) in HD. lra.
  - destruct (feq D (of_int 0)) eqn:E; [|reflexivity].
    apply (val_eq _ _ Hd Hz) in E. apply (val_lt _ _ Hz Hd) in HD. lra.
  - rewrite Hspan. lra.
Qed.

Lemma last_segment subs :
  flt (of_int 0) D = true ->
  exists seg, In seg (_create_video_segments self subs D).
Proof.
  intros HD.
  destruct (last_end_duration self D subs HD) as (seg & Hhd & _).
  exists seg. apply in_rev.
  destruct (rev (_create_video_segments self subs D));
    [discriminate Hhd|]. injection Hhd as ->. now left.
Qed.

(** C4 (amended): let [D > 0], let no padded window start before the
    preceding one has ended, and let no subtraction, division or addition
    of the estimate round.  If both speeds are 1 the estimated output
    duration equals [D]; if both speeds are at least 1 and no padded window
    is inverted it is at most [D]. *)
Theorem duration_accounting (subtitles : list (SubtitleSegment.t T)) :
  flt (of_int 0) D = true ->
  windows_disjoint self D subtitles = true ->
  sum_exact (_create_video_segments self subtitles D) (of_int 0) = true ->
  (feq (speed_no_subtitle self) (of_int 1) = true ->
   feq (speed_with_subtitle self) (of_int 1) = true ->
   exists out,
     estimate (_create_video_segments self subtitles D) = Ok out
     /\ feq out D = true)
  /\ (fle (of_int 1) (speed_no_subtitle self) = true ->
      fle (of_int 1) (speed_with_subtitle self) = true ->
      windows_proper self D subtitles = true ->
      exists out,
        estimate (_create_video_segments self subtitles D) = Ok out
        /\ fle out D = true).
Proof.
  intros HD Hdis Hex.
  pose proof (sum_exact_finite _ _ Hex) as Hfin.
  pose proof (qspan_chain _ _ (segments_vchained subtitles Hdis Hfin)) as Hspan.
  rewrite (segments_final_end subtitles HD) in Hspan.
  destruct val_zero as (z & Hz & Ez).
  destruct (@val_finite _ (duration_value subtitles HD Hfin)) as (d & Hd).
  rewrite (qval_some _ Hz), (qval_some _ Hd) in Hspan.
  unfold estimate. split.
  - intros H1 H2.
    pose proof (segments_speeds
                  (fun s => qval s == 1 /\ feq s (of_int 0) = false)
                  subtitles Hfin
                  (fun Hv => @unit_speed _ Hv H1)
                  (fun Hv => @unit_speed _ Hv H2)) as Hsp.
    destruct (@sum_exact_value _ _ _ Hex Hz) as (out & q & Hsum & Hq & Eq).
    { eapply Forall_impl; [|exact Hsp]. intros seg Hseg. exact (proj2 Hseg). }
    exists out. split; [exact Hsum|].
    apply (val_eq _ _ Hq Hd).
    rewrite Eq, qsum_unit, Hspan; [lra|].
    eapply Forall_impl; [|exact Hsp]. intros seg Hseg. exact (proj1 Hseg).
  - intros H1 H2 Hp.
    pose proof (segments_speeds
                  (fun s => 1 <= qval s /\ feq s (of_int 0) = false)
                  subtitles Hfin
                  (fun Hv => @fast_speed _ Hv H1)
                  (fun Hv => @fast_speed _ Hv H2)) as Hsp.
    destruct (@sum_exact_value _ _ _ Hex Hz) as (out & q & Hsum & Hq & Eq).
    { eapply Forall_impl; [|exact Hsp]. intros seg Hseg. exact (proj2 Hseg). }
    exists out. split; [exact Hsum|].
    apply (val_le _ _ Hq Hd).
    assert (Hle : qsum (_create_video_segments self subtitles D)
                  <= qspan (_create_video_segments self subtitles D)).
    { apply qsum_fast; [|now apply segments_not_inverted].
      eapply Forall_impl; [|exact Hsp]. intros seg Hseg. exact (proj1 Hseg). }
    lra.
Qed.
End Accounting.

(** ** Parameter validation *)

Section Validation.
Context {T : Type} {F : FloatOps T}.

Import VideoSpeedProcessor.

(** C3 (amended): with the input file present and FFmpeg installed, the
    scheduler fails exactly when a speed is [<= 0] or the buffer is [< 0],
    and then with [ValidationError]; the total duration is not validated.
    On all other inputs it returns the segment list. *)
Theorem schedule_fails_iff (env : Env) (input output : string)
    (catalog : list (SubtitleSegment.t T))
    (bufferSeconds totalDuration speedNoSub speedWithSub : T) :
  path_exists env input = true ->
  ffmpeg_is_installed env = true ->
  (raises (schedule env input output catalog bufferSeconds totalDuration
                    speedNoSub speedWithSub)
   <-> (fle speedNoSub (of_int 0) = true
        \/ fle speedWithSub (of_int 0) = true
        \/ flt bufferSeconds (of_int 0) = true))
  /\ (forall e,
         schedule env input output catalog bufferSeconds totalDuration
                  speedNoSub speedWithSub = Raise e ->
         e = ValidationError)
  /\ (fle speedNoSub (of_int 0) = false ->
      fle speedWithSub (of_int 0) = false ->
      flt bufferSeconds (of_int 0) = false ->
      schedule env input output catalog bufferSeconds totalDuration
               speedNoSub speedWithSub
      = Ok (_create_video_segments
              (make input output speedNoSub speedWithSub bufferSeconds)
              catalog totalDuration)).
Proof.
  intros Hfile Hffmpeg.
  unfold schedule, __init__, _validate_inputs, raises. simpl.
  rewrite Hfile, Hffmpeg. simpl.
  destruct (fle speedNoSub (of_int 0)) eqn:E1;
    destruct (fle speedWithSub (of_int 0)) eqn:E2;
    destruct (flt bufferSeconds (of_int 0)) eqn:E3; simpl;
    (split; [split; [intros [e He]; try discriminate He; auto
                    | intros [H|[H|H]]; try discriminate H; eauto]
            | split; [intros e He; try discriminate He; congruence
                     | intros; try discriminate; reflexivity]]).
Qed.
End Validation.

(** ** The timestamp parser *)

Section Timestamp.
Context {T : Type} {F : FloatOps T} {R : FloatRead T}.

Import SubtitleParser.

Lemma float_cases (s : string) :
  (exists x : T, float_of_str s = Some x /\ float s = Ok x)
  \/ (float_of_str s = None /\ float (T:=T) s = Raise ValueError).
Proof.
  unfold float. destruct (float_of_str s); eauto.
Qed.

(** [_parse_srt_time] raises nothing but [ValueError]. *)
Lemma parse_srt_time_raises (time_str : string) (e : exn) :
  _parse_srt_time (T:=T) time_str = Raise e -> e = ValueError.
Proof.
  unfold _parse_srt_time.
  destruct (split ":" (replace "," "." time_str))
    as [|p0 [|p1 [|p2 [|p3 parts]]]]; simpl; try congruence.
  unfold float.
  destruct (float_of_str p0); simpl; [|congruence].
  destruct (float_of_str p1); simpl; [|congruence].
  destruct (float_of_str p2); simpl; congruence.
Qed.

(** C6 (amended): [_parse_srt_time] fails, with [ValueError], exactly when
    the input with [','] replaced by ['.'] does not consist of three
    colon-separated components each accepted by [float]; accepted
    components are combined as [hours * 3600 + minutes * 60 + seconds]
    whatever their sign. *)
Theorem parse_srt_time_fails_iff (time_str : string) :
  (_parse_srt_time (T:=T) time_str = Raise ValueError
   <-> ~ exists p0 p1 p2 (hours minutes seconds : T),
         split ":" (replace "," "." time_str) = [p0; p1; p2]
         /\ float_of_str p0 = Some hours
         /\ float_of_str p1 = Some minutes
         /\ float_of_str p2 = Some seconds)
  /\ (forall p0 p1 p2 (hours minutes seconds : T),
         split ":" (replace "," "." time_str) = [p0; p1; p2] ->
         float_of_str p0 = Some hours ->
         float_of_str p1 = Some minutes ->
         float_of_str p2 = Some seconds ->
         _parse_srt_time time_str
         = Ok (fadd (fadd (fmul hours (of_int 3600))
                          (fmul minutes (of_int 60)))
                    seconds)).
Proof.
  assert (Hok : forall p0 p1 p2 (hours minutes seconds : T),
             split ":" (replace "," "." time_str) = [p0; p1; p2] ->
             float_of_str p0 = Some hours ->
             float_of_str p1 = Some minutes ->
             float_of_str p2 = Some seconds ->
             _parse_srt_time time_str
             = Ok (fadd (fadd (fmul hours (of_int 3600))
                              (fmul minutes (of_int 60)))
                        seconds)).
  { intros p0 p1 p2 h m s Hs H0 H1 H2.
    unfold _parse_srt_time. rewrite Hs. simpl.
    unfold float. now rewrite H0, H1, H2. }
  split; [split|exact Hok].
  - intros Hr (p0 & p1 & p2 & h & m & s & Hs & H0 & H1 & H2).
    rewrite (Hok _ _ _ _ _ _ Hs H0 H1 H2) in Hr. discriminate Hr.
  - intros Hn. unfold _parse_srt_time.
    destruct (split ":" (replace "," "." time_str))
      as [|p0 [|p1 [|p2 [|p3 parts]]]] eqn:Hs; simpl; try reflexivity.
    unfold float.
    destruct (float_of_str p0) as [h|] eqn:H0; simpl; [|reflexivity].
    destruct (float_of_str p1) as [m|] eqn:H1; simpl; [|reflexivity].
    destruct (float_of_str p2) as [s|] eqn:H2; simpl; [|reflexivity].
    exfalso. apply Hn. exists p0, p1, p2, h, m, s. auto.
Qed.
End Timestamp.

(** ** The catalog builder *)

Section CatalogBuilder.
Context {T : Type} {F : FloatOps T} {R : FloatRead T}.

Import SubtitleParser.

Lemma getitem_timing_line (lines : list string) :
  (List.length lines <? Config.MIN_SRT_LINES)%nat = false ->
  exists timing_line,
    nth_error lines 1 = Some timing_line
    /\ getitem lines 1 = Ok timing_line.
Proof.
  intros H. apply Nat.ltb_ge in H. unfold getitem.
  destruct lines as [|l0 [|l1 lines]]; simpl in H;
    try (unfold Config.MIN_SRT_LINES in H; lia).
  simpl. eauto.
Qed.

Lemma parse_srt_block_dropped (block : string) :
  too_short block \/ lacks_separator block ->
  _parse_srt_block (T:=T) block = Ok None.
Proof.
  intros H. unfold _parse_srt_block.
  destruct (List.length (split newline block) <? Config.MIN_SRT_LINES)%nat
    eqn:Hlen; [reflexivity|].
  destruct H as [H|(tl & Htl & Hsep)].
  - apply Nat.ltb_ge in Hlen. unfold too_short in H. lia.
  - destruct (getitem_timing_line _ Hlen) as (tl' & Htl' & ->).
    rewrite Htl in Htl'. injection Htl' as <-.
    cbn [bind]. now rewrite Hsep.
Qed.

Lemma parse_srt_block_fatal (block : string) :
  bad_timestamp (T:=T) block ->
  _parse_srt_block (T:=T) block = Raise SubtitleExtractionError.
Proof.
  intros (Hlen & tl & a & b & Htl & Hsep & Hsplit & Hbad).
  unfold _parse_srt_block.
  apply Nat.ltb_ge in Hlen. rewrite Hlen.
  destruct (getitem_timing_line _ Hlen) as (tl' & Htl' & ->).
  rewrite Htl in Htl'. injection Htl' as <-.
  cbn [bind]. rewrite Hsep, Hsplit. cbn [negb].
  destruct Hbad as [[e He]|[e He]].
  - rewrite He. rewrite (parse_srt_time_raises _ He). reflexivity.
  - rewrite He. rewrite (parse_srt_time_raises _ He).
    destruct (_parse_srt_time (strip a)) as [x|e'] eqn:Ea; [reflexivity|].
    rewrite (parse_srt_time_raises _ Ea). reflexivity.
Qed.

(** [_parse_srt_block] raises nothing but [SubtitleExtractionError]. *)
Lemma parse_srt_block_raises (block : string) (e : exn) :
  _parse_srt_block (T:=T) block = Raise e -> e = SubtitleExtractionError.
Proof.
  unfold _parse_srt_block.
  destruct (List.length (split newline block) <? Config.MIN_SRT_LINES)%nat
    eqn:Hlen; [discriminate|].
  destruct (getitem_timing_line _ Hlen) as (tl & _ & ->). cbn [bind].
  destruct (contains Config.SRT_TIME_DELIMITER tl); [|discriminate].
  cbn [negb].
  destruct (split Config.SRT_TIME_DELIMITER tl) as [|a [|b [|c parts]]];
    simpl; try congruence.
  destruct (_parse_srt_time (strip a)) as [x|e1] eqn:Ea.
  - destruct (_parse_srt_time (strip b)) as [y|e2] eqn:Eb; simpl.
    + discriminate.
    + rewrite (parse_srt_time_raises _ Eb). simpl. congruence.
  - rewrite (parse_srt_time_raises _ Ea). simpl. congruence.
Qed.

Lemma parse_blocks_dropped (pre : list string) (block : string)
    (post : list string) :
  too_short (strip block) \/ lacks_separator (strip block) ->
  forall subtitles : list (SubtitleSegment.t T),
    parse_blocks (pre ++ block :: post) subtitles
    = parse_blocks (pre ++ post) subtitles.
Proof.
  intros H. induction pre as [|x pre IH]; intros subtitles; simpl.
  - now rewrite (parse_srt_block_dropped H).
  - destruct (_parse_srt_block (strip x)) as [[sub|]|e]; simpl; auto.
Qed.

Lemma parse_blocks_fatal (blocks : list string) (block : string) :
  In block blocks ->
  bad_timestamp (T:=T) (strip block) ->
  forall subtitles : list (SubtitleSegment.t T),
    parse_blocks blocks subtitles = Raise SubtitleExtractionError.
Proof.
  intros Hin Hbad. induction blocks as [|x blocks IH]; intros subtitles.
  - destruct Hin.
  - simpl. destruct Hin as [->|Hin].
    + now rewrite (parse_srt_block_fatal Hbad).
    + destruct (_parse_srt_block (strip x)) as [[sub|]|e] eqn:Ex; simpl;
        auto.
      now rewrite (parse_srt_block_raises _ Ex).
Qed.

(** C7: a block with fewer than 3 lines, or whose timing line lacks
    [" --> "], is dropped silently: the build proceeds as if the block were
    absent.  A timestamp that fails to parse in a block with enough lines
    and the separator aborts the whole build with
    [SubtitleExtractionError], so that no partial catalog is returned. *)
Theorem malformed_block_policy :
  (forall (fs : file_reader) (srt_file content : string)
          (pre : list string) (block : string) (post : list string),
      _read_srt_file fs srt_file = Ok content ->
      split Config.SRT_BLOCK_DELIMITER (strip content) = pre ++ block :: post ->
      too_short (strip block) \/ lacks_separator (strip block) ->
      parse_srt_file (T:=T) fs srt_file
      = try_except_all
          (subtitles <- parse_blocks (pre ++ post) [] ;;
           Ok (sorted SubtitleSegment.start_time subtitles))
          SubtitleExtractionError)
  /\ (forall (fs : file_reader) (srt_file content block : string),
         _read_srt_file fs srt_file = Ok content ->
         In block (split Config.SRT_BLOCK_DELIMITER (strip content)) ->
         bad_timestamp (T:=T) (strip block) ->
         parse_srt_file (T:=T) fs srt_file = Raise SubtitleExtractionError).
Proof.
  split.
  - intros fs srt_file content pre block post Hread Hsplit H.
    unfold parse_srt_file. rewrite Hread. cbn [bind].
    now rewrite Hsplit, (parse_blocks_dropped pre block post H).
  - intros fs srt_file content block Hread Hin Hbad.
    unfold parse_srt_file. rewrite Hread. cbn [bind].
    now rewrite (parse_blocks_fatal _ _ Hin Hbad).
Qed.
End CatalogBuilder.

Section Sorting.
Context {T : Type} {F : FloatOps T} {C : FloatCompare T}.
Context {A : Type} (key : A -> T).

Lemma insort_head (x : A) (l : list A) :
  exists y l', insort key x l = y :: l'
               /\ (y = x \/ exists l0, l = y :: l0).
Proof.
  destruct l as [|y l]; simpl.
  - exists x, []. auto.
  - destruct (flt (key y) (key x)).
    + exists y, (insort key x l). split; [reflexivity|]. right. eauto.
    + exists x, (y :: l). auto.
Qed.

Lemma insort_ascending (x : A) (l : list A) :
  ascending key l = true -> ascending key (insort key x l) = true.
Proof.
  induction l as [|y l IH]; intros Hl; [reflexivity|].
  simpl. destruct (flt (key y) (key x)) eqn:E.
  - assert (Hl' : ascending key l = true).
    { destruct l; [reflexivity|]. simpl in Hl.
      apply andb_true_iff in Hl. tauto. }
    specialize (IH Hl').
    destruct (insort_head x l) as (z & l' & Hz & Hcase).
    rewrite Hz in *.
    change (ascending key (y :: z :: l'))
      with (negb (flt (key z) (key y)) && ascending key (z :: l')).
    rewrite IH, andb_true_r.
    destruct Hcase as [->|[l0 ->]].
    + now rewrite (cmp_asym _ _ E).
    + simpl in Hl. apply andb_true_iff in Hl. tauto.
  - change (ascending key (x :: y :: l))
      with (negb (flt (key y) (key x)) && ascending key (y :: l)).
    now rewrite E, Hl.
Qed.

Lemma sorted_ascending (l : list A) : ascending key (sorted key l) = true.
Proof.
  induction l as [|x l IH]; [reflexivity|].
  simpl. now apply insort_ascending.
Qed.

Lemma insort_permutation (x : A) (l : list A) :
  Permutation (x :: l) (insort key x l).
Proof.
  induction l as [|y l IH]; simpl; [reflexivity|].
  destruct (flt (key y) (key x)); [|reflexivity].
  rewrite perm_swap. now constructor.
Qed.

Lemma sorted_permutation (l : list A) : Permutation l (sorted key l).
Proof.
  induction l as [|x l IH]; simpl; [constructor|].
  rewrite <- insort_permutation. now constructor.
Qed.

Lemma numbers_permutation (l l' : list A) :
  Permutation l l' ->
  forallb (fun a => is_number (key a)) l = true ->
  forallb (fun a => is_number (key a)) l' = true.
Proof.
  intros Hp H. apply forallb_forall. intros a Hin.
  rewrite forallb_forall in H. apply H.
  eapply Permutation_in; [symmetry; exact Hp | exact Hin].
Qed.

(** Among numbers, insertion keeps every element at or above all that
    precede it. *)
Lemma insort_nondecreasing (x : A) (l : list A) :
  forallb (fun a => is_number (key a)) l = true ->
  nondecreasing key l = true ->
  nondecreasing key (insort key x l) = true.
Proof.
  induction l as [|y l IH]; intros Hn Hl; [reflexivity|].
  cbn [forallb] in Hn. apply andb_true_iff in Hn. destruct Hn as [Hy Hn].
  cbn [nondecreasing] in Hl. apply andb_true_iff in Hl.
  destruct Hl as [Hyl Hl].
  cbn [insort]. destruct (flt (key y) (key x)) eqn:E.
  - cbn [nondecreasing]. rewrite (IH Hn Hl), andb_true_r.
    apply forallb_forall. intros b Hb.
    apply (Permutation_in _ (Permutation_sym (insort_permutation x l))) in Hb.
    destruct Hb as [<-|Hb].
    + now rewrite (cmp_asym _ _ E).
    + rewrite forallb_forall in Hyl. now apply Hyl.
  - cbn [nondecreasing forallb]. rewrite E, Hyl, Hl. cbn [negb andb].
    rewrite andb_true_r.
    apply forallb_forall. intros b Hb.
    destruct (flt (key b) (key x)) eqn:Ebx; [|reflexivity].
    rewrite forallb_forall in Hyl. specialize (Hyl b Hb).
    apply negb_true_iff in Hyl.
    destruct (cmp_cotrans (key b) (key y) (key x) Hy Ebx); congruence.
Qed.

Lemma sorted_nondecreasing (l : list A) :
  forallb (fun a => is_number (key a)) l = true ->
  nondecreasing key (sorted key l) = true.
Proof.
  induction l as [|x l IH]; intros Hn; [reflexivity|].
  cbn [forallb] in Hn. apply andb_true_iff in Hn. destruct Hn as [Hx Hn].
  cbn [sorted fold_right]. apply insort_nondecreasing.
  - exact (numbers_permutation (sorted_permutation l) Hn).
  - exact (IH Hn).
Qed.

Lemma insort_stable (k : T) (x : A) (l : list A) :
  filter (fun a => feq (key a) k) (insort key x l)
  = filter (fun a => feq (key a) k) (x :: l).
Proof.
  induction l as [|y l IH]; [reflexivity|].
  simpl. destruct (flt (key y) (key x)) eqn:E; [|reflexivity].
  simpl. rewrite IH. simpl.
  destruct (feq (key x) k) eqn:Ex; destruct (feq (key y) k) eqn:Ey;
    try reflexivity.
  exfalso.
  destruct (cmp_eq_numbers _ _ Ex) as [Nx Nk].
  destruct (cmp_eq_numbers _ _ Ey) as [Ny _].
  apply (cmp_eq_incomparable _ _ Nx Nk) in Ex.
  apply (cmp_eq_incomparable _ _ Ny Nk) in Ey.
  destruct (cmp_cotrans _ k _ Nk E) as [H|H]; intuition congruence.
Qed.

Lemma sorted_stable (k : T) (l : list A) :
  filter (fun a => feq (key a) k) (sorted key l)
  = filter (fun a => feq (key a) k) l.
Proof.
  induction l as [|x l IH]; [reflexivity|].
  simpl sorted. rewrite insort_stable. simpl. now rewrite IH.
Qed.
End Sorting.

Section CatalogOrder.
Context {T : Type} {F : FloatOps T} {R : FloatRead T} {C : FloatCompare T}.

Import SubtitleParser.

(** C8 (amended): every catalog the builder returns holds the parsed
    intervals, each once.  Provided no [start] is NaN (which [float]
    reads from the spelling [nan]), the catalog is sorted ascending by
    [start]: no interval starts below one that precedes it, and intervals
    of equal [start] keep their input order.  (The builder does not
    compare [end] with [start].) *)
Theorem catalog_sorted_stable (fs : file_reader) (srt_file : string)
    (catalog : list (SubtitleSegment.t T)) :
  parse_srt_file fs srt_file = Ok catalog ->
  exists content parsed,
    _read_srt_file fs srt_file = Ok content
    /\ parse_blocks (split Config.SRT_BLOCK_DELIMITER (strip content)) []
       = Ok parsed
    /\ Permutation parsed catalog
    /\ (forallb (fun s => is_number (SubtitleSegment.start_time s)) catalog
        = true ->
        nondecreasing SubtitleSegment.start_time catalog = true
        /\ ascending SubtitleSegment.start_time catalog = true
        /\ forall k,
            filter (fun s => feq (SubtitleSegment.start_time s) k) catalog
            = filter (fun s => feq (SubtitleSegment.start_time s) k) parsed).
Proof.
  unfold parse_srt_file.
  destruct (_read_srt_file fs srt_file) as [content|e] eqn:Hread;
    [|discriminate].
  cbn [bind].
  destruct (parse_blocks (split Config.SRT_BLOCK_DELIMITER (strip content)) [])
    as [parsed|e] eqn:Hparse; [|discriminate].
  cbn [bind try_except_all]. intros H. injection H as <-.
  exists content, parsed. repeat split; auto.
  - apply sorted_permutation.
  - apply sorted_nondecreasing.
    eapply numbers_permutation; [|eassumption].
    apply Permutation_sym, sorted_permutation.
  - apply sorted_ascending.
  - intros k. apply sorted_stable.
Qed.
End CatalogOrder.

(** ** Concrete runs *)

Section Runs.
Import VideoSpeedProcessor SubtitleParser Samples.

(** The examples of the specification. *)

Example timestamp_with_comma :
  _parse_srt_time "01:02:03,456" = Ok (465432 # 125).
Proof. reflexivity. Qed.

Example timestamp_zero : _parse_srt_time "00:00:00.000" = Ok 0.
Proof. reflexivity. Qed.

Example empty_catalog :
  schedule env "in.mkv" "out.mkv" [] (1 # 2) 100 2 1
  = Ok [seg 0 100 2 false].
Proof. reflexivity. Qed.

Example single_caption :
  schedule env "in.mkv" "out.mkv" single (1 # 2) 100 2 1
  = Ok [seg 0 (19 # 2) 2 false; seg (19 # 2) (25 # 2) 1 true;
        seg (25 # 2) 100 2 false]
  /\ _print_segment_info (_create_video_segments processor single 100) 100
     = Ok (103 # 2, 97 # 2).
Proof. split; reflexivity. Qed.

Example boundary_clamp :
  schedule env "in.mkv" "out.mkv" [caption 0 1] (1 # 2) 10 2 1
  = Ok [seg 0 (3 # 2) 1 true; seg (3 # 2) 10 2 false].
Proof. reflexivity. Qed.

Example malformed_timestamp_rejected :
  parse_srt_file (T:=Q) (holding bad_srt) "track.srt"
  = Raise SubtitleExtractionError.
Proof. reflexivity. Qed.

Example unordered_track_sorted :
  parse_srt_file (holding unordered_srt) "track.srt"
  = Ok [SubtitleSegment.make 1 (5 # 2) "first";
        SubtitleSegment.make 5 7 "second line"].
Proof. reflexivity. Qed.



(** C2, counterexample: a caption starting after the end of the video has
    [paddedStart >= totalDuration]; its segment is emitted all the same,
    from 19.5 to 10. *)
Lemma late_caption_emits_inverted_segment :
  fle 10 (paddedStart processor (caption 20 30)) = true
  /\ schedule env "in.mkv" "out.mkv" late (1 # 2) 10 2 1
     = Ok [seg 0 (39 # 2) 2 false; seg (39 # 2) 10 1 true]
  /\ fle (VideoSegment.end_time (seg (39 # 2) 10 1 true))
         (VideoSegment.start_time (seg (39 # 2) 10 1 true)) = true.
Proof. repeat split; reflexivity. Qed.

Lemma empty_windows_witness :
  In (seg (39 # 2) 10 1 true) (_create_video_segments processor late 10)
  /\ flt (VideoSegment.start_time (seg (39 # 2) 10 1 true))
         (VideoSegment.end_time (seg (39 # 2) 10 1 true)) = false.
Proof.
  apply (proj2 (empty_windows_not_skipped processor 10 late)
           (seg (39 # 2) 10 1 true)).
  exists (caption 20 30).
  split; [left; reflexivity|]. split; reflexivity.
Defined.

(** C3, counterexample: the total durations 0 and -5 are accepted; the
    scheduler returns a segment list and raises nothing. *)
Lemma nonpositive_duration_accepted :
  fle 0 0 = true
  /\ schedule env "in.mkv" "out.mkv" single (1 # 2) 0 2 1
     = Ok [seg 0 (19 # 2) 2 false; seg (19 # 2) 0 1 true]
  /\ fle (-5) 0 = true
  /\ schedule (T:=Q) env "in.mkv" "out.mkv" [] (1 # 2) (-5) 2 1 = Ok [].
Proof. repeat split; reflexivity. Qed.

Lemma schedule_fails_witness :
  raises (schedule (T:=Q) env "in.mkv" "out.mkv" single (1 # 2) 100 0 1)
  /\ schedule env "in.mkv" "out.mkv" single (1 # 2) 100 2 1
     = Ok (_create_video_segments processor single 100).
Proof.
  split.
  - apply (schedule_fails_iff env "in.mkv" "out.mkv" single
             (1 # 2) 100 0 1 eq_refl eq_refl).
    left. reflexivity.
  - apply (schedule_fails_iff env "in.mkv" "out.mkv" single
             (1 # 2) 100 2 1 eq_refl eq_refl); reflexivity.
Defined.

(** In exact arithmetic too, the two overlapping windows of [close_pair]
    are both counted: at speeds 1 and 1 the estimate for a video of 10 s is
    10.5 s. *)
Example overlap_counted_twice :
  estimate (_create_video_segments even_processor close_pair 10)
  = Ok (21 # 2).
Proof. reflexivity. Qed.

(** C6, counterexample: the component [-1] parses as a negative number,
    and the timestamp is accepted with the value -3600. *)
Lemma negative_component_accepted :
  split ":" (replace "," "." "-1:00:00") = ["-1"; "00"; "00"]
  /\ float_of_str "-1" = Some (-1)
  /\ -1 < 0
  /\ _parse_srt_time "-1:00:00" = Ok (-3600).
Proof. repeat split; reflexivity. Qed.

Lemma parse_srt_time_witness :
  _parse_srt_time "01:02:03,456"
  = Ok (fadd (fadd (fmul 1 (of_int 3600)) (fmul 2 (of_int 60)))
             (432 # 125)).
Proof.
  apply (proj2 (parse_srt_time_fails_iff (T:=Q) "01:02:03,456")
           "01" "02" "03.456");
    reflexivity.
Defined.

Lemma malformed_block_witness :
  parse_srt_file (T:=Q) (holding unordered_srt) "track.srt"
  = try_except_all
      (subtitles <-
         parse_blocks
           [lines ["1"; "00:00:05,000 --> 00:00:07,000"; "second"; "line"];
            lines ["2"; "00:00:01,000 --> 00:00:02,500"; "first"]] [] ;;
       Ok (sorted SubtitleSegment.start_time subtitles))
      SubtitleExtractionError
  /\ parse_srt_file (T:=Q) (holding bad_srt) "track.srt"
     = Raise SubtitleExtractionError.
Proof.
  split.
  - apply (proj1 (malformed_block_policy (T:=Q)) (holding unordered_srt)
             "track.srt" unordered_srt
             [lines ["1"; "00:00:05,000 --> 00:00:07,000"; "second"; "line"]]
             "stray"
             [lines ["2"; "00:00:01,000 --> 00:00:02,500"; "first"]]
             eq_refl eq_refl).
    left. unfold too_short. simpl. unfold Config.MIN_SRT_LINES. lia.
  - apply (proj2 (malformed_block_policy (T:=Q)) (holding bad_srt)
             "track.srt" bad_srt
             (lines ["2"; "bad --> 00:00:02,000"; "hi"]) eq_refl).
    + simpl. auto.
    + split; [simpl; unfold Config.MIN_SRT_LINES; lia|].
      exists "bad --> 00:00:02,000", "bad", "00:00:02,000".
      repeat split. left. exists ValueError. reflexivity.
Defined.

End Runs.

(** ** Runs in binary64 arithmetic *)

Section Binary64Runs.
Import VideoSpeedProcessor Samples Binary64 PrimFloat.

(** Runs of the scheduler in binary64 arithmetic. *)

Example close_pair_binary64 :
  _create_video_segments (processor64 2 1 0.5)
    [caption64 1 3; caption64 3.5 5] 10%float
  = [seg64 0 0.5 2 false; seg64 0.5 3.5 1 true;
     seg64 3 5.5 1 true; seg64 5.5 10 2 false]
  /\ estimate (_create_video_segments (processor64 1 1 0.5)
                 [caption64 1 3; caption64 3.5 5] 10%float)
     = Ok 10.5%float.
Proof. split; reflexivity. Qed.

Example late_caption_binary64 :
  _create_video_segments (processor64 2 1 0.5) [caption64 20 30] 10%float
  = [seg64 0 19.5 2 false; seg64 19.5 10 1 true].
Proof. reflexivity. Qed.

(** Rounding: one caption from 1.0 to 1.9 in a video of 6.2 s, no padding,
    speeds 1 and 1.  The spans 1.0, 0.8999999999999999 and
    4.300000000000001 are added to 6.200000000000001. *)
Example rounding_binary64 :
  estimate (_create_video_segments (processor64 1 1 0)
              [caption64 1 0x1.e666666666666p+0]
              0x1.8cccccccccccdp+2%float)
  = Ok 0x1.8cccccccccccep+2%float
  /\ flt 0x1.8cccccccccccdp+2%float 0x1.8cccccccccccep+2%float = true.
Proof. split; reflexivity. Qed.

(** C4, counterexample, in three runs, each of which meets every condition
    of the amended claim but one.  Overlap: at speeds 1 and 1 the two
    overlapping windows of captions 1-3 and 3.5-5 are both counted, and the
    estimate for a video of 10 s is 10.5 s.  Rounding: for one caption from
    1.0 to 1.9 in a video of 6.2 s, without padding, the three spans are
    added to 6.200000000000001.  Inverted window: at speeds 1 and 2 a
    caption that starts after the end of a 10 s video gives 19.5 - 9.5 / 2
    = 14.75 s. *)
Lemma overlap_inflates_estimate :
  (catalog_invariant [caption64 1 3; caption64 3.5 5] = true
   /\ windows_disjoint (processor64 1 1 0.5) 10%float
        [caption64 1 3; caption64 3.5 5] = false
   /\ sum_exact (_create_video_segments (processor64 1 1 0.5)
                   [caption64 1 3; caption64 3.5 5] 10%float) (of_int 0)
      = true
   /\ estimate (_create_video_segments (processor64 1 1 0.5)
                  [caption64 1 3; caption64 3.5 5] 10%float)
      = Ok 10.5%float
   /\ fle 10.5%float 10%float = false)
  /\ (windows_disjoint (processor64 1 1 0) 0x1.8cccccccccccdp+2%float
        [caption64 1 0x1.e666666666666p+0] = true
      /\ sum_exact (_create_video_segments (processor64 1 1 0)
                      [caption64 1 0x1.e666666666666p+0]
                      0x1.8cccccccccccdp+2%float) (of_int 0)
         = false
      /\ estimate (_create_video_segments (processor64 1 1 0)
                     [caption64 1 0x1.e666666666666p+0]
                     0x1.8cccccccccccdp+2%float)
         = Ok 0x1.8cccccccccccep+2%float
      /\ fle 0x1.8cccccccccccep+2%float 0x1.8cccccccccccdp+2%float = false)
  /\ (windows_disjoint (processor64 1 2 0.5) 10%float [caption64 20 30] = true
      /\ windows_proper (processor64 1 2 0.5) 10%float [caption64 20 30]
         = false
      /\ sum_exact (_create_video_segments (processor64 1 2 0.5)
                      [caption64 20 30] 10%float) (of_int 0)
         = true
      /\ estimate (_create_video_segments (processor64 1 2 0.5)
                     [caption64 20 30] 10%float)
         = Ok 14.75%float
      /\ fle 14.75%float 10%float = false).
Proof. repeat split; vm_compute; reflexivity. Qed.

Lemma duration_accounting_witness :
  (exists out,
      estimate (_create_video_segments (processor64 1 1 0.5)
                  [caption64 10 12] 100%float) = Ok out
      /\ feq out 100%float = true)
  /\ (exists out,
         estimate (_create_video_segments (processor64 2 1 0.5)
                     [caption64 10 12] 100%float) = Ok out
         /\ fle out 100%float = true).
Proof.
  split.
  - destruct (@duration_accounting float _ _ _ (processor64 1 1 0.5)
                100%float [caption64 10 12]) as [H _];
      [vm_compute; reflexivity ..|].
    apply H; vm_compute; reflexivity.
  - destruct (@duration_accounting float _ _ _ (processor64 2 1 0.5)
                100%float [caption64 10 12]) as [_ H];
      [vm_compute; reflexivity ..|].
    apply H; vm_compute; reflexivity.
Defined.

(** C8, counterexample: a block whose end precedes its start is kept, and
    the returned catalog breaks [end > start]; and a timestamp whose hours
    are spelled [nan] is accepted, its start is NaN, and the catalog
    returned is not in ascending order: the start 1 follows the start 2. *)
Lemma inverted_interval_kept :
  SubtitleParser.parse_srt_file (holding inverted_srt) "track.srt"
  = Ok [titled64 5 2 "hi"]
  /\ catalog_invariant [titled64 5 2 "hi"] = false
  /\ SubtitleParser._parse_srt_time "nan:00:00" = Ok nan
  /\ SubtitleParser.parse_srt_file (holding nan_srt) "track.srt"
     = Ok [titled64 2 3 "a"; titled64 nan 5 "b"; titled64 1 1.5 "c"]
  /\ nondecreasing SubtitleSegment.start_time
       [titled64 2 3 "a"; titled64 nan 5 "b"; titled64 1 1.5 "c"] = false.
Proof. repeat split; vm_compute; reflexivity. Qed.

Lemma catalog_sorted_witness :
  nondecreasing SubtitleSegment.start_time
    [titled64 1 2.5 "first"; titled64 5 7 "second line"] = true.
Proof.
  destruct (catalog_sorted_stable (T:=float) (holding unordered_srt)
              "track.srt"
              (catalog:=[titled64 1 2.5 "first"; titled64 5 7 "second line"]))
    as (content & parsed & _ & _ & _ & H).
  - vm_compute. reflexivity.
  - apply H. vm_compute. reflexivity.
Defined.
End Binary64Runs.

(** * Further properties *)

(** ** The scheduler: size, clamping, order *)

Section SchedulerShape.
Context {T : Type} {F : FloatOps T}.

Import VideoSpeedProcessor.

Variable self : t T.
Variable D : T.

Lemma sweep_length subs :
  forall cur,
    (List.length subs <= List.length (fst (sweep self D cur subs))
     <= 2 * List.length subs)%nat.
Proof.
  induction subs as [|s rest IH]; intros cur.
  - simpl. lia.
  - rewrite sweep_fst_cons, length_app. simpl List.length.
    specialize (IH (paddedEnd self D s)).
    destruct (gap_segment_cases self cur s) as [[_ ->]|[_ ->]];
      simpl List.length; lia.
Qed.

(** X1: the scheduler returns at least one segment per catalog interval and
    at most two per interval plus one. *)
Theorem segment_count_bounds (subtitles : list (SubtitleSegment.t T)) :
  (List.length subtitles
   <= List.length (_create_video_segments self subtitles D)
   <= 2 * List.length subtitles + 1)%nat.
Proof.
  rewrite create_video_segments_sweep, length_app.
  pose proof (sweep_length subtitles (of_int 0)) as H.
  destruct (flt _ D); simpl List.length; lia.
Qed.

Lemma segments_filter (subtitles : list (SubtitleSegment.t T)) :
  filter (@VideoSegment.has_subtitle T)
         (_create_video_segments self subtitles D)
  = map (window_segment self D) subtitles.
Proof.
  rewrite create_video_segments_sweep, filter_app, sweep_filter.
  destruct (flt _ D); simpl; now rewrite app_nil_r.
Qed.

(** The with-subtitle segments of the schedule are the windows of the
    catalog. *)
Lemma subtitle_segment_window (subtitles : list (SubtitleSegment.t T)) seg :
  In seg (_create_video_segments self subtitles D)
  /\ VideoSegment.has_subtitle seg = true
  <-> exists s, In s subtitles /\ seg = window_segment self D s.
Proof.
  rewrite <- filter_In, segments_filter, in_map_iff.
  split; intros (s & H1 & H2); exists s; auto.
Qed.

Context {O : FloatOrder T}.

Lemma paddedEnd_not_beyond s : flt D (paddedEnd self D s) = false.
Proof.
  unfold paddedEnd, _calculate_subtitle_end, pymin.
  destruct (flt (fadd _ _) D) eqn:E.
  - now apply flt_asym.
  - apply flt_irrefl.
Qed.

(** X2: every with-subtitle segment is clamped to the video: its start is
    not below 0 and its end is not beyond the duration. *)
Theorem subtitle_segments_clamped (subtitles : list (SubtitleSegment.t T))
    (seg : VideoSegment.t T) :
  In seg (_create_video_segments self subtitles D) ->
  VideoSegment.has_subtitle seg = true ->
  flt (VideoSegment.start_time seg) (of_int 0) = false
  /\ flt D (VideoSegment.end_time seg) = false.
Proof.
  intros Hin Hflag.
  destruct (proj1 (subtitle_segment_window subtitles seg) (conj Hin Hflag))
    as (s & _ & ->).
  split; [apply (paddedStart_not_negative self) | apply paddedEnd_not_beyond].
Qed.
End SchedulerShape.

Section SchedulerOrder.
Import VideoSpeedProcessor.

Variable self : t Q.
Variable D : Q.


Lemma Q_paddedStart_below s :
  0 <= subtitle_buffer self -> 0 <= SubtitleSegment.start_time s ->
  paddedStart self s <= SubtitleSegment.start_time s.
Proof.
  intros Hb Hs.
  unfold paddedStart, _calculate_subtitle_start, pymax.
  change (fsub ?a ?b) with (Qred (a - b)).
  change (of_int 0) with 0.
  destruct (flt 0 (Qred _)) eqn:E; [|exact Hs].
  rewrite Qred_correct. lra.
Qed.


Lemma Q_paddedEnd_above s :
  0 <= subtitle_buffer self -> SubtitleSegment.end_time s <= D ->
  SubtitleSegment.end_time s <= paddedEnd self D s.
Proof.
  intros Hb He.
  unfold paddedEnd, _calculate_subtitle_end, pymin.
  change (fadd ?x ?y) with (Qred (x + y)).
  destruct (flt (Qred _) D) eqn:E; [|exact He].
  rewrite Qred_correct. lra.
Qed.

(** X3: a caption that lies within the video is spanned by a
    with-subtitle segment: with a buffer that is not negative, padding
    never cuts into the caption. *)
Theorem captions_spanned (subtitles : list (SubtitleSegment.t Q))
    (caption : SubtitleSegment.t Q) :
  0 <= subtitle_buffer self ->
  In caption subtitles ->
  0 <= SubtitleSegment.start_time caption ->
  SubtitleSegment.end_time caption <= D ->
  exists seg,
    In seg (_create_video_segments self subtitles D)
    /\ spans seg caption = true.
Proof.
  intros Hb Hin Hs He.
  exists (window_segment self D caption). split.
  - apply (subtitle_segment_window self D subtitles). eauto.
  - unfold spans. simpl.
    apply andb_true_iff. split; apply negb_true_iff, Q_flt_false.
    + now apply Q_paddedStart_below.
    + now apply Q_paddedEnd_above.
Qed.




End SchedulerOrder.

(** ** The estimate of [_print_segment_info] *)

Section Report.
Import VideoSpeedProcessor.

Lemma sum_output_duration_total (l : list (VideoSegment.t Q)) :
  forall acc,
    Forall (fun seg => ~ VideoSegment.speed seg == 0) l ->
    exists d, sum_output_duration l acc = Ok d.
Proof.
  induction l as [|s l IH]; intros acc Hs.
  - exists acc. reflexivity.
  - inversion Hs as [|? ? Hs1 Hs2]; subst.
    destruct (Q_output_duration s Hs1) as (x & Hx & _).
    rewrite sum_output_duration_cons, Hx. cbn [bind]. now apply IH.
Qed.

Lemma sum_output_duration_raises (l : list (VideoSegment.t Q)) :
  forall acc e,
    sum_output_duration l acc = Raise e -> e = ZeroDivisionError.
Proof.
  induction l as [|s l IH]; intros acc e H.
  - discriminate H.
  - rewrite sum_output_duration_cons in H.
    unfold VideoSegment.output_duration, truediv in H.
    destruct (feq (VideoSegment.speed s) (of_int 0)).
    + cbn [bind] in H. congruence.
    + cbn [bind] in H. eapply IH. exact H.
Qed.

(** What [_print_segment_info] returns once the sum is known. *)
Lemma print_segment_info_value (l : list (VideoSegment.t Q)) (D out : Q) :
  sum_output_duration l (of_int 0) = Ok out ->
  ~ D == 0 ->
  exists pct,
    _print_segment_info l D = Ok (out, pct)
    /\ pct == (1 - out / D) * 100.
Proof.
  intros Hsum HD. unfold _print_segment_info. rewrite Hsum. cbn [bind].
  unfold truediv. change (feq D (of_int 0)) with (Qeq_bool D 0).
  destruct (Qeq_bool D 0) eqn:E.
  - apply Qeq_bool_iff in E. contradiction.
  - cbn [bind]. eexists. split; [reflexivity|].
    change (fmul ?a ?b) with (Qred (a * b)).
    change (fsub ?a ?b) with (Qred (a - b)).
    change (fdiv ?a ?b) with (Qred (a / b)).
    rewrite !Qred_correct. reflexivity.
Qed.

(** A processor that passed [_validate_inputs] has positive speeds. *)
Lemma init_speeds_positive (env : Env) (input output : string)
    (s1 s2 buf : Q) (self : t Q) :
  __init__ env input output s1 s2 buf = Ok self ->
  0 < speed_no_subtitle self /\ 0 < speed_with_subtitle self
  /\ 0 <= subtitle_buffer self.
Proof.
  unfold __init__, _validate_inputs. cbn [input_file speed_no_subtitle
    speed_with_subtitle subtitle_buffer].
  destruct (negb (path_exists env input)); [discriminate|].
  destruct (negb (ffmpeg_is_installed env)); [discriminate|].
  destruct (fle s1 (of_int 0)) eqn:E1; [discriminate|].
  destruct (fle s2 (of_int 0)) eqn:E2; [discriminate|].
  destruct (flt buf (of_int 0)) eqn:E3; [discriminate|].
  cbn [orb bind]. intros H. injection H as <-.
  cbn [speed_no_subtitle speed_with_subtitle subtitle_buffer].
  apply Q_flt_false in E3.
  change (Qle_bool s1 0 = false) in E1. change (Qle_bool s2 0 = false) in E2.
  repeat split; try exact E3; apply Qnot_le_lt; intros H;
    apply Qle_bool_iff in H; congruence.
Qed.

Lemma segments_speed_nonzero (self : t Q) (D : Q) subs :
  0 < speed_no_subtitle self -> 0 < speed_with_subtitle self ->
  Forall (fun seg => ~ VideoSegment.speed seg == 0)
         (_create_video_segments self subs D).
Proof.
  intros H1 H2.
  eapply Forall_impl; [|apply segments_speed_matches].
  unfold speed_matches. intros seg -> E.
  destruct (VideoSegment.has_subtitle seg); rewrite E in *;
    eapply Qlt_irrefl; eassumption.
Qed.

(** X5: for a processor that passed validation, [_print_segment_info] on
    the scheduled segments fails exactly when the video duration is zero,
    and then with [ZeroDivisionError]; the sum over the segments never
    divides by zero. *)
Theorem report_fails_iff_zero_duration (env : Env) (input output : string)
    (s1 s2 buf : Q) (self : t Q) (subtitles : list (SubtitleSegment.t Q))
    (D : Q) :
  __init__ env input output s1 s2 buf = Ok self ->
  (raises (_print_segment_info (_create_video_segments self subtitles D) D)
   <-> D == 0)
  /\ (D == 0 ->
      _print_segment_info (_create_video_segments self subtitles D) D
      = Raise ZeroDivisionError).
Proof.
  intros Hinit.
  destruct (init_speeds_positive _ _ _ _ _ _ Hinit) as (H1 & H2 & _).
  destruct (sum_output_duration_total (of_int 0)
              (segments_speed_nonzero self D subtitles H1 H2)) as (out & Hout).
  assert (Hzero : D == 0 ->
                  _print_segment_info (_create_video_segments self subtitles D) D
                  = Raise ZeroDivisionError).
  { intros HD. unfold _print_segment_info. rewrite Hout. cbn [bind].
    unfold truediv. change (feq D (of_int 0)) with (Qeq_bool D 0).
    apply Qeq_bool_iff in HD. now rewrite HD. }
  split; [split|exact Hzero].
  - intros [e He].
    destruct (Qeq_dec D 0) as [HD|HD]; [exact HD|].
    destruct (print_segment_info_value _ Hout HD) as (pct & Hp & _).
    rewrite Hp in He. discriminate He.
  - intros HD. exists ZeroDivisionError. now apply Hzero.
Qed.

End Report.

Section ReportValues.
Context {T : Type} {F : FloatOps T} {V : FloatValue T} {L : FloatValueLaws T}.

Import VideoSpeedProcessor.

Variable self : t T.
Variable D : T.

(** At one speed [v] for all segments, the exact output durations add up
    to the exact spans divided by [v]. *)
Lemma qsum_equal (v : Q) (l : list (VideoSegment.t T)) :
  ~ v == 0 ->
  Forall (fun seg => qval (VideoSegment.speed seg) == v) l ->
  qsum l == qspan l / v.
Proof.
  intros Hv. induction 1 as [|seg l Hs _ IH].
  - cbn [qsum qspan]. field. exact Hv.
  - cbn [qsum qspan]. rewrite IH, Hs. field. exact Hv.
Qed.

Lemma qsum_nonnegative (l : list (VideoSegment.t T)) :
  Forall (fun seg => 1 <= qval (VideoSegment.speed seg)) l ->
  Forall (fun seg => qval (VideoSegment.start_time seg)
                     <= qval (VideoSegment.end_time seg)) l ->
  0 <= qsum l.
Proof.
  induction 1 as [|seg l Hs _ IH]; intros Hl; [apply Qle_refl|].
  inversion Hl as [|? ? Hl1 Hl2]; subst.
  cbn [qsum]. specialize (IH Hl2).
  assert (0 <= (qval (VideoSegment.end_time seg)
                - qval (VideoSegment.start_time seg))
               / qval (VideoSegment.speed seg)).
  { apply Qle_shift_div_l; lra. }
  lra.
Qed.

(** Once the sum is known, [_print_segment_info] returns it unless the
    video duration is zero. *)
Lemma print_segment_info_sum (l : list (VideoSegment.t T)) (out : T) :
  sum_output_duration l (of_int 0) = Ok out ->
  feq D (of_int 0) = false ->
  exists pct, _print_segment_info l D = Ok (out, pct).
Proof.
  intros Hsum HD. unfold _print_segment_info. rewrite Hsum. cbn [bind].
  unfold truediv. rewrite HD. cbn [bind]. eauto.
Qed.

(** X6: when both speeds are one float [s] other than zero, the padded
    windows do not overlap, [D > 0] and no operation of the sum rounds,
    the output duration that [_print_segment_info] reports has the value
    of [D] divided by the value of [s]. *)
Theorem report_equal_speeds (subtitles : list (SubtitleSegment.t T)) :
  flt (of_int 0) D = true ->
  speed_with_subtitle self = speed_no_subtitle self ->
  feq (speed_no_subtitle self) (of_int 0) = false ->
  windows_disjoint self D subtitles = true ->
  sum_exact (_create_video_segments self subtitles D) (of_int 0) = true ->
  exists out pct q d v,
    _print_segment_info (_create_video_segments self subtitles D) D
    = Ok (out, pct)
    /\ val out = Some q
    /\ val D = Some d
    /\ val (speed_no_subtitle self) = Some v
    /\ q == d / v.
Proof.
  intros HD Hsame Hnz Hdis Hex.
  assert (Hfin : Forall finite_segment
                        (_create_video_segments self subtitles D))
    by (eapply sum_exact_finite; exact Hex).
  destruct (accounting_spans self D subtitles HD Hdis Hfin)
    as (z & d & Hz & Ez & Hd & Hdpos & HD0 & Hspan).
  assert (Hsp : Forall (fun seg => VideoSegment.speed seg
                                   = speed_no_subtitle self)
                       (_create_video_segments self subtitles D)).
  { eapply Forall_impl; [|apply segments_speed_matches].
    unfold speed_matches. intros seg ->. rewrite Hsame.
    now destruct (VideoSegment.has_subtitle seg). }
  destruct (last_segment self D subtitles HD) as (last & Hin).
  rewrite Forall_forall in Hsp, Hfin.
  destruct (Hfin last Hin) as (_ & _ & Hv). rewrite (Hsp last Hin) in Hv.
  destruct (val (speed_no_subtitle self)) as [v|] eqn:Hvv; [|congruence].
  assert (Hv0 : ~ v == 0).
  { intros E. assert (E' : v == z) by lra.
    apply (val_eq _ _ Hvv Hz) in E'. congruence. }
  assert (Hnonzero :
            Forall (fun seg => feq (VideoSegment.speed seg) (of_int 0) = false)
                   (_create_video_segments self subtitles D)).
  { apply Forall_forall. intros seg Hseg. now rewrite (Hsp seg Hseg). }
  destruct (sum_exact_value _ Hex Hz Hnonzero)
    as (out & q & Hsum & Hq & Eq).
  destruct (print_segment_info_sum _ Hsum HD0) as (pct & Hp).
  exists out, pct, q, d, v. repeat split; try assumption.
  rewrite Eq, (@qsum_equal v), Hspan, Ez; [field; exact Hv0 | exact Hv0 |].
  apply Forall_forall. intros seg Hseg.
  rewrite (Hsp seg Hseg). unfold qval. rewrite Hvv. reflexivity.
Qed.

(** X7: when both speeds are at least 1, the padded windows neither
    overlap nor are inverted, [D > 0] and no operation of the sum rounds,
    the output duration that [_print_segment_info] reports lies between 0
    and [D]. *)
Theorem report_within_bounds (subtitles : list (SubtitleSegment.t T)) :
  flt (of_int 0) D = true ->
  fle (of_int 1) (speed_no_subtitle self) = true ->
  fle (of_int 1) (speed_with_subtitle self) = true ->
  windows_disjoint self D subtitles = true ->
  windows_proper self D subtitles = true ->
  sum_exact (_create_video_segments self subtitles D) (of_int 0) = true ->
  exists out pct,
    _print_segment_info (_create_video_segments self subtitles D) D
    = Ok (out, pct)
    /\ fle (of_int 0) out = true
    /\ fle out D = true.
Proof.
  intros HD H1 H2 Hdis Hp Hex.
  assert (Hfin : Forall finite_segment
                        (_create_video_segments self subtitles D))
    by (eapply sum_exact_finite; exact Hex).
  destruct (accounting_spans self D subtitles HD Hdis Hfin)
    as (z & d & Hz & Ez & Hd & Hdpos & HD0 & Hspan).
  assert (Hsp : Forall (fun seg =>
                          1 <= qval (VideoSegment.speed seg)
                          /\ feq (VideoSegment.speed seg) (of_int 0) = false)
                       (_create_video_segments self subtitles D)).
  { apply (segments_speeds self D
             (fun s => 1 <= qval s /\ feq s (of_int 0) = false)
             subtitles Hfin).
    - intros Hv. now apply fast_speed.
    - intros Hv. now apply fast_speed. }
  assert (Hnonzero :
            Forall (fun seg => feq (VideoSegment.speed seg) (of_int 0) = false)
                   (_create_video_segments self subtitles D)).
  { eapply Forall_impl; [|exact Hsp]. intros seg Hseg. exact (proj2 Hseg). }
  destruct (sum_exact_value _ Hex Hz Hnonzero)
    as (out & q & Hsum & Hq & Eq).
  destruct (print_segment_info_sum _ Hsum HD0) as (pct & Hpct).
  assert (Hfast : Forall (fun seg => 1 <= qval (VideoSegment.speed seg))
                         (_create_video_segments self subtitles D)).
  { eapply Forall_impl; [|exact Hsp]. intros seg Hseg. exact (proj1 Hseg). }
  assert (Hlen : Forall (fun seg => qval (VideoSegment.start_time seg)
                                    <= qval (VideoSegment.end_time seg))
                        (_create_video_segments self subtitles D))
    by (now apply segments_not_inverted).
  pose proof (qsum_fast Hfast Hlen) as Hup.
  pose proof (qsum_nonnegative Hfast Hlen) as Hlow.
  exists out, pct. split; [exact Hpct|]. split.
  - apply (val_le _ _ Hz Hq). lra.
  - apply (val_le _ _ Hq Hd). lra.
Qed.
End ReportValues.

(** ** The parser: separators, empty files, order, text, size *)

Section ParserFacts.
Context {T : Type} {F : FloatOps T} {R : FloatRead T}.

Import SubtitleParser.

Lemma replace_idempotent (old new : ascii) (s : string) :
  old <> new -> replace old new (replace old new s) = replace old new s.
Proof.
  intros Hne. induction s as [|c s IH]; [reflexivity|].
  simpl. rewrite IH. f_equal.
  destruct (Ascii.eqb c old) eqn:E.
  - destruct (Ascii.eqb new old) eqn:E'; [|reflexivity].
    apply Ascii.eqb_eq in E'. congruence.
  - now rewrite E.
Qed.

Lemma replace_after_inverse (a b : ascii) (s : string) :
  replace a b (replace b a s) = replace a b s.
Proof.
  induction s as [|c s IH]; [reflexivity|].
  simpl. rewrite IH. f_equal.
  destruct (Ascii.eqb c b) eqn:E.
  - rewrite Ascii.eqb_refl. apply Ascii.eqb_eq in E. subst c.
    now destruct (Ascii.eqb b a).
  - reflexivity.
Qed.

(** X8: the comma and the dot are interchangeable in a timestamp: writing
    every dot as a comma, or every comma as a dot, leaves the outcome of
    [_parse_srt_time] unchanged. *)
Theorem comma_and_dot_interchangeable (time_str : string) :
  _parse_srt_time (T:=T) (replace "." "," time_str)
  = _parse_srt_time time_str
  /\ _parse_srt_time (T:=T) (replace "," "." time_str)
     = _parse_srt_time time_str.
Proof.
  unfold _parse_srt_time. split.
  - now rewrite replace_after_inverse.
  - rewrite replace_idempotent; [reflexivity | discriminate].
Qed.

Lemma lstrip_all_space (s : string) : all_space s = true -> lstrip s = "".
Proof.
  induction s as [|c s IH]; [reflexivity|].
  simpl. intros H. apply andb_true_iff in H. destruct H as [Hc Hs].
  rewrite Hc. now apply IH.
Qed.

(** X9: a subtitle file that holds nothing but whitespace has the empty
    catalog; it is not an error. *)
Theorem blank_file_empty_catalog (fs : file_reader)
    (srt_file content : string) :
  _read_srt_file fs srt_file = Ok content ->
  all_space content = true ->
  parse_srt_file (T:=T) fs srt_file = Ok [].
Proof.
  intros Hread Hblank. unfold parse_srt_file, strip.
  rewrite Hread. cbn [bind]. rewrite (lstrip_all_space _ Hblank).
  reflexivity.
Qed.

Lemma sorted_of_ascending {A : Type} (key : A -> T) (l : list A) :
  ascending key l = true -> sorted key l = l.
Proof.
  induction l as [|x l IH]; intros H; [reflexivity|].
  assert (Hl : ascending key l = true).
  { destruct l; [reflexivity|]. simpl in H.
    apply andb_true_iff in H. tauto. }
  simpl. rewrite (IH Hl).
  destruct l as [|y l]; [reflexivity|].
  simpl in H. apply andb_true_iff in H. destruct H as [H _].
  apply negb_true_iff in H. simpl. now rewrite H.
Qed.

(** X10: a track whose intervals already ascend by start is returned in
    file order. *)
Theorem ordered_track_unchanged (fs : file_reader)
    (srt_file content : string) (parsed : list (SubtitleSegment.t T)) :
  _read_srt_file fs srt_file = Ok content ->
  parse_blocks (split Config.SRT_BLOCK_DELIMITER (strip content)) []
  = Ok parsed ->
  ascending SubtitleSegment.start_time parsed = true ->
  parse_srt_file fs srt_file = Ok parsed.
Proof.
  intros Hread Hparse Hasc. unfold parse_srt_file.
  rewrite Hread. cbn [bind]. rewrite Hparse. cbn [bind try_except_all].
  now rewrite sorted_of_ascending.
Qed.

(** *** Lines and text *)

Lemma lacks_char_append c (a b : string) :
  lacks_char c (a ++ b)%string = lacks_char c a && lacks_char c b.
Proof.
  induction a as [|x a IH]; [reflexivity|].
  simpl. now rewrite IH, andb_assoc.
Qed.

Lemma lacks_char_rev_string c (s acc : string) :
  lacks_char c (rev_string acc s) = lacks_char c acc && lacks_char c s.
Proof.
  revert acc. induction s as [|x s IH]; intros acc; simpl.
  - now rewrite andb_true_r.
  - rewrite IH. simpl.
    destruct (Ascii.eqb x c), (lacks_char c acc), (lacks_char c s);
      reflexivity.
Qed.

Lemma prefix_single (c a : ascii) (s : string) :
  String.prefix (String c "") (String a s) = Ascii.eqb a c.
Proof.
  simpl. destruct (ascii_dec c a) as [->|Hne].
  - rewrite Ascii.eqb_refl. now destruct s.
  - symmetry. apply Ascii.eqb_neq. congruence.
Qed.

(** The pieces of a split at a one-character separator do not contain
    it. *)
Lemma split_from_single c (s : string) :
  forall cur,
    lacks_char c cur = true ->
    Forall (fun piece => lacks_char c piece = true)
           (split_from (String c "") 0 cur s).
Proof.
  induction s as [|a s IH]; intros cur Hcur.
  - simpl. constructor; [|constructor].
    now rewrite lacks_char_rev_string, Hcur.
  - cbn [split_from]. rewrite prefix_single.
    destruct (Ascii.eqb a c) eqn:E.
    + constructor.
      * now rewrite lacks_char_rev_string, Hcur.
      * apply IH. reflexivity.
    + apply IH. simpl. now rewrite E, Hcur.
Qed.

Lemma join_lacks_char c (sep : string) (l : list string) :
  lacks_char c sep = true ->
  Forall (fun piece => lacks_char c piece = true) l ->
  lacks_char c (join sep l) = true.
Proof.
  intros Hsep Hl. unfold join.
  induction Hl as [|x l Hx Hl IH]; [reflexivity|].
  destruct l as [|y l]; [exact Hx|].
  change (String.concat sep (x :: y :: l))
    with (x ++ sep ++ String.concat sep (y :: l))%string.
  now rewrite !lacks_char_append, Hx, Hsep, IH.
Qed.

Lemma Forall_skipn {A : Type} (P : A -> Prop) (n : nat) (l : list A) :
  Forall P l -> Forall P (skipn n l).
Proof.
  revert l. induction n as [|n IH]; intros l H; [exact H|].
  destruct H; [constructor | now apply IH].
Qed.

Lemma parse_srt_block_text (block : string) (sub : SubtitleSegment.t T) :
  _parse_srt_block block = Ok (Some sub) ->
  lacks_char line_feed (SubtitleSegment.text sub) = true.
Proof.
  unfold _parse_srt_block.
  destruct (List.length (split newline block) <? Config.MIN_SRT_LINES)%nat;
    [discriminate|].
  destruct (getitem (split newline block) 1) as [tl|e]; [|discriminate].
  cbn [bind].
  destruct (negb (contains Config.SRT_TIME_DELIMITER tl)); [discriminate|].
  destruct (split Config.SRT_TIME_DELIMITER tl) as [|a [|b [|c parts]]];
    try discriminate.
  destruct (_parse_srt_time (strip a)) as [x|e1];
    [|cbn [bind try_except]; destruct (existsb _ _); discriminate].
  destruct (_parse_srt_time (strip b)) as [y|e2];
    [|cbn [bind try_except]; destruct (existsb _ _); discriminate].
  cbn [bind try_except]. intros H. injection H as <-.
  cbn [SubtitleSegment.text].
  apply join_lacks_char; [reflexivity|].
  apply (@Forall_skipn string _ 2 (split newline block)).
  apply (split_from_single line_feed). reflexivity.
Qed.

Lemma parse_blocks_Forall (P : SubtitleSegment.t T -> Prop)
    (blocks : list string) :
  (forall block sub, _parse_srt_block block = Ok (Some sub) -> P sub) ->
  forall subtitles parsed,
    Forall P subtitles ->
    parse_blocks blocks subtitles = Ok parsed ->
    Forall P parsed.
Proof.
  intros HP. induction blocks as [|b blocks IH]; intros subtitles parsed Hs H.
  - injection H as <-. exact Hs.
  - simpl in H.
    destruct (_parse_srt_block (strip b)) as [[sub|]|e] eqn:Eb;
      cbn [bind] in H; try discriminate.
    + eapply IH; [|exact H]. apply Forall_app. split; [exact Hs|].
      constructor; [|constructor]. eapply HP. exact Eb.
    + eapply IH; eassumption.
Qed.

Lemma parse_srt_file_inv (fs : file_reader) (srt_file : string)
    (catalog : list (SubtitleSegment.t T)) :
  parse_srt_file fs srt_file = Ok catalog ->
  exists content parsed,
    _read_srt_file fs srt_file = Ok content
    /\ parse_blocks (split Config.SRT_BLOCK_DELIMITER (strip content)) []
       = Ok parsed
    /\ catalog = sorted SubtitleSegment.start_time parsed.
Proof.
  unfold parse_srt_file.
  destruct (_read_srt_file fs srt_file) as [content|e]; [|discriminate].
  cbn [bind].
  destruct (parse_blocks (split Config.SRT_BLOCK_DELIMITER (strip content)) [])
    as [parsed|e] eqn:Hp; [|discriminate].
  cbn [bind try_except_all]. intros H. injection H as <-.
  exists content, parsed. repeat split. exact Hp.
Qed.

(** X11: no caption text of a returned catalog contains a line feed: the
    lines of a caption are joined by single spaces. *)
Theorem caption_text_single_line (fs : file_reader) (srt_file : string)
    (catalog : list (SubtitleSegment.t T)) :
  parse_srt_file fs srt_file = Ok catalog ->
  Forall (fun sub => lacks_char line_feed (SubtitleSegment.text sub) = true)
         catalog.
Proof.
  intros H. destruct (parse_srt_file_inv _ _ H) as (content & parsed & _ & Hp & ->).
  eapply Permutation_Forall; [apply sorted_permutation|].
  eapply parse_blocks_Forall; [|constructor|exact Hp].
  intros block sub. apply parse_srt_block_text.
Qed.

(** *** Size *)

Lemma parse_srt_block_shape (block : string) :
  match _parse_srt_block (T:=T) block with
  | Ok (Some _) => well_shaped block = true
  | Ok None => well_shaped block = false
  | Raise _ => well_shaped block = true
  end.
Proof.
  unfold _parse_srt_block, well_shaped.
  destruct (List.length (split newline block) <? Config.MIN_SRT_LINES)%nat
    eqn:Hlen.
  - apply Nat.ltb_lt in Hlen.
    apply andb_false_iff. left. apply Nat.leb_gt. exact Hlen.
  - destruct (getitem_timing_line _ Hlen) as (tl & Htl & ->). cbn [bind].
    apply Nat.ltb_ge in Hlen. apply Nat.leb_le in Hlen. rewrite Hlen.
    assert (Hnth : nth 1 (split newline block) ""%string = tl).
    { destruct (split newline block) as [|l0 [|l1 ls]]; try discriminate Htl.
      simpl in Htl. injection Htl as ->. reflexivity. }
    rewrite Hnth. cbn [andb].
    destruct (contains Config.SRT_TIME_DELIMITER tl); [|reflexivity].
    cbn [negb].
    destruct (try_except _ _ _) as [[sub|]|e] eqn:E; try reflexivity.
    exfalso.
    destruct (split Config.SRT_TIME_DELIMITER tl) as [|a [|b [|c parts]]];
      try discriminate E.
    destruct (_parse_srt_time (strip a)) as [x|e1];
      [|cbn [bind try_except] in E; destruct (existsb _ _); discriminate E].
    destruct (_parse_srt_time (strip b)) as [y|e2]; cbn [bind try_except] in E;
      [discriminate E | destruct (existsb _ _); discriminate E].
Qed.

Lemma parse_blocks_length (blocks : list string) :
  forall subtitles parsed,
    parse_blocks (T:=T) blocks subtitles = Ok parsed ->
    List.length parsed
    = (List.length subtitles
       + List.length (filter (fun b => well_shaped (strip b)) blocks))%nat.
Proof.
  induction blocks as [|b blocks IH]; intros subtitles parsed H.
  - injection H as <-. simpl. lia.
  - simpl in H. pose proof (parse_srt_block_shape (strip b)) as Hshape.
    destruct (_parse_srt_block (strip b)) as [[sub|]|e]; cbn [bind] in H;
      try discriminate; simpl; rewrite Hshape.
    + rewrite (IH _ _ H), length_app. simpl. lia.
    + exact (IH _ _ H).
Qed.

(** X12: the returned catalog holds exactly one interval for each block
    that has at least three lines and [" --> "] in its second line. *)
Theorem catalog_size (fs : file_reader) (srt_file content : string)
    (catalog : list (SubtitleSegment.t T)) :
  _read_srt_file fs srt_file = Ok content ->
  parse_srt_file fs srt_file = Ok catalog ->
  List.length catalog
  = List.length
      (filter (fun block => well_shaped (strip block))
              (split Config.SRT_BLOCK_DELIMITER (strip content))).
Proof.
  intros Hread H.
  destruct (parse_srt_file_inv _ _ H) as (content' & parsed & Hread' & Hp & ->).
  rewrite Hread in Hread'. injection Hread' as <-.
  rewrite <- (Permutation_length (sorted_permutation _ parsed)).
  now rewrite (parse_blocks_length _ _ Hp).
Qed.
End ParserFacts.

(** ** The command line and the constructor *)

Section CommandLine.
Context {T : Type} {F : FloatOps T}.

Import VideoSpeedProcessor ArgumentParser.

(** X13: [validate_arguments] and the constructor reject the same speeds
    and buffers.  Arguments that pass [validate_arguments] never make the
    constructor raise [ValidationError]; arguments that fail it make the
    constructor fail as well, whatever the environment. *)
Theorem validation_agrees (env : Env) (args : Namespace T) :
  (validate_arguments args = Ok tt ->
   forall e,
     __init__ env (input args) (output args) (speed_no_sub args)
              (speed_with_sub args) (buffer args) = Raise e ->
     e = FileNotFoundError \/ e = RuntimeError)
  /\ (raises (validate_arguments args) ->
      validate_arguments args = Raise ValidationError
      /\ raises (__init__ env (input args) (output args) (speed_no_sub args)
                          (speed_with_sub args) (buffer args))).
Proof.
  unfold validate_arguments, __init__, _validate_inputs, raises.
  cbn [input_file speed_no_subtitle speed_with_subtitle subtitle_buffer].
  destruct (fle (speed_no_sub args) (of_int 0) || fle (speed_with_sub args) (of_int 0));
    destruct (flt (buffer args) (of_int 0));
    destruct (negb (path_exists env (input args)));
    destruct (negb (ffmpeg_is_installed env)); cbn [bind];
    (split; [intros H e He; try discriminate H; try discriminate He;
             injection He as <-; auto
            | intros [e He]; try discriminate He; split; eauto]).
Qed.
End CommandLine.

(** ** The single-file version and the package *)

Section LegacyAgreement.
Context {T : Type} {F : FloatOps T} {R : FloatRead T}.

Import SubtitleParser.

(** X14: the scheduler of [main.py] and the scheduler of
    [src/processor.py] return the same segments on every input. *)
Theorem legacy_scheduler_agrees (self : VideoSpeedProcessor.t T)
    (subtitles : list (SubtitleSegment.t T)) (video_duration : T) :
  Legacy._create_video_segments self subtitles video_duration
  = VideoSpeedProcessor._create_video_segments self subtitles video_duration.
Proof.
  unfold Legacy._create_video_segments,
    VideoSpeedProcessor._create_video_segments.
  assert (E : forall subs st,
             fold_left (Legacy.segment_step self video_duration) subs st
             = fold_left (VideoSpeedProcessor.segment_step self video_duration)
                         subs st).
  { induction subs as [|s rest IH]; intros st; [reflexivity|].
    cbn [fold_left]. rewrite IH. reflexivity. }
  now rewrite E.
Qed.

Lemma parse_srt_time_ok_inv (time_str : string) (x : T) :
  _parse_srt_time time_str = Ok x ->
  exists p0 p1 p2 h m s,
    split ":" (replace "," "." time_str) = [p0; p1; p2]
    /\ float_of_str p0 = Some h
    /\ float_of_str p1 = Some m
    /\ float_of_str p2 = Some s
    /\ x = fadd (fadd (fmul h (of_int 3600)) (fmul m (of_int 60))) s.
Proof.
  unfold _parse_srt_time.
  destruct (split ":" (replace "," "." time_str))
    as [|p0 [|p1 [|p2 [|p3 parts]]]]; simpl; try discriminate.
  unfold float.
  destruct (float_of_str p0) as [h|] eqn:H0; simpl; [|discriminate].
  destruct (float_of_str p1) as [m|] eqn:H1; simpl; [|discriminate].
  destruct (float_of_str p2) as [s|] eqn:H2; simpl; [|discriminate].
  intros H. injection H as <-.
  exists p0, p1, p2, h, m, s. repeat split; assumption.
Qed.

Lemma legacy_parse_time_of_ok (time_str : string) (x : T) :
  _parse_srt_time time_str = Ok x -> Legacy._parse_time time_str = Ok x.
Proof.
  intros H.
  destruct (parse_srt_time_ok_inv _ H)
    as (p0 & p1 & p2 & h & m & s & Hs & H0 & H1 & H2 & ->).
  unfold Legacy._parse_time. rewrite Hs. simpl.
  unfold float. now rewrite H0, H1, H2.
Qed.

(** X15: the timestamp parser of [main.py] returns what [_parse_srt_time]
    returns wherever the latter succeeds; it succeeds on more inputs only
    in that it ignores components after the third. *)
Theorem legacy_parse_time_agrees (time_str : string) :
  (forall x : T,
      _parse_srt_time time_str = Ok x -> Legacy._parse_time time_str = Ok x)
  /\ (forall x : T,
         Legacy._parse_time time_str = Ok x ->
         _parse_srt_time time_str = Ok x
         \/ (3 < List.length (split ":" (replace "," "." time_str)))%nat).
Proof.
  split; [intros x; apply legacy_parse_time_of_ok|].
  intros x. unfold Legacy._parse_time, _parse_srt_time.
  destruct (split ":" (replace "," "." time_str))
    as [|p0 [|p1 [|p2 [|p3 parts]]]]; simpl.
  - discriminate.
  - destruct (float p0); simpl; discriminate.
  - destruct (float p0); simpl; [|discriminate].
    destruct (float p1); simpl; discriminate.
  - intros H. left. revert H. unfold float.
    destruct (float_of_str p0); simpl; [|discriminate].
    destruct (float_of_str p1); simpl; [|discriminate].
    destruct (float_of_str p2); simpl; [|discriminate].
    auto.
  - intros _. right. lia.
Qed.

Lemma parse_srt_block_some_inv (block : string) (sub : SubtitleSegment.t T) :
  _parse_srt_block block = Ok (Some sub) ->
  (3 <=? List.length (split newline block))%nat = true
  /\ exists tl a b x y,
      getitem (split newline block) 1 = Ok tl
      /\ split " --> " tl = [a; b]
      /\ _parse_srt_time (strip a) = Ok x
      /\ _parse_srt_time (strip b) = Ok y
      /\ sub = SubtitleSegment.make x y
                 (join " " (skipn 2 (split newline block))).
Proof.
  unfold _parse_srt_block.
  destruct (List.length (split newline block) <? Config.MIN_SRT_LINES)%nat
    eqn:Hlen; [discriminate|].
  apply Nat.ltb_ge in Hlen. apply Nat.leb_le in Hlen.
  destruct (getitem (split newline block) 1) as [tl|e] eqn:Etl;
    [|discriminate].
  cbn [bind].
  destruct (negb (contains Config.SRT_TIME_DELIMITER tl)); [discriminate|].
  change Config.SRT_TIME_DELIMITER with " --> "%string.
  destruct (split " --> " tl) as [|a [|b [|c parts]]] eqn:Es;
    try discriminate.
  destruct (_parse_srt_time (strip a)) as [x|e1] eqn:Ea;
    [|cbn [bind try_except]; destruct (existsb _ _); discriminate].
  destruct (_parse_srt_time (strip b)) as [y|e2] eqn:Eb;
    [|cbn [bind try_except]; destruct (existsb _ _); discriminate].
  cbn [bind try_except]. intros H. injection H as <-.
  split; [exact Hlen|].
  exists tl, a, b, x, y. repeat split; assumption.
Qed.

Lemma legacy_parse_blocks_agree (blocks : list string) :
  (forall block,
      In block blocks ->
      (3 <=? List.length (split newline (strip block)))%nat = true ->
      well_shaped (strip block) = true) ->
  forall subtitles parsed,
    parse_blocks (T:=T) blocks subtitles = Ok parsed ->
    Legacy.parse_blocks blocks subtitles = Ok parsed.
Proof.
  induction blocks as [|b blocks IH]; intros Hshape subtitles parsed H.
  - exact H.
  - assert (Hrest : forall block,
               In block blocks ->
               (3 <=? List.length (split newline (strip block)))%nat = true ->
               well_shaped (strip block) = true).
    { intros block Hin. apply Hshape. now right. }
    simpl in H. cbn [Legacy.parse_blocks].
    pose proof (parse_srt_block_shape (T:=T) (strip b)) as Hs.
    destruct (_parse_srt_block (strip b)) as [[sub|]|e] eqn:Eb;
      cbn [bind] in H; try discriminate.
    + destruct (parse_srt_block_some_inv _ Eb)
        as (Hlen & tl & a & c & x & y & Etl & Es & Ea & Ec & ->).
      rewrite Hlen, Etl. cbn [bind]. rewrite Es.
      rewrite (legacy_parse_time_of_ok _ Ea), (legacy_parse_time_of_ok _ Ec).
      cbn [bind]. now apply IH.
    + destruct (3 <=? List.length (split newline (strip b)))%nat eqn:Hlen.
      * rewrite (Hshape b (or_introl eq_refl) Hlen) in Hs. discriminate Hs.
      * now apply IH.
Qed.

(** X16: on a file readable as [utf-8-sig] in which no block of three or
    more lines lacks [" --> "], the catalog builder of [main.py] returns
    every catalog that [parse_srt_file] returns. *)
Theorem legacy_parse_srt_agrees (fs : file_reader)
    (srt_file content : string) (catalog : list (SubtitleSegment.t T)) :
  fs srt_file "utf-8-sig"%string = Ok content ->
  (forall block,
      In block (split Config.SRT_BLOCK_DELIMITER (strip content)) ->
      (3 <=? List.length (split newline (strip block)))%nat = true ->
      well_shaped (strip block) = true) ->
  parse_srt_file fs srt_file = Ok catalog ->
  Legacy._parse_srt fs srt_file = Ok catalog.
Proof.
  intros Hread Hshape H.
  assert (Hread' : _read_srt_file fs srt_file = Ok content).
  { unfold _read_srt_file.
    change Config.ENCODING_UTF8_SIG with "utf-8-sig"%string.
    now rewrite Hread. }
  destruct (parse_srt_file_inv _ _ H) as (content' & parsed & Hr & Hp & ->).
  rewrite Hread' in Hr. injection Hr as <-.
  unfold Legacy._parse_srt. rewrite Hread. cbn [bind].
  change (String "010" (String "010" "")) with Config.SRT_BLOCK_DELIMITER.
  now rewrite (legacy_parse_blocks_agree _ Hshape _ Hp).
Qed.
End LegacyAgreement.

(** ** Rendering: file names, calls, the concat list *)

Section RenderingFacts.
Import Rendering.

Lemma append_cancel_l (a b c : string) :
  (a ++ b)%string = (a ++ c)%string -> b = c.
Proof.
  induction a as [|x a IH]; simpl; intros H; [exact H|].
  injection H as H. now apply IH.
Qed.

Lemma length_append (a b : string) :
  String.length (a ++ b)%string = (String.length a + String.length b)%nat.
Proof.
  induction a as [|x a IH]; simpl; [reflexivity | now rewrite IH].
Qed.

Lemma append_cancel_r (c a b : string) :
  (a ++ c)%string = (b ++ c)%string -> a = b.
Proof.
  revert b. induction a as [|x a IH]; intros [|y b] H.
  - reflexivity.
  - apply (f_equal String.length) in H. simpl in H.
    rewrite length_append in H. lia.
  - apply (f_equal String.length) in H. simpl in H.
    rewrite length_append in H. lia.
  - simpl in H. injection H as -> H. f_equal. now apply IH.
Qed.

Lemma uint_of_string_zeros (k : nat) (digits : string) (u : Decimal.uint) :
  NilEmpty.uint_of_string digits = Some u ->
  exists u',
    NilEmpty.uint_of_string (zeros k ++ digits)%string = Some u'
    /\ Nat.of_uint u' = Nat.of_uint u.
Proof.
  intros H. induction k as [|k (u' & Hu' & E)].
  - exists u. auto.
  - exists (Decimal.D0 u'). simpl. rewrite Hu'. split; [reflexivity|].
    rewrite <- E. reflexivity.
Qed.

(** The number a formatted index denotes is the index. *)
Lemma format_04d_value (i : nat) :
  option_map Nat.of_uint (NilEmpty.uint_of_string (format_04d i)) = Some i.
Proof.
  unfold format_04d.
  destruct (@uint_of_string_zeros
              (4 - String.length (NilEmpty.string_of_uint (Nat.to_uint i)))
              _ _ (NilEmpty.usu (Nat.to_uint i))) as (u' & Hu' & E).
  rewrite Hu'. simpl. now rewrite E, Unsigned.of_to.
Qed.

Lemma format_04d_injective (i j : nat) : format_04d i = format_04d j -> i = j.
Proof.
  intros H. pose proof (format_04d_value i) as Hi.
  rewrite H, format_04d_value in Hi. now injection Hi.
Qed.

Lemma segment_path_injective (temp_path : string) :
  Injective (fun i => path_join temp_path (SEGMENT_FILENAME_FORMAT_format i)).
Proof.
  intros i j H. unfold path_join, SEGMENT_FILENAME_FORMAT_format in H.
  apply append_cancel_l, append_cancel_l, append_cancel_l in H.
  apply append_cancel_r in H. now apply format_04d_injective.
Qed.

(** X17: two segment files have the same name exactly when they have the
    same index, so that no segment overwrites the file of another. *)
Theorem segment_filenames_distinct (i j : nat) :
  SEGMENT_FILENAME_FORMAT_format i = SEGMENT_FILENAME_FORMAT_format j
  <-> i = j.
Proof.
  split; [|now intros ->].
  unfold SEGMENT_FILENAME_FORMAT_format. intros H.
  apply append_cancel_l, append_cancel_r in H.
  now apply format_04d_injective.
Qed.

Lemma lacks_char_fold (c : ascii) (files : list string) :
  Forall (fun file => lacks_char c file = true) files ->
  lacks_char c "file '" = true ->
  lacks_char c "'\n" = true ->
  forall written,
    lacks_char c written = true ->
    lacks_char c (_write_concat_file written files) = true.
Proof.
  intros Hfiles H1 H2. unfold _write_concat_file.
  induction Hfiles as [|file files Hfile _ IH]; intros written Hw;
    [exact Hw|].
  cbn [fold_left]. apply IH. unfold concat_entry.
  now rewrite !lacks_char_append, Hw, H1, Hfile, H2.
Qed.

Lemma append_empty_r (s : string) : (s ++ "")%string = s.
Proof. induction s as [|x s IH]; simpl; [reflexivity | now rewrite IH]. Qed.

Lemma append_assoc (a b c : string) :
  ((a ++ b) ++ c)%string = (a ++ (b ++ c))%string.
Proof. induction a as [|x a IH]; simpl; [reflexivity | now rewrite IH]. Qed.

Lemma concat_empty_cons (x : string) (l : list string) :
  String.concat "" (x :: l) = (x ++ String.concat "" l)%string.
Proof.
  destruct l as [|y l]; simpl; [now rewrite append_empty_r | reflexivity].
Qed.

Lemma write_concat_file_text (files : list string) :
  forall written,
    _write_concat_file written files
    = (written ++ String.concat "" (map concat_entry files))%string.
Proof.
  unfold _write_concat_file.
  induction files as [|file files IH]; intros written.
  - simpl. now rewrite append_empty_r.
  - cbn [fold_left map]. now rewrite IH, concat_empty_cons, append_assoc.
Qed.

(** X18: [_write_concat_file] appends one entry per segment file, in
    order, and nothing else; the entries end in a backslash and the letter
    n, so the text written holds no line feed unless a path or the text
    already in the file does. *)
Theorem concat_list_single_line (file_handle : string)
    (segment_files : list string) :
  _write_concat_file file_handle segment_files
  = (file_handle
     ++ String.concat "" (map (fun segment => "file '" ++ segment ++ "'\n")
                              segment_files))%string
  /\ (lacks_char line_feed file_handle = true ->
      Forall (fun segment => lacks_char line_feed segment = true)
             segment_files ->
      lacks_char line_feed (_write_concat_file file_handle segment_files)
      = true).
Proof.
  split.
  - apply write_concat_file_text.
  - intros Hh Hf. now apply lacks_char_fold.
Qed.
End RenderingFacts.

Section RenderingCalls.
Context {T : Type} {F : FloatOps T}.

Import Rendering.

Variable self : VideoSpeedProcessor.t T.
Variable render : renderer T.
Variable temp_path : string.

Lemma calls_for_snoc (done : list (VideoSegment.t T)) segment :
  forall i,
    calls_for self temp_path i (done ++ [segment])
    = calls_for self temp_path i done
      ++ [call_for self temp_path (i + List.length done) segment].
Proof.
  induction done as [|x done IH]; intros i; simpl.
  - now rewrite Nat.add_0_r.
  - rewrite IH. now rewrite Nat.add_succ_r.
Qed.

Lemma process_segments_from_ok (segments : list (VideoSegment.t T)) :
  forall i segment_files calls files calls',
    process_segments_from self render temp_path i segments segment_files calls
    = (Ok files, calls') ->
    files
    = segment_files
      ++ map (fun k => path_join temp_path (SEGMENT_FILENAME_FORMAT_format k))
             (seq i (List.length segments))
    /\ calls' = calls ++ calls_for self temp_path i segments.
Proof.
  induction segments as [|segment rest IH];
    intros i segment_files calls files calls' H.
  - simpl in H. injection H as <- <-. now rewrite !app_nil_r.
  - cbn [process_segments_from _process_single_segment] in H.
    destruct (render calls _) as [[]|e]; [|discriminate].
    apply IH in H. destruct H as [-> ->].
    cbn [List.length seq map calls_for]. rewrite <- !app_assoc.
    split; reflexivity.
Qed.

Lemma process_segments_from_raise (segments : list (VideoSegment.t T)) :
  forall i segment_files calls e calls',
    process_segments_from self render temp_path i segments segment_files calls
    = (Raise e, calls') ->
    exists done segment rest,
      segments = done ++ segment :: rest
      /\ calls' = calls ++ calls_for self temp_path i (done ++ [segment])
      /\ render (calls ++ calls_for self temp_path i done)
                (call_for self temp_path (i + List.length done) segment)
         = Raise e
      /\ all_rendered self render temp_path i done calls = true.
Proof.
  induction segments as [|segment rest IH];
    intros i segment_files calls e calls' H.
  - discriminate H.
  - cbn [process_segments_from _process_single_segment] in H.
    destruct (render calls _) as [[]|e'] eqn:Er.
    + apply IH in H.
      destruct H as (done & seg & rest' & -> & -> & Hr & Hall).
      exists (segment :: done), seg, rest'. repeat split.
      * cbn [app calls_for]. now rewrite <- app_assoc.
      * cbn [calls_for List.length]. rewrite <- app_assoc in Hr.
        now rewrite Nat.add_succ_r.
      * cbn [all_rendered]. unfold call_for. now rewrite Er.
    + injection H as <- <-.
      exists [], segment, rest. repeat split.
      cbn [calls_for List.length]. now rewrite app_nil_r, Nat.add_0_r.
Qed.

Lemma process_segments_from_fails (done : list (VideoSegment.t T)) :
  forall i segment rest segment_files calls e,
    all_rendered self render temp_path i done calls = true ->
    render (calls ++ calls_for self temp_path i done)
           (call_for self temp_path (i + List.length done) segment)
    = Raise e ->
    process_segments_from self render temp_path i (done ++ segment :: rest)
      segment_files calls
    = (Raise e, calls ++ calls_for self temp_path i (done ++ [segment])).
Proof.
  induction done as [|x done IH];
    intros i segment rest segment_files calls e Hall Hr.
  - cbn [app calls_for List.length] in *.
    rewrite app_nil_r, Nat.add_0_r in Hr.
    cbn [process_segments_from _process_single_segment].
    unfold call_for in Hr. now rewrite Hr.
  - cbn [all_rendered] in Hall.
    cbn [app process_segments_from _process_single_segment].
    unfold call_for in Hall at 1.
    destruct (render calls _) as [[]|e'] eqn:Er; [|discriminate Hall].
    cbn [calls_for List.length] in Hr.
    rewrite Nat.add_succ_r in Hr.
    rewrite (IH (S i) segment rest _ _ e Hall).
    + cbn [calls_for app]. now rewrite <- app_assoc.
    + now rewrite <- app_assoc.
Qed.

(** X19: when [_process_segments] succeeds, it has made one rendering call
    per segment, in the order of the segments, each for that segment's
    start, duration, speed and subtitle flag, and it returns the output
    files of these calls in the same order, all distinct. *)
Theorem process_segments_success (segments : list (VideoSegment.t T))
    (calls : list (render_call T)) (files : list string)
    (calls' : list (render_call T)) :
  _process_segments self render segments temp_path calls = (Ok files, calls') ->
  calls' = calls ++ calls_for self temp_path 0 segments
  /\ files = map (@call_output_file T) (calls_for self temp_path 0 segments)
  /\ List.length files = List.length segments
  /\ NoDup files.
Proof.
  unfold _process_segments. intros H.
  apply process_segments_from_ok in H. destruct H as [-> ->].
  cbn [app].
  assert (E : forall l i,
             map (@call_output_file T) (calls_for self temp_path i l)
             = map (fun k => path_join temp_path
                               (SEGMENT_FILENAME_FORMAT_format k))
                   (seq i (List.length l))).
  { induction l as [|x l IH]; intros i; [reflexivity|].
    cbn [calls_for map List.length seq call_for call_output_file].
    now rewrite IH. }
  repeat split.
  - now rewrite E.
  - now rewrite length_map, length_seq.
  - apply Injective_map_NoDup; [apply segment_path_injective | apply seq_NoDup].
Qed.

(** X20: [_process_segments] raises [e] exactly when some rendering call
    raises [e] after the calls for all the segments before it have
    returned; the failing call is then the last one made, and the segments
    after it are not rendered. *)
Theorem process_segments_failure (segments : list (VideoSegment.t T))
    (calls : list (render_call T)) (e : exn)
    (calls' : list (render_call T)) :
  _process_segments self render segments temp_path calls = (Raise e, calls')
  <-> exists done segment rest,
      segments = done ++ segment :: rest
      /\ all_rendered self render temp_path 0 done calls = true
      /\ render (calls ++ calls_for self temp_path 0 done)
                (call_for self temp_path (List.length done) segment)
         = Raise e
      /\ calls' = calls ++ calls_for self temp_path 0 (done ++ [segment]).
Proof.
  unfold _process_segments. split.
  - intros H. apply process_segments_from_raise in H.
    destruct H as (done & segment & rest & E & Hc & Hr & Hall).
    exists done, segment, rest. repeat split; assumption.
  - intros (done & segment & rest & -> & Hall & Hr & ->).
    now apply process_segments_from_fails.
Qed.
End RenderingCalls.

(** ** Concrete runs of the further properties *)

Section MoreRuns.
Import VideoSpeedProcessor SubtitleParser Samples MoreSamples Rendering.

Example schedule_single_run :
  _create_video_segments processor single 100 = schedule_single.
Proof. reflexivity. Qed.

Example segment_filename_runs :
  SEGMENT_FILENAME_FORMAT_format 7 = "segment_0007.mkv"%string
  /\ SEGMENT_FILENAME_FORMAT_format 123 = "segment_0123.mkv"%string
  /\ SEGMENT_FILENAME_FORMAT_format (10 * 1000) = "segment_10000.mkv"%string.
Proof. repeat split; reflexivity. Qed.

Example legacy_accepts_fourth_component :
  Legacy._parse_time "01:02:03:04" = Ok 3723
  /\ _parse_srt_time (T:=Q) "01:02:03:04" = Raise ValueError
  /\ Legacy._parse_time (T:=Q) "01:02" = Raise IndexError.
Proof. repeat split; reflexivity. Qed.

Example legacy_rejects_block_without_separator :
  Legacy._parse_srt (T:=Q) (holding (lines ["1"; "no arrow"; "hi"])) "t.srt"
  = Raise ValueError
  /\ parse_srt_file (T:=Q) (holding (lines ["1"; "no arrow"; "hi"])) "t.srt"
     = Ok [].
Proof. split; reflexivity. Qed.

Lemma subtitle_segments_clamped_witness :
  flt (VideoSegment.start_time (seg (19 # 2) (25 # 2) 1 true)) (of_int 0)
  = false
  /\ flt 100 (VideoSegment.end_time (seg (19 # 2) (25 # 2) 1 true)) = false.
Proof.
  apply (subtitle_segments_clamped processor 100 single).
  - simpl. auto.
  - reflexivity.
Defined.

Lemma captions_spanned_witness :
  exists s,
    In s (_create_video_segments processor single 100)
    /\ spans s (caption 10 12) = true.
Proof.
  apply (captions_spanned processor (D:=100) single (caption 10 12)).
  - discriminate.
  - simpl. auto.
  - discriminate.
  - discriminate.
Defined.


Lemma report_fails_witness :
  (raises (_print_segment_info (_create_video_segments processor single 0) 0)
   <-> 0 == 0)
  /\ (0 == 0 ->
      _print_segment_info (_create_video_segments processor single 0) 0
      = Raise ZeroDivisionError).
Proof.
  apply (report_fails_iff_zero_duration env "in.mkv" "out.mkv" 2 1 (1 # 2)
           (self:=processor) single 0).
  reflexivity.
Defined.

Lemma blank_file_witness :
  parse_srt_file (T:=Q) (holding blank_srt) "track.srt" = Ok [].
Proof.
  apply (blank_file_empty_catalog (T:=Q) (holding blank_srt) "track.srt"
           (content:=blank_srt)); reflexivity.
Defined.

Lemma ordered_track_witness :
  parse_srt_file (holding ordered_srt) "track.srt"
  = Ok [SubtitleSegment.make 1 (5 # 2) "first";
        SubtitleSegment.make 5 7 "second line"].
Proof.
  apply (ordered_track_unchanged (holding ordered_srt) "track.srt"
           (content:=ordered_srt)); reflexivity.
Defined.

Lemma caption_text_witness :
  Forall (fun sub => lacks_char line_feed (SubtitleSegment.text sub) = true)
         [SubtitleSegment.make 1 (5 # 2) "first";
          SubtitleSegment.make 5 7 "second line"].
Proof.
  apply (caption_text_single_line (holding unordered_srt) "track.srt").
  reflexivity.
Defined.

Lemma catalog_size_witness :
  List.length [SubtitleSegment.make 1 (5 # 2) "first";
               SubtitleSegment.make 5 7 "second line"]
  = List.length
      (filter (fun block => well_shaped (strip block))
              (split Config.SRT_BLOCK_DELIMITER (strip unordered_srt))).
Proof.
  apply (catalog_size (holding unordered_srt) "track.srt"
           (content:=unordered_srt)); reflexivity.
Defined.

Lemma legacy_parse_srt_witness :
  Legacy._parse_srt (holding unordered_srt) "track.srt"
  = Ok [SubtitleSegment.make 1 (5 # 2) "first";
        SubtitleSegment.make 5 7 "second line"].
Proof.
  apply (legacy_parse_srt_agrees (holding unordered_srt) "track.srt"
           (content:=unordered_srt)).
  - reflexivity.
  - intros block Hin. simpl in Hin.
    destruct Hin as [<-|[<-|[<-|[]]]]; intros H;
      solve [reflexivity | discriminate H].
  - reflexivity.
Defined.

Lemma process_segments_success_witness :
  NoDup rendered_files.
Proof.
  apply (process_segments_success processor always_ok work schedule_single []
           (files:=rendered_files)
           (calls':=calls_for processor work 0 schedule_single)).
  reflexivity.
Defined.

Lemma process_segments_failure_witness :
  _process_segments processor fails_on_second schedule_single work []
  = (Raise VideoProcessingError,
     [] ++ calls_for processor work 0 (firstn 1 schedule_single
                                       ++ [seg (19 # 2) (25 # 2) 1 true])).
Proof.
  apply (proj2 (process_segments_failure processor fails_on_second work
                  schedule_single [] VideoProcessingError
                  ([] ++ calls_for processor work 0
                           (firstn 1 schedule_single
                            ++ [seg (19 # 2) (25 # 2) 1 true])))).
  exists (firstn 1 schedule_single), (seg (19 # 2) (25 # 2) 1 true),
         (skipn 2 schedule_single).
  repeat split.
Defined.
End MoreRuns.

Section MoreBinary64Runs.
Import VideoSpeedProcessor Samples Binary64 PrimFloat.

Lemma report_equal_speeds_witness :
  exists out pct q d v,
    _print_segment_info
      (_create_video_segments (processor64 2 2 0.5) [caption64 10 12]
         100%float) 100%float
    = Ok (out, pct)
    /\ val out = Some q
    /\ val 100%float = Some d
    /\ val 2%float = Some v
    /\ q == d / v.
Proof.
  apply (@report_equal_speeds float _ _ _ (processor64 2 2 0.5) 100%float
           [caption64 10 12]);
    vm_compute; reflexivity.
Defined.

Lemma report_within_bounds_witness :
  exists out pct,
    _print_segment_info
      (_create_video_segments (processor64 2 1 0.5) [caption64 10 12]
         100%float) 100%float
    = Ok (out, pct)
    /\ fle (of_int 0) out = true
    /\ fle out 100%float = true.
Proof.
  apply (@report_within_bounds float _ _ _ (processor64 2 1 0.5) 100%float
           [caption64 10 12]);
    vm_compute; reflexivity.
Defined.

Example report_binary64 :
  _print_segment_info
    (_create_video_segments (processor64 2 1 0.5) [caption64 10 12] 100%float)
    100%float
  = Ok (51.5%float, 48.5%float).
Proof. vm_compute. reflexivity. Qed.
End MoreBinary64Runs.

(** ** The run as a whole *)

Section WholeRun.
Import VideoSpeedProcessor ArgumentParser Pipeline.

Lemma print_segment_info_ok (self : t Q) (D : Q)
    (subtitles : list (SubtitleSegment.t Q)) :
  0 < speed_no_subtitle self -> 0 < speed_with_subtitle self ->
  ~ D == 0 ->
  exists info,
    _print_segment_info (_create_video_segments self subtitles D) D = Ok info.
Proof.
  intros H1 H2 HD.
  destruct (sum_output_duration_total (of_int 0)
              (segments_speed_nonzero self D subtitles H1 H2)) as (out & Hout).
  destruct (print_segment_info_value _ Hout HD) as (pct & Hp & _).
  eauto.
Qed.

Lemma print_segment_info_zero (self : t Q) (D : Q)
    (subtitles : list (SubtitleSegment.t Q)) :
  0 < speed_no_subtitle self -> 0 < speed_with_subtitle self ->
  D == 0 ->
  _print_segment_info (_create_video_segments self subtitles D) D
  = Raise ZeroDivisionError.
Proof.
  intros H1 H2 HD.
  destruct (sum_output_duration_total (of_int 0)
              (segments_speed_nonzero self D subtitles H1 H2)) as (out & Hout).
  unfold _print_segment_info. rewrite Hout. cbn [bind].
  unfold truediv. change (feq D (of_int 0)) with (Qeq_bool D 0).
  apply Qeq_bool_iff in HD. now rewrite HD.
Qed.

(** X21: when the reported video duration is zero, [process] ends the
    program with status 1 before anything is rendered. *)
Theorem zero_duration_aborts (env : Env) (input output : string)
    (s1 s2 buf : Q) (self : t Q) (stages : Stages Q)
    (subtitles : list (SubtitleSegment.t Q)) (D : Q) :
  __init__ env input output s1 s2 buf = Ok self ->
  _extract_subtitles stages self = Ok subtitles ->
  _get_video_duration stages self = Ok D ->
  D == 0 ->
  process stages self = (SystemExit 1, None).
Proof.
  intros Hinit Hsubs Hdur HD.
  destruct (init_speeds_positive _ _ _ _ _ _ Hinit) as (H1 & H2 & _).
  unfold process, process_body. rewrite Hsubs, Hdur.
  now rewrite (print_segment_info_zero self subtitles H1 H2 HD).
Qed.

(** X22: [main] returns normally exactly when [parse_args] returns a
    namespace that passes both validations, the subtitles and a non-zero
    duration are obtained, and rendering succeeds; what was rendered is then
    the schedule of these subtitles.  When [argparse] ends the program
    itself, its status stands; in every other case the program ends with
    status 1. *)
Theorem main_returns_iff (env : Env) (stages : Stages Q)
    (parse_args : parsed Q) (handed : option (list (VideoSegment.t Q))) :
  (main env stages parse_args = (Returns, handed)
   <-> exists args self subtitles D,
        parse_args = Parsed args
        /\ validate_arguments args = Ok tt
        /\ __init__ env (input args) (output args) (speed_no_sub args)
                    (speed_with_sub args) (buffer args) = Ok self
        /\ _extract_subtitles stages self = Ok subtitles
        /\ _get_video_duration stages self = Ok D
        /\ ~ D == 0
        /\ _process_video stages self
             (_create_video_segments self subtitles D) = Ok tt
        /\ handed = Some (_create_video_segments self subtitles D))
  /\ (forall code,
         parse_args = ParserExit code ->
         main env stages parse_args = (SystemExit code, None))
  /\ (forall args,
         parse_args = Parsed args ->
         fst (main env stages parse_args) = Returns
         \/ fst (main env stages parse_args) = SystemExit 1).
Proof.
  destruct parse_args as [args|code].
  2: { split; [|split].
       - split; [discriminate|].
         intros (args & self & subs & D & Hp & _). discriminate Hp.
       - intros code' H. injection H as <-. reflexivity.
       - intros args H. discriminate H. }
  assert (Hgoal :
    (main env stages (Parsed args) = (Returns, handed)
     <-> exists self subtitles D,
        validate_arguments args = Ok tt
        /\ __init__ env (input args) (output args) (speed_no_sub args)
                    (speed_with_sub args) (buffer args) = Ok self
        /\ _extract_subtitles stages self = Ok subtitles
        /\ _get_video_duration stages self = Ok D
        /\ ~ D == 0
        /\ _process_video stages self
             (_create_video_segments self subtitles D) = Ok tt
        /\ handed = Some (_create_video_segments self subtitles D))
    /\ (fst (main env stages (Parsed args)) = Returns
        \/ fst (main env stages (Parsed args)) = SystemExit 1)).
  2: { destruct Hgoal as [Hiff Hcases]. split; [|split].
       - rewrite Hiff. split.
         + intros (self & subs & D & H). exists args, self, subs, D.
           split; [reflexivity | exact H].
         + intros (args' & self & subs & D & Hp & H).
           injection Hp as <-. exists self, subs, D. exact H.
       - intros code H. discriminate H.
       - intros args' _. exact Hcases. }
  unfold main.
  destruct (validate_arguments args) as [[]|e] eqn:Hval; cbn [bind].
  2: { split; [|right; reflexivity]. split; [discriminate|].
       intros (self & subs & D & Hv & _). discriminate Hv. }
  destruct (__init__ env (input args) (output args) (speed_no_sub args)
                     (speed_with_sub args) (buffer args))
    as [self|e] eqn:Hinit.
  2: { split; [|right; reflexivity]. split; [discriminate|].
       intros (self & subs & D & _ & Hi & _). discriminate Hi. }
  destruct (init_speeds_positive _ _ _ _ _ _ Hinit) as (H1 & H2 & _).
  unfold process, process_body.
  destruct (_extract_subtitles stages self) as [subs|e] eqn:Hsubs.
  2: { split; [|right; reflexivity]. split; [discriminate|].
       intros (self' & subs & D & _ & Hi & Hs & _).
       injection Hi as <-. rewrite Hsubs in Hs. discriminate Hs. }
  destruct (_get_video_duration stages self) as [D|e] eqn:Hdur.
  2: { split; [|right; reflexivity]. split; [discriminate|].
       intros (self' & subs' & D & _ & Hi & _ & Hd & _).
       injection Hi as <-. rewrite Hdur in Hd. discriminate Hd. }
  cbv zeta.
  destruct (Qeq_dec D 0) as [HD|HD].
  - rewrite (print_segment_info_zero self subs H1 H2 HD).
    split; [|right; reflexivity]. split; [discriminate|].
    intros (self' & subs' & D' & _ & Hi & Hs & Hd & HD' & _).
    injection Hi as <-. rewrite Hdur in Hd. injection Hd as <-.
    contradiction.
  - destruct (print_segment_info_ok self subs H1 H2 HD) as (info & ->).
    destruct (_process_video stages self (_create_video_segments self subs D))
      as [[]|e] eqn:Hrender.
    + split; [|left; reflexivity]. split.
      * intros H. injection H as <-.
        exists self, subs, D. repeat split; assumption.
      * intros (self' & subs' & D' & _ & Hi & Hs & Hd & _ & _ & ->).
        injection Hi as <-. rewrite Hsubs in Hs. injection Hs as <-.
        rewrite Hdur in Hd. injection Hd as <-. reflexivity.
    + split; [|right; reflexivity]. split; [discriminate|].
      intros (self' & subs' & D' & _ & Hi & Hs & Hd & _ & Hr & _).
      injection Hi as <-. rewrite Hsubs in Hs. injection Hs as <-.
      rewrite Hdur in Hd. injection Hd as <-.
      rewrite Hrender in Hr. discriminate Hr.
Qed.
End WholeRun.

Section RenderedClips.
Import VideoSpeedProcessor Rendering.

Lemma segments_positive (self : t Q) (D : Q) subs :
  windows_nonempty self D subs = true ->
  Forall (fun seg => VideoSegment.start_time seg < VideoSegment.end_time seg)
         (_create_video_segments self subs D).
Proof.
  intros Hne. rewrite create_video_segments_sweep.
  apply Forall_app. split.
  - apply Forall_forall. intros seg Hin. apply Q_flt_true.
    eapply sweep_windows_positive; eassumption.
  - destruct (flt (snd (sweep self D (of_int 0) subs)) D) eqn:Hlt;
      constructor; [|constructor].
    now apply Q_flt_true in Hlt.
Qed.

Lemma calls_for_durations (self : t Q) (temp_path : string)
    (segments : list (VideoSegment.t Q)) :
  Forall (fun seg => VideoSegment.start_time seg < VideoSegment.end_time seg)
         segments ->
  forall i,
    Forall (fun call => 0 < call_duration call)
           (calls_for self temp_path i segments).
Proof.
  induction 1 as [|seg segments Hseg _ IH]; intros i; [constructor|].
  cbn [calls_for]. constructor; [|apply IH].
  cbn [call_for call_duration]. unfold VideoSegment.duration.
  change (fsub ?a ?b) with (Qred (a - b)). rewrite Qred_correct. lra.
Qed.

(** X23: when every padded window is non-empty, every rendering call that
    [_process_segments] makes for the schedule asks for a clip of positive
    duration, whether the rendering succeeds or fails. *)
Theorem rendered_clips_positive (self : t Q) (render : renderer Q)
    (temp_path : string) (subtitles : list (SubtitleSegment.t Q)) (D : Q)
    (outcome : result (list string)) (calls : list (render_call Q)) :
  windows_nonempty self D subtitles = true ->
  _process_segments self render (_create_video_segments self subtitles D)
                    temp_path [] = (outcome, calls) ->
  Forall (fun call => 0 < call_duration call) calls.
Proof.
  intros Hne H. pose proof (segments_positive self D subtitles Hne) as Hpos.
  unfold _process_segments in H. destruct outcome as [files|e].
  - apply process_segments_from_ok in H. destruct H as [_ ->].
    now apply calls_for_durations.
  - apply process_segments_from_raise in H.
    destruct H as (done & seg & rest & E & -> & _).
    apply calls_for_durations. rewrite E in Hpos.
    apply Forall_app in Hpos. destruct Hpos as [Hd Hs].
    apply Forall_app. split; [exact Hd|].
    inversion Hs; subst. now constructor.
Qed.
End RenderedClips.

Section WholeRunWitnesses.
Import VideoSpeedProcessor ArgumentParser Pipeline Rendering.
Import Samples MoreSamples.

Example main_default_run :
  main env (stages_of 100) (Parsed default_args)
  = (Returns, Some schedule_single).
Proof. reflexivity. Qed.

Example main_rejected_command_line :
  main env (stages_of 100) (ParserExit 2) = (SystemExit 2, None).
Proof. reflexivity. Qed.

Lemma zero_duration_witness :
  process (stages_of 0) processor = (SystemExit 1, None).
Proof.
  apply (zero_duration_aborts env "in.mkv" "out.mkv" 2 1 (1 # 2)
           (self:=processor) (stages_of 0) (subtitles:=single) (D:=0));
    reflexivity.
Defined.

Lemma rendered_clips_witness :
  Forall (fun call => 0 < call_duration call)
         (calls_for processor work 0 schedule_single).
Proof.
  apply (rendered_clips_positive processor always_ok work single 100
           (outcome:=Ok rendered_files)); reflexivity.
Defined.
End WholeRunWitnesses.
